(** * TextEditor: the document content pipeline

    A shallow embedding of the TypeScript sources
      - [src/lib/documentUtils.ts]   (extension detection, rich/plain conversion),
      - [src/stores/editorStore.ts]  (document table, statistics, content health),
      - [src/lib/ai.ts]              (provider call with its retry policy),
      - [src/components/editor/TiptapEditor.tsx] and [PlainTextEditor.tsx]
        (the debounced save of an editing surface),
    followed by the properties of the specification that were checked on it.

    Strings.  A JavaScript string is a sequence of UTF-16 code units.  The
    embedding works on the code units below 256 (the Latin-1 range), one
    [ascii] per code unit, so a string is a [list ascii].  In that range the
    white space of [\s] and of [String.prototype.trim] is
    TAB, LF, VT, FF, CR, SPACE and NBSP (U+00A0), and the line terminators
    seen by [$] under the [m] flag are LF and CR.

    Regular expressions.  Each regular expression of the sources is embedded
    as a _matcher_: a function that, given the rest of the subject, returns
    the length of the match that starts at its head (leftmost, with the
    greedy/backtracking choice of the expression already resolved), or [None].
    The methods [replace] with the [g] flag, [split], [match] with the [g]
    flag and [test] are then the usual left-to-right scans over a matcher. *)

From Stdlib Require String DecimalString DecimalNat.
From Stdlib Require Import List Ascii ZArith Lia Bool Arith PeanoNat Permutation.
Import ListNotations String.StringSyntax.
Delimit Scope string_scope with string.
Open Scope char_scope.
Open Scope nat_scope.

(* ===================================================================== *)
(** * JavaScript strings and the regular-expression drivers               *)
(* ===================================================================== *)

Module Js.

Definition str := list ascii.

(** A literal of the source. *)
Definition ls (s : String.string) : str := String.list_ascii_of_string s.
Arguments ls s%_string.

Definition code (c : ascii) : nat := nat_of_ascii c.
Definition chr (n : nat) : ascii := ascii_of_nat n.

Definition in_range (lo hi : nat) (c : ascii) : bool :=
  (lo <=? code c) && (code c <=? hi).

Definition LF : ascii := chr 10.
Definition CR : ascii := chr 13.
(** The double quote. *)
Definition DQ : ascii := chr 34.

Definition is_chr (a c : ascii) : bool := Ascii.eqb a c.

(** [\s], which is also what [trim] strips. *)
Definition is_space (c : ascii) : bool :=
  in_range 9 13 c || is_chr " " c || (code c =? 160).

(** LineTerminator: where [$] matches under the [m] flag. *)
Definition is_line_terminator (c : ascii) : bool :=
  is_chr LF c || is_chr CR c.

Definition is_digit (c : ascii) : bool := in_range 48 57 c.
Definition is_upper (c : ascii) : bool := in_range 65 90 c.
Definition is_lower (c : ascii) : bool := in_range 97 122 c.

(** [[a-z0-9]] under the [i] flag. *)
Definition is_alnum (c : ascii) : bool := is_digit c || is_upper c || is_lower c.

(** [\w], used by the word-boundary assertion [\b]. *)
Definition is_word (c : ascii) : bool := is_alnum c || is_chr "_" c.

(** [String.prototype.toLowerCase] on the Latin-1 range: A-Z and the
    accented capitals U+00C0..U+00DE (but not the multiplication sign
    U+00D7) move up by 32. *)
Definition lower_char (c : ascii) : ascii :=
  if is_upper c || (in_range 192 222 c && negb (code c =? 215))
  then chr (code c + 32) else c.

Definition toLowerCase (s : str) : str := map lower_char s.

(** Canonicalisation of the [i] flag (without [u]): characters are compared
    after upper-casing, except that a character from 128 on never folds
    onto one below 128.  Every pattern character of the sources is ASCII,
    for which only the ASCII letters fold. *)
Definition canon (c : ascii) : ascii :=
  if is_lower c then chr (code c - 32) else c.

Definition ci_eq (a c : ascii) : bool := Ascii.eqb (canon a) (canon c).

Fixpoint str_eqb (a b : str) : bool :=
  match a, b with
  | [], [] => true
  | x :: a', y :: b' => Ascii.eqb x y && str_eqb a' b'
  | _, _ => false
  end.

(** ** trim *)

Fixpoint trimStart (s : str) : str :=
  match s with
  | c :: r => if is_space c then trimStart r else s
  | [] => []
  end.

Definition trimEnd (s : str) : str := rev (trimStart (rev s)).

Definition trim (s : str) : str := trimEnd (trimStart s).

(** ** Matchers *)

Definition matcher := str -> option nat.

(** Length of the longest prefix whose characters satisfy [p]. *)
Fixpoint run_length (p : ascii -> bool) (s : str) : nat :=
  match s with
  | c :: r => if p c then S (run_length p r) else 0
  | [] => 0
  end.

(** [[class]{min,}], greedy: the whole run, when it is long enough. *)
Definition m_run (p : ascii -> bool) (min : nat) : matcher :=
  fun s => let n := run_length p s in
           if (min <=? n) && (1 <=? n) then Some n else None.

(** [[class]]: one character. *)
Definition m_class (p : ascii -> bool) : matcher :=
  fun s => match s with
           | c :: _ => if p c then Some 1 else None
           | [] => None
           end.

(** Does [s] start with [pat], characters compared by [eq]? *)
Fixpoint starts_by (eq : ascii -> ascii -> bool) (pat s : str) : bool :=
  match pat, s with
  | [], _ => true
  | a :: pat', c :: s' => eq a c && starts_by eq pat' s'
  | _ :: _, [] => false
  end.

Definition startsWith (pat s : str) : bool := starts_by Ascii.eqb pat s.

(** A literal pattern, case-sensitive or under the [i] flag. *)
Definition m_lit (pat : str) : matcher :=
  fun s => if startsWith pat s then Some (length pat) else None.

Definition m_lit_ci (pat : str) : matcher :=
  fun s => if starts_by ci_eq pat s then Some (length pat) else None.

(** [a|b]: the left alternative is tried first. *)
Definition m_alt (m1 m2 : matcher) : matcher :=
  fun s => match m1 s with
           | Some n => Some n
           | None => m2 s
           end.

(** Number of characters up to and including the first [>], if any:
    what [[^>]*>] consumes. *)
Fixpoint through_gt (s : str) : option nat :=
  match s with
  | c :: r => if is_chr ">" c then Some 1
              else match through_gt r with
                   | Some n => Some (S n)
                   | None => None
                   end
  | [] => None
  end.

(** ** The scans behind [replace], [split], [match] and [test] *)

(** A subject cut into the characters outside matches and the matches. *)
Inductive piece :=
| Text (c : ascii)
| Hit (matched : str).

(** Left to right, non-overlapping; after a match the scan resumes behind
    it ([skip] counts the characters of the current match still to pass).
    No expression of the sources matches the empty string. *)
Fixpoint scan_from (m : matcher) (skip : nat) (s : str) : list piece :=
  match s with
  | [] => []
  | c :: r =>
      match skip with
      | S k => scan_from m k r
      | O =>
          match m s with
          | Some (S n) => Hit (firstn (S n) s) :: scan_from m n r
          | _ => Text c :: scan_from m O r
          end
      end
  end.

Definition scan (m : matcher) (s : str) : list piece := scan_from m 0 s.

(** [s.replace(/re/g, f)] for a replacement function [f] of the match. *)
Definition replace_with (m : matcher) (f : str -> str) (s : str) : str :=
  flat_map (fun p => match p with Text c => [c] | Hit x => f x end) (scan m s).

(** [s.replace(/re/g, rep)]; no replacement text of the sources contains [$]. *)
Definition replace_all (m : matcher) (rep : str) (s : str) : str :=
  replace_with m (fun _ => rep) s.

(** The pieces between the matches. *)
Fixpoint between (ps : list piece) : list str :=
  match ps with
  | [] => [[]]
  | Text c :: r =>
      match between r with
      | h :: t => (c :: h) :: t
      | [] => [[c]]
      end
  | Hit _ :: r => [] :: between r
  end.

(** [s.split(/re/)], and [s.split(sep)] with a literal matcher. *)
Definition split (m : matcher) (s : str) : list str := between (scan m s).

(** [(s.match(/re/g) || []).length] *)
Definition match_count (m : matcher) (s : str) : nat :=
  length (filter (fun p => match p with Hit _ => true | Text _ => false end)
                 (scan m s)).

(** [/re/.test(s)]: is there a match at some position? *)
Fixpoint test (m : matcher) (s : str) : bool :=
  match m s with
  | Some _ => true
  | None => match s with
            | [] => false
            | _ :: r => test m r
            end
  end.

(** [s.includes(pat)] *)
Definition includes (pat s : str) : bool := test (m_lit pat) s.

(** Truthiness of a string: [s] is truthy unless it is empty. *)
Definition truthy (s : str) : bool :=
  match s with
  | [] => false
  | _ :: _ => true
  end.

(** [arr.pop()] as used on a fresh array: its last element. *)
Fixpoint pop (l : list str) : option str :=
  match l with
  | [] => None
  | [x] => Some x
  | _ :: r => pop r
  end.

(** [arr.join("")] *)
Definition join (l : list str) : str := concat l.

End Js.

Import Js.

Arguments is_chr : simpl never.
Arguments is_space : simpl never.
Arguments is_line_terminator : simpl never.
Arguments is_digit : simpl never.
Arguments is_alnum : simpl never.
Arguments is_word : simpl never.
Arguments lower_char : simpl never.
Arguments ci_eq : simpl never.

(* ===================================================================== *)
(** * stores/editorStore.ts: the data model                               *)
(* ===================================================================== *)

Module EditorStore.

(** [interface Document].  [updateDocument] and [renameDocument] build the
    stored object by spreading [state.documents[id]], which is [undefined]
    for a missing id, so an object of the table may lack any field: every
    field is an [option], [None] standing for an absent property.  The same
    record serves as [Partial<Document>].  [parentId] distinguishes an absent
    property ([None]) from [null] ([Some None]). *)
Record Document := mkDocument {
  id : option str;
  title : option str;
  content : option str;
  parentId : option (option str);
  isFolder : option bool;
  children : option (list str);
  createdAt : option Z;
  updatedAt : option Z;
  wordCount : option Z
}.

(** The object with no property: the spread of [undefined]. *)
Definition emptyObject : Document :=
  mkDocument None None None None None None None None None.

Definition orElse {A} (a b : option A) : option A :=
  match a with
  | Some _ => a
  | None => b
  end.

(** [{ ...base, ...updates }]: the properties of [updates] win. *)
Definition spread (base updates : Document) : Document :=
  {| id := orElse (id updates) (id base);
     title := orElse (title updates) (title base);
     content := orElse (content updates) (content base);
     parentId := orElse (parentId updates) (parentId base);
     isFolder := orElse (isFolder updates) (isFolder base);
     children := orElse (children updates) (children base);
     createdAt := orElse (createdAt updates) (createdAt base);
     updatedAt := orElse (updatedAt updates) (updatedAt base);
     wordCount := orElse (wordCount updates) (wordCount base) |}.

(** [documents: Record<string, Document>]: the own properties of the object
    in the order [Object.keys] and [Object.values] enumerate them, each key
    once. *)
Definition table := list (str * Document).

Definition keys (docs : table) : list str := map fst docs.
Definition values (docs : table) : list Document := map snd docs.

(** [docs[k]] *)
Fixpoint lookup (docs : table) (k : str) : option Document :=
  match docs with
  | [] => None
  | (k', d) :: r => if str_eqb k' k then Some d else lookup r k
  end.

(** [delete docs[k]] *)
Definition delete (k : str) (docs : table) : table :=
  filter (fun kv => negb (str_eqb (fst kv) k)) docs.

(** ** Property order of an object

    [Object.keys] lists the array-index keys first, in ascending numeric
    order, and then the other string keys in the order they were added.  An
    array index is the canonical decimal form of an integer below 2^32 - 1. *)

Definition digit_value (c : ascii) : N := N.of_nat (code c - 48).

Definition decimal (s : str) : N :=
  fold_left (fun acc c => (10 * acc + digit_value c)%N) s 0%N.

Definition array_index (k : str) : option N :=
  match k with
  | [] => None
  | c :: r =>
      if forallb is_digit k && (negb (is_chr "0" c) || negb (truthy r))
         && (decimal k <? 4294967295)%N
      then Some (decimal k) else None
  end.

(** A new array-index key goes before the first key that is not an array
    index or is a larger one. *)
Fixpoint insert_index (n : N) (k : str) (v : Document) (docs : table) : table :=
  match docs with
  | [] => [(k, v)]
  | (k', d) :: r =>
      match array_index k' with
      | Some n' => if (n' <? n)%N then (k', d) :: insert_index n k v r
                   else (k, v) :: docs
      | None => (k, v) :: docs
      end
  end.

Fixpoint replace_value (k : str) (v : Document) (docs : table) : table :=
  match docs with
  | [] => []
  | (k', d) :: r => if str_eqb k' k then (k', v) :: r
                    else (k', d) :: replace_value k v r
  end.

(** [{ ...docs, [k]: v }] *)
Definition set_key (docs : table) (k : str) (v : Document) : table :=
  match lookup docs k with
  | Some _ => replace_value k v docs
  | None =>
      match array_index k with
      | Some n => insert_index n k v docs
      | None => docs ++ [(k, v)]
      end
  end.

(** ** The store *)

Inductive SidebarTab := TabAi | TabOutline.

(** [interface EditorState], without its actions.  The editor's own
    [wordCount] is named [editorWordCount], the name [wordCount] being the
    field of [Document]. *)
Record EditorState := mkEditorState {
  documents : table;
  activeDocumentId : option str;
  isZenMode : bool;
  isLeftSidebarOpen : bool;
  isRightSidebarOpen : bool;
  rightSidebarTab : SidebarTab;
  editorWordCount : nat;
  charCount : nat;
  readingTime : nat;
  contentHealthScore : nat
}.

(** [set(partial)] of zustand, for the two groups of fields the actions
    below write. *)
Definition set_documents (st : EditorState) (docs : table)
           (active : option str) : EditorState :=
  {| documents := docs;
     activeDocumentId := active;
     isZenMode := isZenMode st;
     isLeftSidebarOpen := isLeftSidebarOpen st;
     isRightSidebarOpen := isRightSidebarOpen st;
     rightSidebarTab := rightSidebarTab st;
     editorWordCount := editorWordCount st;
     charCount := charCount st;
     readingTime := readingTime st;
     contentHealthScore := contentHealthScore st |}.

Definition set_stats (st : EditorState) (words chars minutes health : nat)
  : EditorState :=
  {| documents := documents st;
     activeDocumentId := activeDocumentId st;
     isZenMode := isZenMode st;
     isLeftSidebarOpen := isLeftSidebarOpen st;
     isRightSidebarOpen := isRightSidebarOpen st;
     rightSidebarTab := rightSidebarTab st;
     editorWordCount := words;
     charCount := chars;
     readingTime := minutes;
     contentHealthScore := health |}.

(** [Math.ceil(a / b)] for natural numbers [a] and [b > 0]; the quotient of
    the source is a double, exact enough for every count a string can
    yield. *)
Definition ceil_div (a b : nat) : nat := (a + (b - 1)) / b.

(** [calcReadingTime(wordCount)] *)
Definition calcReadingTime (wordCount : nat) : nat := ceil_div wordCount 238.

(** [/\s+/] *)
Definition m_spaces : matcher := m_run is_space 1.

(** [/[.!?]+/g] *)
Definition is_sentence_mark (c : ascii) : bool :=
  is_chr "." c || is_chr "!" c || is_chr "?" c.

(** [/<h[1-3]/] *)
Definition m_heading : matcher :=
  fun s => match s with
           | "<" :: "h" :: d :: _ => if in_range 49 51 d then Some 3 else None
           | _ => None
           end.

(** [calcContentHealth(text)].  [avgWordsPerSentence < 25] compares the
    quotient of two counts with 25, that is [words < 25 * sentences]. *)
Definition calcContentHealth (text : str) : nat :=
  if negb (truthy (trim text)) then 0
  else
    let words := length (split m_spaces (trim text)) in
    let sentences :=
      match match_count (m_run is_sentence_mark 1) text with
      | 0 => 1
      | n => n
      end in
    let hasHeaders := test m_heading text in
    let hasList := test (m_alt (m_lit (ls "<ul")) (m_lit (ls "<ol"))) text in
    let hasCode := test (m_alt (m_lit (ls "<code")) (m_lit (ls "<pre"))) text in
    let score := 40 in
    let score := if 100 <=? words then score + 20 else score in
    let score := if 300 <=? words then score + 10 else score in
    let score := if words <? 25 * sentences then score + 10 else score in
    let score := if hasHeaders then score + 10 else score in
    let score := if hasList then score + 5 else score in
    let score := if hasCode then score + 5 else score in
    Nat.min score 100.

(** [/<[^>]*>/g], as in [updateEditorStats] *)
Definition m_markup : matcher :=
  fun s =>
    match s with
    | "<" :: r => match through_gt r with
                  | Some n => Some (1 + n)
                  | None => None
                  end
    | _ => None
    end.

(** The [text] of [updateEditorStats]. *)
Definition statsText (content : str) : str :=
  trim (replace_all m_spaces (ls " ") (replace_all m_markup (ls " ") content)).

(** [updateEditorStats(content)] *)
Definition updateEditorStats (content : str) (st : EditorState) : EditorState :=
  let text := statsText content in
  let words := if truthy text then length (split m_spaces text) else 0 in
  let chars := length text in
  set_stats st words chars (calcReadingTime words) (calcContentHealth content).

(** [createDocument(parentId, isFolder)]; [newId] is what [generateId()]
    returns and [now] what [Date.now()] returns. *)
Definition createDocument (newId : str) (now : Z) (parent : option str)
           (folder : bool) (st : EditorState) : EditorState * str :=
  let doc :=
    {| id := Some newId;
       title := Some (if folder then ls "New Folder" else ls "Untitled");
       content := Some (if folder then [] else ls "<p></p>");
       parentId := Some parent;
       isFolder := Some folder;
       children := None;
       createdAt := Some now;
       updatedAt := Some now;
       wordCount := None |} in
  (set_documents st (set_key (documents st) newId doc)
                 (if folder then activeDocumentId st else Some newId),
   newId).

(** [state.documents[id]] under a spread: [undefined] spreads to nothing. *)
Definition stored (docs : table) (k : str) : Document :=
  match lookup docs k with
  | Some d => d
  | None => emptyObject
  end.

Definition onlyUpdatedAt (now : Z) : Document :=
  mkDocument None None None None None None None (Some now) None.

Definition onlyTitle (t : str) : Document :=
  mkDocument None (Some t) None None None None None None None.

Definition onlyContent (c : str) : Document :=
  mkDocument None None (Some c) None None None None None None.

(** [updateDocument(id, updates)] *)
Definition updateDocument (now : Z) (k : str) (updates : Document)
           (st : EditorState) : EditorState :=
  set_documents st
    (set_key (documents st) k
       (spread (spread (stored (documents st) k) updates) (onlyUpdatedAt now)))
    (activeDocumentId st).

(** [renameDocument(id, title)] *)
Definition renameDocument (now : Z) (k : str) (t : str)
           (st : EditorState) : EditorState :=
  set_documents st
    (set_key (documents st) k
       (spread (spread (stored (documents st) k) (onlyTitle t)) (onlyUpdatedAt now)))
    (activeDocumentId st).

(** [d.parentId === docId], where [docId] is [d.id] of some object on the
    recursive calls and so may be [undefined] ([None]). *)
Definition parent_is (d : Document) (docId : option str) : bool :=
  match parentId d, docId with
  | None, None => true
  | Some (Some p), Some x => str_eqb p x
  | _, _ => false
  end.

(** The property key [docs[docId]] addresses. *)
Definition property_key (docId : option str) : str :=
  match docId with
  | Some k => k
  | None => ls "undefined"
  end.

(** [Object.values(docs).forEach(...)] over the array taken when the call
    started, [docs] being the one mutable object all calls share. *)
Fixpoint forEach (visit : table -> Document -> option table)
         (snapshot : list Document) (docs : table) : option table :=
  match snapshot with
  | [] => Some docs
  | d :: rest =>
      match visit docs d with
      | Some docs' => forEach visit rest docs'
      | None => None
      end
  end.

(** [deleteRecursive(docId)].  [fuel] bounds the depth of the recursion:
    [None] is the call stack running out. *)
Fixpoint deleteRecursive (fuel : nat) (docs : table) (docId : option str)
  : option table :=
  match fuel with
  | O => None
  | S fuel' =>
      match forEach (fun cur d => if parent_is d docId
                                  then deleteRecursive fuel' cur (id d)
                                  else Some cur)
                    (values docs) docs with
      | Some docs' => Some (delete (property_key docId) docs')
      | None => None
      end
  end.

(** [remainingIds[0] || null]: the empty string is falsy. *)
Definition first_or_null (ids : list str) : option str :=
  match ids with
  | k :: _ => if truthy k then Some k else None
  | [] => None
  end.

Definition same_id (a : option str) (k : str) : bool :=
  match a with
  | Some x => str_eqb x k
  | None => false
  end.

(** [deleteDocument(id)] *)
Definition deleteDocument (fuel : nat) (k : str) (st : EditorState)
  : option EditorState :=
  match deleteRecursive fuel (documents st) (Some k) with
  | Some docs =>
      let remainingIds := keys docs in
      Some (set_documents st docs
              (if same_id (activeDocumentId st) k
               then first_or_null remainingIds
               else activeDocumentId st))
  | None => None
  end.

(** [setActiveDocument(id)] *)
Definition setActiveDocument (k : str) (st : EditorState) : EditorState :=
  set_documents st (documents st) (Some k).

End EditorStore.

Import EditorStore.

(* ===================================================================== *)
(** * lib/documentUtils.ts                                                *)
(* ===================================================================== *)

Module DocumentUtils.

(** [/^[a-z0-9]+$/i.test(ext)]: the greedy run from the start has to reach
    the end of the input. *)
Definition re_alnum_only (s : str) : bool :=
  match m_run is_alnum 1 s with
  | Some n => n =? length s
  | None => false
  end.

(** [getDocumentExtension(doc)] *)
Definition getDocumentExtension (doc : Document) : option str :=
  let title := match title doc with
               | Some t => trim t
               | None => []
               end in
  if negb (includes (ls ".") title) then None
  else
    match pop (split (m_lit (ls ".")) title) with
    | Some last =>
        let ext := toLowerCase last in
        if truthy ext && re_alnum_only ext then Some ext else None
    | None => None
    end.

(** The alternation [(?:p|div|h[1-6]|li|tr|blockquote|br)] under the [i]
    flag: each alternative returns the number of characters it consumes. *)
Definition alt_name (name : str) : str -> option nat :=
  fun s => if starts_by ci_eq name s then Some (length name) else None.

Definition alt_h_1_6 : str -> option nat :=
  fun s => match s with
           | h :: d :: _ => if ci_eq "h" h && in_range 49 54 d
                            then Some 2 else None
           | _ => None
           end.

Definition block_alts : list (str -> option nat) :=
  [ alt_name (ls "p"); alt_name (ls "div"); alt_h_1_6; alt_name (ls "li");
    alt_name (ls "tr"); alt_name (ls "blockquote"); alt_name (ls "br") ].

(** The alternatives in order, backtracking into the next one when the
    rest of the expression ([cont]) fails behind the current one. *)
Fixpoint try_alts (alts : list (str -> option nat))
         (cont : str -> option nat) (s : str) : option nat :=
  match alts with
  | [] => None
  | a :: rest =>
      match a s with
      | Some n =>
          match cont (skipn n s) with
          | Some k => Some (n + k)
          | None => try_alts rest cont s
          end
      | None => try_alts rest cont s
      end
  end.

(** [\b] directly behind a name, whose last character is a word character:
    it holds at the end of the input or before a non-word character. *)
Definition boundary_after_word (s : str) : bool :=
  match s with
  | [] => true
  | c :: _ => negb (is_word c)
  end.

(** [(?:...)\b[^>]*>] *)
Definition block_tail (s : str) : option nat :=
  try_alts block_alts
           (fun u => if boundary_after_word u then through_gt u else None) s.

(** [/<\/?(?:p|div|h[1-6]|li|tr|blockquote|br)\b[^>]*>/gi]: the optional
    slash is taken first and given back when the rest fails. *)
Definition m_block : matcher :=
  fun s =>
    match s with
    | "<" :: r =>
        let with_slash :=
          match r with
          | "/" :: r' => match block_tail r' with
                         | Some n => Some (2 + n)
                         | None => None
                         end
          | _ => None
          end in
        match with_slash with
        | Some n => Some n
        | None => match block_tail r with
                  | Some n => Some (1 + n)
                  | None => None
                  end
        end
    | _ => None
    end.

(** [/<br\s*\/?>/gi].  Behind the whole white-space run comes an optional
    slash and then [>]; giving white space back cannot help, since the
    character then next is white space, neither [/] nor [>]. *)
Definition m_br : matcher :=
  fun s =>
    if starts_by ci_eq (ls "<br") s then
      let rest := skipn 3 s in
      let w := run_length is_space rest in
      match skipn w rest with
      | "/" :: ">" :: _ => Some (3 + w + 2)
      | ">" :: _ => Some (3 + w + 1)
      | _ => None
      end
    else None.

(** [/<[^>]*>/g] *)
Definition m_tag : matcher :=
  fun s =>
    match s with
    | "<" :: r => match through_gt r with
                  | Some n => Some (1 + n)
                  | None => None
                  end
    | _ => None
    end.

(** [$] under the [m] flag: the end of the input or before a line
    terminator. *)
Definition at_line_end (s : str) : bool :=
  match s with
  | [] => true
  | c :: _ => is_line_terminator c
  end.

(** [/\s+$/gm]: the longest stretch of white space from the head that stops
    at a line end (the greedy [\s+] gives characters back until [$] holds). *)
Fixpoint m_trailing_space (s : str) : option nat :=
  match s with
  | c :: r =>
      if is_space c then
        match m_trailing_space r with
        | Some n => Some (S n)
        | None => if at_line_end r then Some 1 else None
        end
      else None
  | [] => None
  end.

Definition is_LF (c : ascii) : bool := is_chr LF c.

(** [htmlToPlainText(html)] *)
Definition htmlToPlainText (html : str) : str :=
  if negb (truthy (trim html)) then []
  else
    let withNewlines :=
      replace_all m_br [LF] (replace_all m_block [LF] html) in
    let text :=
      replace_all (m_lit (ls "&nbsp;")) (ls " ")
                  (replace_all m_tag [] withNewlines) in
    let decoded :=
      replace_all (m_alt (m_lit (ls "&#39;")) (m_lit (ls "&apos;"))) (ls "'")
        (replace_all (m_lit (ls "&quot;")) [DQ]
          (replace_all (m_lit (ls "&gt;")) (ls ">")
            (replace_all (m_lit (ls "&lt;")) (ls "<")
              (replace_all (m_lit (ls "&amp;")) (ls "&") text)))) in
    trim (replace_all m_trailing_space []
            (replace_all (m_run is_LF 3) [LF; LF] decoded)).

(** [const htmlEscape: Record<string, string>] *)
Definition htmlEscape : list (str * str) :=
  [ (ls "&", ls "&amp;"); (ls "<", ls "&lt;"); (ls ">", ls "&gt;");
    ([DQ], ls "&quot;"); (ls "'", ls "&#39;") ].

Fixpoint assoc (l : list (str * str)) (k : str) : option str :=
  match l with
  | [] => None
  | (k', v) :: r => if str_eqb k' k then Some v else assoc r k
  end.

(** The class of [&], [<], [>], the double quote and the single quote. *)
Definition is_special (c : ascii) : bool :=
  is_chr "&" c || is_chr "<" c || is_chr ">" c || is_chr DQ c || is_chr "'" c.

(** [text.replace(/[five specials]/g, (ch) => htmlEscape[ch] ?? ch)] *)
Definition escape (text : str) : str :=
  replace_with (m_class is_special)
               (fun ch => match assoc htmlEscape ch with
                          | Some e => e
                          | None => ch
                          end) text.

(** The callback of [paragraphs.map]. *)
Definition paragraph (p : str) : str :=
  let withBreaks := replace_all (m_lit [LF]) (ls "<br>") p in
  ls "<p>" ++ (if truthy withBreaks then withBreaks else ls "<br>") ++ ls "</p>".

(** [plainTextToHtml(text)] *)
Definition plainTextToHtml (text : str) : str :=
  if negb (truthy text) then ls "<p></p>"
  else
    let escaped := escape text in
    let paragraphs := split (m_run is_LF 2) escaped in
    join (map paragraph paragraphs).

End DocumentUtils.

Import DocumentUtils.


(* ===================================================================== *)
(** * lib/ai.ts                                                           *)
(* ===================================================================== *)

Module Ai.

(** [interface GenerateReplyParams].  [provider] is the string the caller
    passes; [apiKey] may be missing at run time ([apiKey?.trim()]). *)
Record GenerateReplyParams := mkParams {
  provider : str;
  apiKey : option str;
  systemPrompt : str;
  userMessage : str;
  model : option str
}.

Definition DEFAULT_OPENAI_MODEL : str := ls "gpt-4o-mini".
Definition DEFAULT_GEMINI_MODEL : str := ls "gemini-2.5-flash".

(** What one use of a provider's SDK does (making the client and awaiting
    the call): it resolves with the response, of which the code reads
    [choices[0]?.message?.content] (OpenAI) or [text] (Gemini), [None]
    standing for [null] or [undefined]; or it fails with an error, of which
    the code reads the message. *)
Inductive outcome :=
| Resolved (content : option str)
| Rejected (message : str).

(** What the caller can observe of a run. *)
Inductive event :=
| Request (provider model key : str)
| Sleep (milliseconds : nat).

(** The world a call runs in: the outcomes of the requests still to come
    are given by [oracle] from the number of requests [served] so far. *)
Record world := mkWorld {
  served : nat;
  trace : list event
}.

(** The result of an [async] function: the value it resolves with or the
    message of the error it rejects with. *)
Inductive result (A : Type) :=
| Ok (a : A)
| Throw (message : str).
Arguments Ok {A} a.
Arguments Throw {A} message.

(** Computations that may throw, over the world. *)
Definition M (A : Type) : Type := world -> result A * world.

Definition ret {A} (a : A) : M A := fun w => (Ok a, w).

Definition throw {A} (message : str) : M A := fun w => (Throw message, w).

Definition bind {A B} (c : M A) (k : A -> M B) : M B :=
  fun w => match c w with
           | (Ok a, w') => k a w'
           | (Throw e, w') => (Throw e, w')
           end.

(** [try { c } catch (err) { handler(err) }] *)
Definition try_catch {A} (c : M A) (handler : str -> M A) : M A :=
  fun w => match c w with
           | (Ok a, w') => (Ok a, w')
           | (Throw e, w') => handler e w'
           end.

Notation "x <- c ;; k" := (bind c (fun x => k))
  (at level 61, c at next level, right associativity).

(** [await new Promise((r) => setTimeout(r, ms))] *)
Definition sleep (ms : nat) : M unit :=
  fun w => (Ok tt, mkWorld (served w) (trace w ++ [Sleep ms])).

(** A number as [parseFloat] and [Math.ceil] yield it on a decimal
    literal: a natural number or [Infinity]. *)
Inductive number :=
| Finite (n : nat)
| Infinity.

(** [Math.min(x, 60)] *)
Definition min60 (x : number) : nat :=
  match x with
  | Finite n => Nat.min n 60
  | Infinity => 60
  end.

(** The first position of [s] at which [f] succeeds: an unanchored
    [s.match(/re/)]. *)
Fixpoint search {A} (f : str -> option A) (s : str) : option A :=
  match f s with
  | Some a => Some a
  | None => match s with
            | [] => None
            | _ :: r => search f r
            end
  end.

(** [/retry in (\d+(?:\.\d+)?)s/i] at the head of [s], returning group 1.
    Both digit runs are taken whole: a shorter run would be followed by a
    digit, where the expression wants [.] or [s]. *)
Definition retry_in_at (s : str) : option str :=
  if starts_by ci_eq (ls "retry in ") s then
    let rest := skipn 9 s in
    let d1 := run_length is_digit rest in
    if 1 <=? d1 then
      let fraction :=
        match skipn d1 rest with
        | "." :: r2 =>
            let d2 := run_length is_digit r2 in
            if (1 <=? d2) && starts_by ci_eq (ls "s") (skipn d2 r2)
            then Some (firstn (d1 + 1 + d2) rest) else None
        | _ => None
        end in
      match fraction with
      | Some g => Some g
      | None => if starts_by ci_eq (ls "s") (skipn d1 rest)
                then Some (firstn d1 rest) else None
      end
    else None
  else None.

(** The lazy [.*?] followed by [(\d+)]: the first run of digits, unless a
    line terminator (which [.] does not match) comes before it. *)
Fixpoint first_digits (s : str) : option str :=
  match s with
  | [] => None
  | c :: r =>
      if is_digit c then Some (firstn (run_length is_digit s) s)
      else if is_line_terminator c then None
      else first_digits r
  end.

(** [/retryDelay.*?(\d+)/i] at the head of [s], returning group 1. *)
Definition retryDelay_at (s : str) : option str :=
  if starts_by ci_eq (ls "retryDelay") s then first_digits (skipn 10 s)
  else None.

(** [isQuotaError(err)], on the message of the error. *)
Definition isQuotaError (msg : str) : bool :=
  includes (ls "429") msg
  || includes (ls "RESOURCE_EXHAUSTED") msg
  || includes (ls "quota") msg
  || includes (ls "rate limit") msg.

(** Decimal form of a natural number, as a template literal prints it. *)
Definition decimal_of_nat (n : nat) : str :=
  ls (DecimalString.NilEmpty.string_of_uint (Nat.to_uint n)).

Section Provider.

(** [Math.ceil(parseFloat(digits))] on the text of group 1.  The source
    computes it on doubles; it is left open here. *)
Variable ceilParseFloat : str -> number.

(** The outcome of the [n]-th request. *)
Variable oracle : nat -> outcome.

(** [getRetrySeconds(err)], on the message of the error. *)
Definition getRetrySeconds (msg : str) : nat :=
  let retryMatch :=
    match search retry_in_at msg with
    | Some g => Some g
    | None => search retryDelay_at msg
    end in
  match retryMatch with
  | Some g => min60 (ceilParseFloat g)
  | None => 20
  end.

(** One [await] of the provider's SDK. *)
Definition request (prov mdl key : str) : M (option str) :=
  fun w =>
    let w' := mkWorld (S (served w)) (trace w ++ [Request prov mdl key]) in
    match oracle (served w) with
    | Resolved c => (Ok c, w')
    | Rejected e => (Throw e, w')
    end.

(** [doGeminiCall()] *)
Definition doGeminiCall (mdl key : str) : M str :=
  text <- request (ls "gemini") mdl key ;;
  match text with
  | None => throw (ls "Empty or invalid response from Gemini.")
  | Some t => ret t
  end.

Definition rateLimitMessage (sec : nat) : str :=
  ls "Gemini rate limit exceeded. Please try again in about "
  ++ decimal_of_nat sec
  ++ ls " seconds, or check your quota and billing at https://ai.google.dev/gemini-api/docs/rate-limits".

(** [generateReply(params)] *)
Definition generateReply (params : GenerateReplyParams) : M str :=
  let mdl :=
    match model params with
    | Some m => m
    | None => if str_eqb (provider params) (ls "openai")
              then DEFAULT_OPENAI_MODEL else DEFAULT_GEMINI_MODEL
    end in
  let key := match apiKey params with
             | Some k => trim k
             | None => []
             end in
  if negb (truthy key) then throw (ls "API key is required.")
  else if str_eqb (provider params) (ls "openai") then
    content <- request (ls "openai") mdl key ;;
    match content with
    | None => throw (ls "Empty or invalid response from OpenAI.")
    | Some c => ret c
    end
  else if str_eqb (provider params) (ls "gemini") then
    try_catch (doGeminiCall mdl key)
      (fun err =>
         if negb (isQuotaError err) then throw err
         else
           let retrySec := getRetrySeconds err in
           _ <- sleep (retrySec * 1000) ;;
           try_catch (doGeminiCall mdl key)
             (fun retryErr =>
                if isQuotaError retryErr
                then throw (rateLimitMessage (getRetrySeconds retryErr))
                else throw retryErr))
  else throw (ls "Unsupported provider: " ++ provider params).

End Provider.

Definition start : world := mkWorld 0 [].

End Ai.

(* ===================================================================== *)
(** * components/editor: the debounced save of an editing surface         *)
(* ===================================================================== *)

Module Surface.

(** The two surfaces: [TiptapEditor] and [PlainTextEditor]. *)
Inductive kind := Tiptap | PlainText.

(** A callback handed to [setTimeout] by [debouncedSave]: the closure keeps
    the [activeDocumentId] of the render that made it and the content of the
    edit. *)
Record timer := mkTimer {
  handle : nat;
  due : nat;
  savedFor : option str;
  savedContent : str
}.

(** One surface with the host's clock and timers and the store.
    [saveTimeout] is the ref [saveTimeout.current]; timer handles are the
    positive integers of the host, handed out in turn. *)
Record surface := mkSurface {
  saveTimeout : option nat;
  activeId : option str;
  clock : nat;
  nextHandle : nat;
  pending : list timer;
  store : EditorState
}.

(** A call of [updateDocument] made by a timer callback. *)
Record save := mkSave {
  saveTarget : str;
  saveContent : str
}.

Definition DELAY : nat := 600.

(** [clearTimeout(h)] *)
Definition clearTimeout (h : nat) (timers : list timer) : list timer :=
  filter (fun t => negb (handle t =? h)) timers.

(** [debouncedSave(content)]:
    [if (saveTimeout.current) clearTimeout(saveTimeout.current);
     saveTimeout.current = setTimeout(callback, 600)];
    a handle is truthy unless it is 0. *)
Definition debouncedSave (content : str) (s : surface) : surface :=
  let timers :=
    match saveTimeout s with
    | Some h => if h =? 0 then pending s else clearTimeout h (pending s)
    | None => pending s
    end in
  let h := nextHandle s in
  {| saveTimeout := Some h;
     activeId := activeId s;
     clock := clock s;
     nextHandle := S h;
     pending := timers ++ [mkTimer h (clock s + DELAY) (activeId s) content];
     store := store s |}.

Definition with_store (s : surface) (st : EditorState) : surface :=
  {| saveTimeout := saveTimeout s;
     activeId := activeId s;
     clock := clock s;
     nextHandle := nextHandle s;
     pending := pending s;
     store := st |}.

(** The edit handlers: [onUpdate] of [TiptapEditor], which also refreshes
    the statistics at once, and [handleChange] of [PlainTextEditor]. *)
Definition onEdit (k : kind) (content : str) (s : surface) : surface :=
  match k with
  | Tiptap =>
      let s' := debouncedSave content s in
      with_store s' (updateEditorStats content (store s'))
  | PlainText => debouncedSave content s
  end.

(** The timer callback:
    [if (activeDocumentId) { updateDocument(activeDocumentId, { content }) }],
    followed by [updateEditorStats(plainText)] in [PlainTextEditor]. *)
Definition callback (k : kind) (t : timer) (st : EditorState) (now : nat)
  : EditorState * list save :=
  match savedFor t with
  | Some d =>
      if truthy d then
        let st1 := updateDocument (Z.of_nat now) d
                                  (onlyContent (savedContent t)) st in
        let st2 := match k with
                   | Tiptap => st1
                   | PlainText => updateEditorStats (savedContent t) st1
                   end in
        (st2, [mkSave d (savedContent t)])
      else (st, [])
  | None => (st, [])
  end.

(** The timers that are due run in the order they were set, which is the
    order of their due times, every delay being the same. *)
Fixpoint run_due (k : kind) (now : nat) (timers : list timer)
         (st : EditorState) : list timer * EditorState * list save :=
  match timers with
  | [] => ([], st, [])
  | t :: rest =>
      if due t <=? now then
        let '(st1, w1) := callback k t st now in
        let '(kept, st2, w2) := run_due k now rest st1 in
        (kept, st2, w1 ++ w2)
      else
        let '(kept, st2, w2) := run_due k now rest st in
        (t :: kept, st2, w2)
  end.

(** What happens to a surface: the user edits, time passes, the host's
    event loop comes round to the timers that are due, the user switches to
    another document.  A timer that is due runs only when the event loop
    gets to it, so an edit may still come first and cancel it. *)
Inductive input :=
| Edit (content : str)
| Elapse (milliseconds : nat)
| Fire
| Switch (document : str).

Definition step (k : kind) (s : surface) (i : input) : surface * list save :=
  match i with
  | Edit content => (onEdit k content s, [])
  | Elapse ms =>
      ({| saveTimeout := saveTimeout s;
          activeId := activeId s;
          clock := clock s + ms;
          nextHandle := nextHandle s;
          pending := pending s;
          store := store s |}, [])
  | Fire =>
      let '(kept, st, saves) := run_due k (clock s) (pending s) (store s) in
      ({| saveTimeout := saveTimeout s;
          activeId := activeId s;
          clock := clock s;
          nextHandle := nextHandle s;
          pending := kept;
          store := st |}, saves)
  | Switch d =>
      ({| saveTimeout := saveTimeout s;
          activeId := Some d;
          clock := clock s;
          nextHandle := nextHandle s;
          pending := pending s;
          store := setActiveDocument d (store s) |}, [])
  end.

(** A freshly mounted surface over a store. *)
Definition mount (st : EditorState) : surface :=
  {| saveTimeout := None;
     activeId := activeDocumentId st;
     clock := 0;
     nextHandle := 1;
     pending := [];
     store := st |}.

Fixpoint run (k : kind) (s : surface) (inputs : list input)
  : surface * list save :=
  match inputs with
  | [] => (s, [])
  | i :: rest =>
      let '(s1, w1) := step k s i in
      let '(s2, w2) := run k s1 rest in
      (s2, w1 ++ w2)
  end.

(** The content of the last edit among [inputs]. *)
Fixpoint last_edit (inputs : list input) (seen : option str) : option str :=
  match inputs with
  | [] => seen
  | Edit c :: rest => last_edit rest (Some c)
  | _ :: rest => last_edit rest seen
  end.

End Surface.

(* ===================================================================== *)
(** * The wording of the specification                                    *)
(* ===================================================================== *)

(** Direct definitions of the notions the specification uses, against which
    the embedded code is compared below. *)

(** The part of [s] behind its last [a] (all of [s] when it has none). *)
Fixpoint after_last (a : ascii) (s : str) : str :=
  match s with
  | [] => []
  | c :: r => if existsb (is_chr a) r then after_last a r
              else if is_chr a c then r else c :: r
  end.

(** The extension as the specification words it, on a title [t]: the
    lower-cased part behind the last dot when that part is non-empty and
    alphanumeric throughout; nothing when there is no dot. *)
Definition extensionOf_spec (t : str) : option str :=
  if existsb (is_chr ".") t then
    let seg := after_last "." t in
    if truthy seg && forallb is_alnum seg then Some (toLowerCase seg) else None
  else None.

Definition titleOf (doc : Document) : str :=
  match title doc with
  | Some t => t
  | None => []
  end.

(** Number of maximal runs of characters of the class [p] in [s];
    [inside] tells whether the character before [s] was of the class. *)
Fixpoint run_starts (p : ascii -> bool) (inside : bool) (s : str) : nat :=
  match s with
  | [] => 0
  | c :: r =>
      if p c then (if inside then 0 else 1) + run_starts p true r
      else run_starts p false r
  end.

Definition count_runs (p : ascii -> bool) (s : str) : nat := run_starts p false s.

Definition not_space (c : ascii) : bool := negb (is_space c).

(** Number of white-space separated tokens. *)
Definition count_words (s : str) : nat := count_runs not_space s.

(** Does [s] end with a white-space character? *)
Definition ends_space (s : str) : bool :=
  match rev s with
  | c :: _ => is_space c
  | [] => false
  end.

Definition starts_space (s : str) : bool :=
  match s with
  | c :: _ => is_space c
  | [] => false
  end.

(** [s] with every tag, from a [<] through the next [>], replaced by
    [rep]; a [<] with no [>] behind it is ordinary text.  [inside] tells
    whether [s] starts inside a tag. *)
Fixpoint retag (rep : str) (inside : bool) (s : str) : str :=
  match s with
  | [] => []
  | c :: r =>
      if inside then (if is_chr ">" c then retag rep false r else retag rep true r)
      else if is_chr "<" c && existsb (is_chr ">") r then rep ++ retag rep true r
      else c :: retag rep false r
  end.

(** Every maximal run of white space turned into one space. *)
Fixpoint collapse (s : str) : str :=
  match s with
  | [] => []
  | c :: r =>
      if is_space c then (if starts_space r then collapse r else " " :: collapse r)
      else c :: collapse r
  end.

(** The text the statistics are taken from: every tag replaced by [rep],
    white space collapsed, the ends trimmed. *)
Definition plain_text (rep : str) (content : str) : str :=
  trim (collapse (retag rep false content)).

Definition bonus (b : bool) (points : nat) : nat := if b then points else 0.

(** The content-health score over a word count [words] supplied from
    outside: base 40 and the additive bonuses, capped at 100; 0 when the
    content is white space throughout.  The average number of words per
    sentence is below 25 exactly when [words < 25 * sentences]. *)
Definition health_score (words : nat) (content : str) : nat :=
  if existsb not_space content then
    let sentences := Nat.max 1 (count_runs is_sentence_mark content) in
    Nat.min 100
      (40 + bonus (100 <=? words) 20 + bonus (300 <=? words) 10
       + bonus (words <? 25 * sentences) 10
       + bonus (includes (ls "<h1") content || includes (ls "<h2") content
                || includes (ls "<h3") content) 10
       + bonus (includes (ls "<ul") content || includes (ls "<ol") content) 5
       + bonus (includes (ls "<code") content || includes (ls "<pre") content) 5)
  else 0.

(** [n] copies of [s]. *)
Definition repeat_str (s : str) (n : nat) : str := concat (repeat s n).

(** A heading and a paragraph of 350 one-word sentences. *)
Definition sample_body : str :=
  ls "<p><h2>Title</h2> " ++ repeat_str (ls "word. ") 350 ++ ls "</p>".

(** Twenty-four words followed by a line break tag. *)
Definition sample_24_words : str := repeat_str (ls "a ") 24 ++ ls "<br>".

(** The entity form of a character: the five special characters have
    one, every other character stands for itself. *)
Definition entity (c : ascii) : str :=
  if is_chr "&" c then ls "&amp;"
  else if is_chr "<" c then ls "&lt;"
  else if is_chr ">" c then ls "&gt;"
  else if is_chr DQ c then ls "&quot;"
  else if is_chr "'" c then ls "&#39;"
  else [c].

(** A character that cannot open, close or quote inside markup. *)
Definition inert (c : ascii) : bool :=
  negb (is_chr "<" c || is_chr ">" c || is_chr DQ c || is_chr "'" c).

(** Every [<] of [s] opens one of the markers [<p>], [</p>], [<br>]. *)
Fixpoint lt_in_markers (s : str) : bool :=
  match s with
  | [] => true
  | c :: r =>
      (if is_chr "<" c
       then startsWith (ls "p>") r || startsWith (ls "/p>") r
            || startsWith (ls "br>") r
       else true)
      && lt_in_markers r
  end.

(** No white-space character stands at the end of a line, that is directly
    before a line terminator or at the end of the text. *)
Fixpoint no_space_at_line_end (s : str) : bool :=
  match s with
  | [] => true
  | c :: r => negb (is_space c && at_line_end r) && no_space_at_line_end r
  end.

(** The texts of the round-trip property as the specification words it:
    none of the five special characters and no two newlines in a row. *)
Definition plain_as_worded (t : str) : bool :=
  forallb (fun c => negb (is_special c)) t && negb (includes [LF; LF] t).

(** The texts on which the round trip does hold: none of the five special
    characters, no white space in front, none at the end of a line. *)
Definition plain_simple (t : str) : bool :=
  forallb (fun c => negb (is_special c)) t
  && negb (starts_space t) && no_space_at_line_end t.

(** The body of a paragraph: [<br>] for every newline. *)
Definition with_breaks (t : str) : str :=
  flat_map (fun c => if is_chr LF c then ls "<br>" else [c]) t.

(** The markup as the specification describes it: a sequence of parts,
    each either a marker the converter generates or one character of the
    input. *)
Inductive part :=
| Marker (m : str)
| FromInput (c : ascii).

(** A marker is written as it is, a character of the input as its
    entity form. *)
Definition render_part (x : part) : str :=
  match x with
  | Marker m => m
  | FromInput c => entity c
  end.

Definition render (l : list part) : str := flat_map render_part l.

(** One paragraph of the input: [<p>], then a line break for every
    newline and every other character itself, or one line break for an
    empty paragraph, then [</p>]. *)
Definition layout_paragraph (p : str) : list part :=
  Marker (ls "<p>")
  :: (if truthy p
      then map (fun c => if is_LF c then Marker (ls "<br>") else FromInput c) p
      else [Marker (ls "<br>")])
  ++ [Marker (ls "</p>")].

(** The input cut into its paragraphs at every run of two or more
    newlines; the empty input is one empty pair of markers. *)
Definition layout (t : str) : list part :=
  if truthy t then flat_map layout_paragraph (split (m_run is_LF 2) t)
  else [Marker (ls "<p>"); Marker (ls "</p>")].

(** The characters of the input among the parts, and the markers. *)
Definition from_input (l : list part) : str :=
  flat_map (fun x => match x with
                     | FromInput c => [c]
                     | Marker _ => []
                     end) l.

Definition markers (l : list part) : list str :=
  flat_map (fun x => match x with
                     | Marker m => [m]
                     | FromInput _ => []
                     end) l.

(** The parent a document of the table names, if it names one. *)
Definition parent_of (docs : table) (k : str) : option str :=
  match lookup docs k with
  | Some d => match parentId d with
              | Some (Some p) => Some p
              | _ => None
              end
  | None => None
  end.

(** [descends docs k a]: the [parentId] chain of [k] leads to [a]. *)
Inductive descends (docs : table) : str -> str -> Prop :=
| descends_child k a :
    parent_of docs k = Some a -> descends docs k a
| descends_step k p a :
    parent_of docs k = Some p -> descends docs p a -> descends docs k a.

(** The [parentId] references form no cycle. *)
Definition acyclic (docs : table) : Prop := forall k, ~ descends docs k k.

(** A table as [createDocument] builds it: every key once, every document
    stored under its own [id], with a [parentId] that is a string or
    [null]. *)
Definition well_formed (docs : table) : Prop :=
  NoDup (keys docs)
  /\ forall k d, In (k, d) docs -> id d = Some k /\ parentId d <> None.

(** What a delete of [root] is to remove: [root] and its descendants. *)
Definition doomed (docs : table) (root k : str) : Prop :=
  k = root \/ descends docs k root.

(** Number of parent links that can be followed upwards from [k], at most
    [fuel]. *)
Fixpoint up (fuel : nat) (docs : table) (k : str) : nat :=
  match fuel with
  | O => 0
  | S f => match parent_of docs k with
           | Some p => S (up f docs p)
           | None => 0
           end
  end.

(** The documents met on the way up, [k] first. *)
Fixpoint chain (fuel : nat) (docs : table) (k : str) : list str :=
  match fuel with
  | O => []
  | S f => match parent_of docs k with
           | Some p => k :: chain f docs p
           | None => []
           end
  end.

(** A state with the given table and active document. *)
Definition state_of (docs : table) (active : option str) : EditorState :=
  mkEditorState docs active false true false TabAi 0 0 1 75.

(** A complete document. *)
Definition document (k : str) (parent : option str) (folder : bool) : Document :=
  {| id := Some k;
     title := Some (if folder then ls "New Folder" else ls "Untitled");
     content := Some (if folder then [] else ls "<p></p>");
     parentId := Some parent;
     isFolder := Some folder;
     children := None;
     createdAt := Some 0%Z;
     updatedAt := Some 0%Z;
     wordCount := None |}.

(** A folder holding a sub-folder that holds a note, next to a note at the
    root. *)
Definition sample_tree : table :=
  [ (ls "folder", document (ls "folder") None true);
    (ls "inner", document (ls "inner") (Some (ls "folder")) true);
    (ls "note", document (ls "note") (Some (ls "inner")) false);
    (ls "other", document (ls "other") None false) ].

(** [h] decreases from every document to its children. *)
Definition measured (h : str -> nat) (docs : table) : Prop :=
  forall k p, parent_of docs k = Some p -> h k < h p.

(** [k] is, or descends from, a child of [x] among the documents [done]. *)
Definition children_done (docs : table) (x : str) (done : list Document)
           (k : str) : Prop :=
  exists d c, In d done /\ parent_is d (Some x) = true /\ id d = Some c
              /\ (k = c \/ descends docs k c).

(** How far below the top a document may still have descendants: the
    size of the table less the length of its way up. *)
Definition height (docs : table) (k : str) : nat :=
  length docs - up (S (length docs)) docs k.

(** The ceiling of a decimal literal [digits] or [digits.digits], taken
    exactly: the integer part, plus one when the fraction is not zero. *)
Definition exact_ceil (g : str) : Ai.number :=
  let whole := firstn (run_length is_digit g) g in
  let fraction := skipn (S (run_length is_digit g)) g in
  Ai.Finite (N.to_nat (decimal whole)
             + (if existsb (fun c => negb (is_chr "0" c)) fraction then 1 else 0)).



(** The key a call works with. *)
Definition key_of (params : Ai.GenerateReplyParams) : str :=
  match Ai.apiKey params with
  | Some k => trim k
  | None => []
  end.

Definition model_of (params : Ai.GenerateReplyParams) : str :=
  match Ai.model params with
  | Some m => m
  | None => if str_eqb (Ai.provider params) (ls "openai")
            then Ai.DEFAULT_OPENAI_MODEL else Ai.DEFAULT_GEMINI_MODEL
  end.

(** A provider that rejects every request with a rate-limit error naming
    a delay of 7.5 seconds, and one that resolves with the empty string. *)
Definition always_limited : nat -> Ai.outcome :=
  fun _ => Ai.Rejected (ls "429 RESOURCE_EXHAUSTED: quota exceeded, retry in 7.5s").



(** The save an edit leads to once its delay has passed: one update of
    the document that was active at the edit, if any was. *)
Definition save_of (doc : option str) (content : str) : list Surface.save :=
  match doc with
  | Some d => if truthy d then [Surface.mkSave d content] else []
  | None => []
  end.

(** The debounce as the specification words it.  A surface holds at most
    one unsaved edit, the latest one, with the time its save is due
    (600 ms after the edit) and the document it was made on; every edit
    replaces it; when its time has come and the timers get their turn it
    is saved and the slot is empty again. *)
Fixpoint debounce_spec (active : option str) (now : nat)
         (latest : option (nat * option str * str))
         (inputs : list Surface.input) : list Surface.save :=
  match inputs with
  | [] => []
  | Surface.Edit c :: rest =>
      debounce_spec active now (Some (now + 600, active, c)) rest
  | Surface.Elapse ms :: rest => debounce_spec active (now + ms) latest rest
  | Surface.Fire :: rest =>
      match latest with
      | Some (due, doc, c) =>
          if due <=? now
          then save_of doc c ++ debounce_spec active now None rest
          else debounce_spec active now latest rest
      | None => debounce_spec active now None rest
      end
  | Surface.Switch d :: rest => debounce_spec (Some d) now latest rest
  end.

(** The surface [s] holds exactly the unsaved edit [latest]. *)
Definition holds (s : Surface.surface)
           (latest : option (nat * option str * str)) : Prop :=
  1 <= Surface.nextHandle s
  /\ match latest with
     | None =>
         Surface.pending s = []
         /\ forall h, Surface.saveTimeout s = Some h ->
                      1 <= h < Surface.nextHandle s
     | Some (due, doc, c) =>
         exists h, Surface.saveTimeout s = Some h
                   /\ 1 <= h < Surface.nextHandle s
                   /\ Surface.pending s = [Surface.mkTimer h due doc c]
     end.

(** Typing two versions of a text into the document [note] and waiting. *)
Definition sample_session : list Surface.input :=
  [ Surface.Edit (ls "Hello"); Surface.Elapse 300; Surface.Fire;
    Surface.Edit (ls "Hello world"); Surface.Elapse 599; Surface.Fire;
    Surface.Elapse 1; Surface.Fire ].

(** The matcher [m] needs a head character of the class [p]. *)
Definition triggered_by (p : ascii -> bool) (m : matcher) : Prop :=
  forall c r, p c = false -> m (c :: r) = None.

(* ===================================================================== *)
(** * Notions for the further properties                                  *)
(* ===================================================================== *)

(** The form of a character other than [&] inside [htmlToPlainText] after
    the first [n] of the four replacements of [&lt;], [&gt;], [&quot;]
    and [&#39;], when the character was written as its entity: before the
    first it is the entity, after the last the character itself. *)
Definition entity_after (n : nat) (c : ascii) : str :=
  if is_chr "<" c then (if 1 <=? n then [c] else ls "&lt;")
  else if is_chr ">" c then (if 2 <=? n then [c] else ls "&gt;")
  else if is_chr DQ c then (if 3 <=? n then [c] else ls "&quot;")
  else if is_chr "'" c then (if 4 <=? n then [c] else ls "&#39;")
  else [c].

(** The matcher [m] finds nothing that starts inside [x], whatever
    follows [x]. *)
Definition clear_of (m : matcher) (x : str) : Prop :=
  forall k rest, k < length x -> m (skipn k x ++ rest) = None.

(** The matcher [m] takes exactly [x] in front of whatever follows. *)
Definition cut_by (m : matcher) (x : str) : Prop :=
  exists c w, x = c :: w /\ forall rest, m (c :: w ++ rest) = Some (S (length w)).

(** The texts on which the conversion to markup and back gives the text
    again: no [&], no white space in front, none at the end of a line. *)
Definition plain_without_amp (t : str) : bool :=
  forallb (fun c => negb (is_chr "&" c)) t
  && negb (starts_space t) && no_space_at_line_end t.

(** A text that holds neither [<] nor [&]. *)
Definition markup_free (t : str) : bool :=
  forallb (fun c => negb (is_chr "<" c || is_chr "&" c)) t.

(** Every parent a document names is a document of the table. *)
Definition closed (docs : table) : Prop :=
  forall k p, parent_of docs k = Some p -> lookup docs p <> None.

(** A table in order: well formed, without cycles, and without a
    reference to a missing parent. *)
Definition sound (docs : table) : Prop :=
  well_formed docs /\ acyclic docs /\ closed docs.

(** The active pointer is [null] or names a document of the table. *)
Definition valid_active (st : EditorState) : Prop :=
  match activeDocumentId st with
  | Some a => lookup (documents st) a <> None
  | None => True
  end.

(** The [parentId] argument of a call is [null] or names a document. *)
Definition known_parent (docs : table) (parent : option str) : Prop :=
  match parent with
  | Some p => lookup docs p <> None
  | None => True
  end.

(** A [Partial<Document>] that sets neither [id] nor [parentId], as
    every caller of [updateDocument] passes. *)
Definition keeps_place (updates : Document) : Prop :=
  id updates = None /\ parentId updates = None.

(* ===================================================================== *)
(** * components/editor/StatusBar.tsx                                     *)
(* ===================================================================== *)

Module StatusBar.

(** The [label] of [HealthBar]. *)
Definition healthLabel (score : nat) : str :=
  if 75 <=? score then ls "Excellent"
  else if 50 <=? score then ls "Good"
  else ls "Needs Work".

(** The [color] of [HealthBar]. *)
Definition healthColor (score : nat) : str :=
  if 75 <=? score then ls "bg-success"
  else if 50 <=? score then ls "bg-warning"
  else ls "bg-destructive".

(** [s.padStart(2, "0")] *)
Definition padStart2 (s : str) : str := repeat "0" (2 - length s) ++ s.

(** [fmt(s)] of [FocusTimer], for a count of seconds. *)
Definition fmt (s : nat) : str :=
  let m := padStart2 (Ai.decimal_of_nat (s / 60)) in
  let sec := padStart2 (Ai.decimal_of_nat (s mod 60)) in
  m ++ ls ":" ++ sec.

(** The state of [FocusTimer]: [running] and [seconds]. *)
Record focus := mkFocus {
  running : bool;
  seconds : nat
}.

(** The click handler of the timer button, and one turn of the interval
    callback, which exists only while the timer runs. *)
Definition click (f : focus) : focus :=
  if running f then mkFocus false 0 else mkFocus true (seconds f).

Definition tick (f : focus) : focus :=
  if running f then mkFocus true (seconds f + 1) else f.

(** What happens to the timer: a click on its button, or a second
    passing. *)
Inductive action := Click | Tick.

Definition act (f : focus) (a : action) : focus :=
  match a with
  | Click => click f
  | Tick => tick f
  end.

(** The timer as it is mounted. *)
Definition stopped : focus := mkFocus false 0.

End StatusBar.

(* ===================================================================== *)
(** * The word counts of the side panels                                  *)
(* ===================================================================== *)

Module Panels.

(** [content.replace(/<[^>]*>/g, " ").trim().split(/\s+/).filter(Boolean).length],
    the expression of [DocItem] and of [CommandPalette]. *)
Definition tokenCount (content : str) : nat :=
  length (filter truthy
            (split m_spaces (trim (replace_all m_markup (ls " ") content)))).

(** A document shown as a folder: [doc.isFolder] is truthy. *)
Definition folderish (doc : Document) : bool :=
  match isFolder doc with
  | Some b => b
  | None => false
  end.

(** [wordCount] of [DocItem]: [null] ([Some None]) for a folder; reading
    [doc.content.replace] of a document without content throws ([None]). *)
Definition badge (doc : Document) : option (option nat) :=
  if folderish doc then Some None
  else match content doc with
       | Some c => Some (Some (tokenCount c))
       | None => None
       end.

(** The [text] and the [words] of [DocInfo]. *)
Definition infoText (content : str) : str :=
  trim (replace_all m_spaces (ls " ") (replace_all m_markup (ls " ") content)).

Definition infoWords (content : str) : nat :=
  let text := infoText content in
  if truthy text then length (filter truthy (split m_spaces text)) else 0.

(** [(text.match(/[.!?]+/g) || []).length] of [DocInfo]. *)
Definition infoSentences (content : str) : nat :=
  match_count (m_run is_sentence_mark 1) (infoText content).

End Panels.

(** The seconds a clock text [mm:ss] stands for: the digits before the
    last three characters are the minutes, the last two the seconds. *)
Definition seconds_shown (t : str) : nat :=
  N.to_nat (decimal (firstn (length t - 3) t)) * 60
  + N.to_nat (decimal (skipn (length t - 2) t)).

(* ===================================================================== *)
(** * stores/aiSettingsStore.ts and the settings dialog                   *)
(* ===================================================================== *)

Module AiSettingsStore.

(** [interface AISettingsState], without its actions. *)
Record AISettingsState := mkSettings {
  apiKey : str;
  provider : str;
  model : str;
  openAISettings : bool
}.

Definition DEFAULT_OPENAI_MODEL : str := ls "gpt-4o-mini".
Definition DEFAULT_GEMINI_MODEL : str := ls "gemini-2.5-flash".

(** The state the store is created with. *)
Definition initial : AISettingsState :=
  mkSettings [] (ls "openai") DEFAULT_OPENAI_MODEL false.

Definition setApiKey (key : str) (s : AISettingsState) : AISettingsState :=
  mkSettings key (provider s) (model s) (openAISettings s).

(** [setProvider(provider)] also puts the model back to the default of
    the provider. *)
Definition setProvider (p : str) (s : AISettingsState) : AISettingsState :=
  mkSettings (apiKey s) p
             (if str_eqb p (ls "gemini") then DEFAULT_GEMINI_MODEL
              else DEFAULT_OPENAI_MODEL)
             (openAISettings s).

Definition setModel (m : str) (s : AISettingsState) : AISettingsState :=
  mkSettings (apiKey s) (provider s) m (openAISettings s).

Definition setOpenAISettings (open : bool) (s : AISettingsState)
  : AISettingsState :=
  mkSettings (apiKey s) (provider s) (model s) open.

Definition clearApiKey (s : AISettingsState) : AISettingsState :=
  mkSettings [] (provider s) (model s) (openAISettings s).

(** [hasValidConfig()]: [Boolean(apiKey?.trim())] *)
Definition hasValidConfig (s : AISettingsState) : bool :=
  truthy (trim (apiKey s)).

End AiSettingsStore.

Module AiSettingsDialog.

(** The three drafts of [AISettingsDialog]. *)
Record drafts := mkDrafts {
  apiKeyDraft : str;
  providerDraft : str;
  modelDraft : str
}.

(** [handleSave()] *)
Definition handleSave (d : drafts) (s : AiSettingsStore.AISettingsState)
  : AiSettingsStore.AISettingsState :=
  let s1 := AiSettingsStore.setApiKey (trim (apiKeyDraft d)) s in
  let s2 := AiSettingsStore.setProvider (providerDraft d) s1 in
  let s3 :=
    AiSettingsStore.setModel
      (if truthy (trim (modelDraft d)) then trim (modelDraft d)
       else if str_eqb (providerDraft d) (ls "gemini")
            then ls "gemini-2.5-flash" else ls "gpt-4o-mini")
      s2 in
  AiSettingsStore.setOpenAISettings false s3.

(** [handleClear()] *)
Definition handleClear (d : drafts) (s : AiSettingsStore.AISettingsState)
  : drafts * AiSettingsStore.AISettingsState :=
  (mkDrafts [] (providerDraft d) (modelDraft d),
   AiSettingsStore.setOpenAISettings false (AiSettingsStore.clearApiKey s)).

End AiSettingsDialog.

(* ===================================================================== *)
(** * components/sidebar/AISidebar.tsx                                    *)
(* ===================================================================== *)

Module AiSidebar.

(** [type AIAction] *)
Inductive AIAction := Rewrite | Summarize | Expand | Fix | Custom.

Inductive role := User | Assistant.

(** [interface Message] *)
Record Message := mkMessage {
  sender : role;
  text : str
}.

(** The two toasts of the panel; of the second the description is kept. *)
Inductive toast :=
| DemoMode
| RequestFailed (description : str).

(** The state of the panel, and the toasts it has raised. *)
Record panel := mkPanel {
  messages : list Message;
  input : str;
  isLoading : bool;
  selectedAction : option AIAction;
  toasts : list toast
}.

(** [activeDocumentId ? documents[activeDocumentId] : null], read as a
    condition: a missing entry counts as no document. *)
Definition activeDoc (st : EditorState) : option Document :=
  match activeDocumentId st with
  | Some a => if truthy a then lookup (documents st) a else None
  | None => None
  end.

(** [getDocText()]; reading [replace] of a missing content throws
    ([None]). *)
Definition getDocText (doc : option Document) : option str :=
  match doc with
  | None => Some []
  | Some d => match content d with
              | Some c => Some (statsText c)
              | None => None
              end
  end.

(** [activeDoc?.title] inside a template literal. *)
Definition titleText (doc : option Document) : str :=
  match doc with
  | Some d => match title d with
              | Some t => t
              | None => ls "undefined"
              end
  | None => ls "undefined"
  end.

Definition systemContext (doc : option Document) (docText : str) : str :=
  if truthy docText
  then ls "The user is working on a document titled " ++ [DQ]
       ++ titleText doc ++ [DQ] ++ ls ". Here is the current content:"
       ++ [LF; LF] ++ firstn 2000 docText
  else ls "The user is working in a text editor.".

Definition actionPrefix (a : AIAction) : str :=
  match a with
  | Rewrite =>
      ls "Please rewrite the following document content to be clearer and more professional:"
      ++ [LF; LF]
  | Summarize =>
      ls "Please provide a concise summary of the document content:"
      ++ [LF; LF]
  | Expand =>
      ls "Please expand the document content with more depth, examples, and detail:"
      ++ [LF; LF]
  | Fix =>
      ls "Please fix grammar, spelling, and improve the flow of the document:"
      ++ [LF; LF]
  | Custom => []
  end.

(** [AI_ACTIONS.find(a => a.id === action)?.label] inside a template
    literal; the list has no entry for [custom]. *)
Definition labelText (a : AIAction) : str :=
  match a with
  | Rewrite => ls "Rewrite"
  | Summarize => ls "Summarize"
  | Expand => ls "Expand"
  | Fix => ls "Fix Grammar"
  | Custom => ls "undefined"
  end.

Definition fullUserMsg (docText userMessage : str) (action : option AIAction)
  : str :=
  match action with
  | Some a => actionPrefix a ++ firstn 1500 docText
  | None => userMessage
  end.

(** The text of the message shown for the user. *)
Definition shownRequest (userMessage : str) (action : option AIAction) : str :=
  match action with
  | Some a => labelText a ++ ls " document"
  | None => userMessage
  end.

(** The argument of [generateReply]. *)
Definition replyParams (settings : AiSettingsStore.AISettingsState)
           (doc : option Document) (docText userMessage : str)
           (action : option AIAction) : Ai.GenerateReplyParams :=
  Ai.mkParams (AiSettingsStore.provider settings)
              (Some (trim (AiSettingsStore.apiKey settings)))
              (systemContext doc docText)
              (fullUserMsg docText userMessage action)
              (if truthy (AiSettingsStore.model settings)
               then Some (AiSettingsStore.model settings) else None).

(** [mockResponses[action ?? "custom"]] *)
Definition mockResponse (doc : option Document) (userMessage : str)
           (action : option AIAction) : str :=
  match action with
  | Some Rewrite =>
      ls "Here's a rewritten version of your content with improved clarity and professional tone. The structure has been maintained while the language is more precise and engaging."
  | Some Summarize =>
      ls "**Summary of " ++ [DQ] ++ titleText doc ++ [DQ] ++ ls "**"
      ++ [LF; LF]
      ++ ls "This document covers the main concepts with clear explanations. Key points include the core ideas presented in the opening sections, followed by practical implementation details."
  | Some Expand =>
      ls "I've expanded your content with additional context, examples, and supporting details to make it more comprehensive and informative for your readers."
  | Some Fix =>
      ls "I've reviewed your document and corrected grammatical errors, improved sentence structure, and enhanced the overall flow for better readability."
  | Some Custom | None =>
      ls "I understand your request: " ++ [DQ] ++ userMessage ++ [DQ]
      ++ ls ". Based on the context of your document, here's my response with relevant suggestions and improvements."
  end.

Definition is_some {A} (o : option A) : bool :=
  match o with
  | Some _ => true
  | None => false
  end.

Section Send.

Variable ceilParseFloat : str -> Ai.number.
Variable oracle : nat -> Ai.outcome.

(** [err instanceof Error], told from the message of what was caught:
    the errors [generateReply] makes itself are instances, what a
    provider's SDK rejects with need not be. *)
Variable instanceOfError : str -> bool.

(** The panel once the [finally] block has run. *)
Definition settled (p : panel) (msgs : list Message) (raised : list toast)
  : panel :=
  mkPanel msgs [] false None (toasts p ++ raised).

(** [sendMessage(userMessage, action)].  A missing content makes
    [getDocText] throw before the [try] block is entered; the promise is
    then rejected with the panel left loading. *)
Definition sendMessage (settings : AiSettingsStore.AISettingsState)
           (doc : option Document) (userMessage : str)
           (action : option AIAction) (p : panel) : Ai.M panel :=
  if negb (truthy (trim userMessage)) && negb (is_some action) then Ai.ret p
  else if isLoading p then Ai.ret p
  else
    match getDocText doc with
    | None => Ai.throw (ls "TypeError")
    | Some docText =>
        let newMessages :=
          messages p ++ [mkMessage User (shownRequest userMessage action)] in
        Ai.try_catch
          (if AiSettingsStore.hasValidConfig settings then
             Ai.bind
               (Ai.generateReply ceilParseFloat oracle
                  (replyParams settings doc docText userMessage action))
               (fun assistantMsg =>
                  Ai.ret (settled p
                            (newMessages ++ [mkMessage Assistant assistantMsg])
                            []))
           else
             Ai.bind (Ai.sleep 1200)
               (fun _ =>
                  Ai.ret (settled p
                            (newMessages
                             ++ [mkMessage Assistant
                                   (mockResponse doc userMessage action)])
                            [DemoMode])))
          (fun err =>
             let message :=
               if instanceOfError err then err
               else ls "Something went wrong." in
             Ai.ret (settled p
                       (newMessages
                        ++ [mkMessage Assistant (ls "Error: " ++ message)])
                       [RequestFailed message]))
    end.

End Send.

End AiSidebar.

(** Number of provider requests among the events of a run. *)
Definition requests (evs : list Ai.event) : nat :=
  length (filter (fun e => match e with
                           | Ai.Request _ _ _ => true
                           | Ai.Sleep _ => false
                           end) evs).

(* ===================================================================== *)
(** * components/sidebar/DocumentSidebar.tsx: the document tree           *)
(* ===================================================================== *)

Module Sidebar.

(** [doc.title.toLowerCase().includes(searchQuery.toLowerCase())]; a
    missing title makes [toLowerCase] throw ([None]). *)
Definition titleMatches (searchQuery : str) (doc : Document) : option bool :=
  match title doc with
  | Some t => Some (includes (toLowerCase searchQuery) (toLowerCase t))
  | None => None
  end.

(** [children.some((c) => ...)]: it stops at the first match. *)
Fixpoint someMatch (searchQuery : str) (cs : list Document) : option bool :=
  match cs with
  | [] => Some false
  | c :: r =>
      match titleMatches searchQuery c with
      | Some true => Some true
      | Some false => someMatch searchQuery r
      | None => None
      end
  end.

(** [Object.values(documents).filter((d) => d.parentId === doc.id)] *)
Definition childrenOf (docs : table) (doc : Document) : list Document :=
  filter (fun d => parent_is d (id doc)) (values docs).

(** The elements a list of components renders, one after the other; one
    that throws takes the whole list with it. *)
Fixpoint each {A B} (f : A -> option (list B)) (l : list A)
  : option (list B) :=
  match l with
  | [] => Some []
  | a :: r =>
      match f a with
      | Some x => match each f r with
                  | Some y => Some (x ++ y)
                  | None => None
                  end
      | None => None
      end
  end.

(** [DocItem({ doc, depth, searchQuery })]: the rows it renders, each a
    document with its depth, top to bottom.  [isOpen] is the state of
    that name of the instance rendered for a document, told by the
    document's [id]; [fuel] bounds the nesting of the components, [None]
    being a render that throws or does not end. *)
Fixpoint DocItem (fuel : nat) (docs : table) (isOpen : option str -> bool)
         (searchQuery : str) (doc : Document) (depth : nat)
  : option (list (Document * nat)) :=
  match fuel with
  | O => None
  | S fuel' =>
      let children := childrenOf docs doc in
      match Panels.badge doc with
      | None => None
      | Some _ =>
          let hidden :=
            if truthy searchQuery then
              match titleMatches searchQuery doc with
              | None => None
              | Some matches =>
                  match someMatch searchQuery children with
                  | None => None
                  | Some childrenMatch =>
                      Some (negb matches && negb childrenMatch)
                  end
              end
            else Some false in
          match hidden with
          | None => None
          | Some true => Some []
          | Some false =>
              if Panels.folderish doc && isOpen (id doc)
                 && (1 <=? length children)
              then
                match each (fun child =>
                              DocItem fuel' docs isOpen searchQuery child
                                      (depth + 1))
                           children with
                | Some below => Some ((doc, depth) :: below)
                | None => None
                end
              else Some [(doc, depth)]
          end
      end
  end.

(** [rootDocs] of [DocumentSidebar]: [d.parentId === null]. *)
Definition rootDocs (docs : table) : list Document :=
  filter (fun d => match parentId d with
                   | Some None => true
                   | _ => false
                   end) (values docs).

(** The rows of the tree. *)
Definition tree (fuel : nat) (docs : table) (isOpen : option str -> bool)
           (searchQuery : str) : option (list (Document * nat)) :=
  each (fun doc => DocItem fuel docs isOpen searchQuery doc 0) (rootDocs docs).

(** The two counts of the footer. *)
Definition footerDocuments (docs : table) : nat :=
  length (filter (fun d => negb (Panels.folderish d)) (values docs)).

Definition footerFolders (docs : table) : nat :=
  length (filter Panels.folderish (values docs)).

(** [handleRename()] of [DocItem], for the text of the input. *)
Definition handleRename (now : Z) (doc : Document) (editTitle : str)
           (st : EditorState) : EditorState :=
  let trimmed := if truthy (trim editTitle) then trim editTitle
                 else ls "Untitled" in
  renameDocument now (property_key (id doc)) trimmed st.

(** The [onSelect] of an entry of [NewFileDropdown]: the store's
    [createDocument] takes two arguments and the third, the extension of
    the entry, is dropped. *)
Definition newFile (newId : str) (now : Z) (parentId : option str)
           (extension : option str) (st : EditorState) : EditorState * str :=
  createDocument newId now parentId false st.

End Sidebar.

(* ===================================================================== *)
(** * components/editor/SlashCommand.tsx                                  *)
(* ===================================================================== *)

Module SlashCommand.

(** [interface CommandItem], without the icon and the command. *)
Record CommandItem := mkItem {
  title : str;
  description : str;
  group : str
}.

(** [const COMMANDS] *)
Definition COMMANDS : list CommandItem :=
  [ mkItem (ls "Paragraph") (ls "Plain text paragraph") (ls "Text");
    mkItem (ls "Heading 1") (ls "Large section heading") (ls "Text");
    mkItem (ls "Heading 2") (ls "Medium section heading") (ls "Text");
    mkItem (ls "Heading 3") (ls "Small section heading") (ls "Text");
    mkItem (ls "Quote") (ls "Highlighted blockquote") (ls "Text");
    mkItem (ls "Highlight") (ls "Highlight text for emphasis") (ls "Text");
    mkItem (ls "Bullet List") (ls "Unordered list of items") (ls "Lists");
    mkItem (ls "Numbered List") (ls "Ordered numbered list") (ls "Lists");
    mkItem (ls "Task List") (ls "Checkbox to-do list") (ls "Lists");
    mkItem (ls "Table") (ls "Insert a 3" ++ [chr 215] ++ ls "3 table")
           (ls "Media");
    mkItem (ls "Image") (ls "Embed image from URL or file") (ls "Media");
    mkItem (ls "Link") (ls "Insert a hyperlink") (ls "Media");
    mkItem (ls "Code Block") (ls "Monospaced code block") (ls "Code");
    mkItem (ls "Divider") (ls "Horizontal rule separator") (ls "Layout") ].

(** [field.toLowerCase().includes(query.toLowerCase())] *)
Definition fieldMatches (query field : str) : bool :=
  includes (toLowerCase query) (toLowerCase field).

(** [items({ query })]: replacing the command of the entry [Image]
    changes none of the three fields. *)
Definition items (query : str) : list CommandItem :=
  filter (fun item => fieldMatches query (title item)
                      || fieldMatches query (description item)
                      || fieldMatches query (group item))
         COMMANDS.

(** [props.items.reduce(...)] into [groups]: an item joins the entry of
    its group, or opens a new entry behind the others (no group name of
    the table is an array index or a property every object has). *)
Fixpoint push (acc : list (str * list CommandItem)) (item : CommandItem)
  : list (str * list CommandItem) :=
  match acc with
  | [] => [(group item, [item])]
  | (g, members) :: r =>
      if str_eqb g (group item) then (g, members ++ [item]) :: r
      else (g, members) :: push r item
  end.

Definition groups (l : list CommandItem) : list (str * list CommandItem) :=
  fold_left push l [].

(** The entries in the order the menu shows them: group after group. *)
Definition shown (l : list CommandItem) : list CommandItem :=
  flat_map snd (groups l).

(** [selectedIndex] is a number: an index, or [NaN] ([None]) once a
    remainder by zero was taken. *)
Definition arrowDown (n : nat) (i : option nat) : option nat :=
  match i with
  | Some i => if n =? 0 then None else Some ((i + 1) mod n)
  | None => None
  end.

Definition arrowUp (n : nat) (i : option nat) : option nat :=
  match i with
  | Some i => if n =? 0 then None else Some ((i + n - 1) mod n)
  | None => None
  end.

(** [selectItem(index)]: the item the command is run for, if any. *)
Definition selectItem (l : list CommandItem) (i : option nat)
  : option CommandItem :=
  match i with
  | Some i => nth_error l i
  | None => None
  end.

End SlashCommand.

(* ===================================================================== *)
(** * components/editor/TiptapEditor.tsx: links and images                *)
(* ===================================================================== *)

Module TiptapEditor.




(** A file chosen in the image dialog: its size in bytes and what
    reading it as a data URL gives, [None] when the read fails. *)
Record File := mkFile {
  size : N;
  readAsDataURL : option str
}.



(** Who opened the image dialog. *)
Inductive dialogSource :=
| Toolbar
| Slash.

(** The image dialog: [imageDialogSourceRef], whether [imageResolveRef]
    holds a resolver, and the three pieces of state. *)
Record ImageDialog := mkImageDialog {
  imageDialogSource : dialogSource;
  imageResolve : bool;
  imageDialogOpen : bool;
  imageUrl : str;
  imageFile : option File
}.

(** What [applyImageInsert] does outside the dialog: it sets an image
    in the editor, resolves the pending request of the slash menu, or
    shows an error. *)
Inductive imageEffect :=
| SetImage (src : str)
| ResolveImage (src : str)
| ToastError (message : str).

(** The inner [apply(src)] of [applyImageInsert]; [editor] tells
    whether there is an editor. *)
Definition apply (editor : bool) (d : ImageDialog) (src : str)
  : ImageDialog * list imageEffect :=
  let toolbar := match imageDialogSource d with
                 | Toolbar => editor
                 | Slash => false
                 end in
  (mkImageDialog Slash (if toolbar then imageResolve d else false)
                 false [] None,
   if toolbar then [SetImage src]
   else if imageResolve d then [ResolveImage src] else []).


End TiptapEditor.

(* ===================================================================== *)
(** * components/editor/PlainTextEditor.tsx: taking the text in           *)
(* ===================================================================== *)

Module PlainTextEditor.

(** [activeDocumentId ? documents[activeDocumentId] : null], read as a
    condition. *)
Definition activeDoc (st : EditorState) : option Document :=
  match activeDocumentId st with
  | Some a => if truthy a then lookup (documents st) a else None
  | None => None
  end.

(** [activeDoc && getDocumentExtension(activeDoc) === "txt"] *)
Definition isPlain (doc : option Document) : bool :=
  match doc with
  | Some d => match getDocumentExtension d with
              | Some e => str_eqb e (ls "txt")
              | None => false
              end
  | None => false
  end.

(** [content && (content.includes("</") || /^\s*</.test(content))] *)
Definition looksLikeMarkup (content : str) : bool :=
  truthy content
  && (includes (ls "</") content
      || match trimStart content with
         | "<" :: _ => true
         | _ => false
         end).

(** The effect that takes the content of the active document into the
    text area: the store and [localValue] after it. *)
Definition sync (now : Z) (st : EditorState) (localValue : str)
  : EditorState * str :=
  match activeDoc st with
  | None => (st, localValue)
  | Some d =>
      if negb (isPlain (Some d)) then (st, localValue)
      else
        match content d with
        | Some c =>
            if looksLikeMarkup c then
              let c' := htmlToPlainText c in
              (updateDocument now (property_key (id d)) (onlyContent c') st,
               c')
            else (st, c)
        | None => (st, [])
        end
  end.

End PlainTextEditor.

(* ===================================================================== *)
(** * The layout's panel button and the line numbers of a code block      *)
(* ===================================================================== *)

Module EditorLayout.

(** [toggleRightSidebar()] and [setRightSidebarTab(tab)] of the store. *)
Definition toggleRightSidebar (st : EditorState) : EditorState :=
  {| documents := documents st;
     activeDocumentId := activeDocumentId st;
     isZenMode := isZenMode st;
     isLeftSidebarOpen := isLeftSidebarOpen st;
     isRightSidebarOpen := negb (isRightSidebarOpen st);
     rightSidebarTab := rightSidebarTab st;
     editorWordCount := editorWordCount st;
     charCount := charCount st;
     readingTime := readingTime st;
     contentHealthScore := contentHealthScore st |}.

Definition setRightSidebarTab (tab : SidebarTab) (st : EditorState)
  : EditorState :=
  {| documents := documents st;
     activeDocumentId := activeDocumentId st;
     isZenMode := isZenMode st;
     isLeftSidebarOpen := isLeftSidebarOpen st;
     isRightSidebarOpen := isRightSidebarOpen st;
     rightSidebarTab := tab;
     editorWordCount := editorWordCount st;
     charCount := charCount st;
     readingTime := readingTime st;
     contentHealthScore := contentHealthScore st |}.

(** The click handler of the [AI] button of the top bar; the two
    conditions read the state the button was rendered with. *)
Definition aiButton (st : EditorState) : EditorState :=
  let st1 := setRightSidebarTab TabAi st in
  if negb (isRightSidebarOpen st) then toggleRightSidebar st1
  else match rightSidebarTab st with
       | TabAi => toggleRightSidebar st1
       | TabOutline => st1
       end.

End EditorLayout.

Module CodeBlock.

(** [arr.join(sep)] *)
Fixpoint joinWith (sep : str) (l : list str) : str :=
  match l with
  | [] => []
  | [x] => x
  | x :: r => x ++ sep ++ joinWith sep r
  end.

(** The [lines] of [updateLineNumbers(text)]. *)
Definition lines (text : str) : list str :=
  if truthy text then split (m_lit [LF]) text else [[]].

(** What [updateLineNumbers(text)] writes into the gutter. *)
Definition updateLineNumbers (text : str) : str :=
  joinWith [LF] (map Ai.decimal_of_nat (seq 1 (length (lines text)))).

End CodeBlock.

(* ===================================================================== *)
(** * Notions for the properties of the components                        *)
(* ===================================================================== *)

(** Every document of the table has a title and a content. *)
Definition complete (docs : table) : Prop :=
  forall k d, In (k, d) docs -> title d <> None /\ content d <> None.

(** The search lets the row of [d] through: there is no query, or the
    title of [d] or of one of its children holds the query. *)
Definition passes (docs : table) (searchQuery : str) (d : Document) : Prop :=
  truthy searchQuery = false
  \/ Sidebar.titleMatches searchQuery d = Some true
  \/ exists c, In c (Sidebar.childrenOf docs d)
               /\ Sidebar.titleMatches searchQuery c = Some true.

(** [visible docs isOpen q k n]: the document [k] hangs [n] levels below
    the root under open folders, and the search lets it and every folder
    above it through. *)
Inductive visible (docs : table) (isOpen : option str -> bool)
          (searchQuery : str) : str -> nat -> Prop :=
| visible_root k d :
    lookup docs k = Some d -> parentId d = Some None ->
    passes docs searchQuery d ->
    visible docs isOpen searchQuery k 0
| visible_child k d p dp n :
    lookup docs k = Some d -> parentId d = Some (Some p) ->
    lookup docs p = Some dp -> Panels.folderish dp = true ->
    isOpen (Some p) = true ->
    visible docs isOpen searchQuery p n ->
    passes docs searchQuery d ->
    visible docs isOpen searchQuery k (S n).

(** [shown_from docs isOpen q k n k' m]: the row of [k'] at depth [m]
    belongs to what the component of [k] at depth [n] renders. *)
Inductive shown_from (docs : table) (isOpen : option str -> bool)
          (searchQuery : str) : str -> nat -> str -> nat -> Prop :=
| shown_self k n d :
    lookup docs k = Some d -> passes docs searchQuery d ->
    shown_from docs isOpen searchQuery k n k n
| shown_below k n d c dc k' m :
    lookup docs k = Some d -> passes docs searchQuery d ->
    Panels.folderish d = true -> isOpen (Some k) = true ->
    lookup docs c = Some dc -> parentId dc = Some (Some k) ->
    shown_from docs isOpen searchQuery c (S n) k' m ->
    shown_from docs isOpen searchQuery k n k' m.

(** The surface after the store has deleted a document: the component is
    rendered again with the active document of the store; its timers
    stay. *)
Definition after_delete (fuel : nat) (k : str) (s : Surface.surface)
  : option Surface.surface :=
  match deleteDocument fuel k (Surface.store s) with
  | Some st =>
      Some {| Surface.saveTimeout := Surface.saveTimeout s;
              Surface.activeId := activeDocumentId st;
              Surface.clock := Surface.clock s;
              Surface.nextHandle := Surface.nextHandle s;
              Surface.pending := Surface.pending s;
              Surface.store := st |}
  | None => None
  end.

(** Every way of leaving entries out of a list. *)
Fixpoint sublists {A} (l : list A) : list (list A) :=
  match l with
  | [] => [[]]
  | x :: r => map (cons x) (sublists r) ++ sublists r
  end.

Definition item_eqb (a b : SlashCommand.CommandItem) : bool :=
  str_eqb (SlashCommand.title a) (SlashCommand.title b)
  && str_eqb (SlashCommand.description a) (SlashCommand.description b)
  && str_eqb (SlashCommand.group a) (SlashCommand.group b).

Fixpoint items_eqb (a b : list SlashCommand.CommandItem) : bool :=
  match a, b with
  | [], [] => true
  | x :: a', y :: b' => item_eqb x y && items_eqb a' b'
  | _, _ => false
  end.

(* ===================================================================== *)
(** * components/editor/CodeBlockCodeMirror.tsx: the language of a block  *)
(* ===================================================================== *)

Module CodeBlockCodeMirror.

(** The keys of [LANG_MAP]. *)
Definition LANG_MAP : list str :=
  [ ls "javascript"; ls "js"; ls "typescript"; ls "ts"; ls "html";
    ls "json"; ls "css"; ls "xml"; ls "python"; ls "py"; ls "csharp";
    ls "cs"; ls "c#" ].

(** The values of [LANG_OPTIONS]. *)
Definition LANG_OPTIONS : list str :=
  [ []; ls "javascript"; ls "typescript"; ls "python"; ls "csharp";
    ls "html"; ls "css"; ls "json"; ls "xml" ].

(** [aliasMap] of [normalizeLang]. *)
Definition aliasMap : list (str * str) :=
  [ (ls "py", ls "python"); (ls "cs", ls "csharp"); (ls "c#", ls "csharp");
    (ls "js", ls "javascript"); (ls "ts", ls "typescript") ].

Section Lookup.

(** The property names every object literal inherits; what is found
    under them is a function or an object, so truthy. *)
Variable inherited : str -> bool.

(** [LANG_MAP[key]] read as a condition. *)
Definition hasLanguage (key : str) : bool :=
  existsb (str_eqb key) LANG_MAP || inherited key.

(** [normalizeLang(lang)].  The alias table is read only for a key under
    which [LANG_MAP] has nothing, hence for no inherited name. *)
Definition normalizeLang (lang : option str) : option str :=
  match lang with
  | None => None
  | Some l =>
      if negb (truthy l) then None
      else
        let key := toLowerCase l in
        if hasLanguage key then Some key else assoc aliasMap key
  end.

(** [normalizeLang(language)], or the empty string for [null]: the value
    of the language menu. *)
Definition normalizedLang (language : str) : str :=
  match normalizeLang (Some language) with
  | Some n => n
  | None => []
  end.

End Lookup.

End CodeBlockCodeMirror.

(* ===================================================================== *)
(** * Facts about strings and scans                                       *)
(* ===================================================================== *)

Section JsFacts.

Lemma str_eqb_refl (a : str) : str_eqb a a = true.
Proof.
  induction a as [|x a IH]; simpl; [reflexivity|].
  now rewrite Ascii.eqb_refl, IH.
Qed.

Lemma str_eqb_eq (a b : str) : str_eqb a b = true <-> a = b.
Proof.
  split.
  - revert b; induction a as [|x a IH]; intros [|y b]; simpl; try discriminate; auto.
    intros H. apply andb_true_iff in H as [Hxy Hab].
    apply Ascii.eqb_eq in Hxy. f_equal; auto.
  - intros ->. apply str_eqb_refl.
Qed.

Lemma str_eqb_neq (a b : str) : str_eqb a b = false <-> a <> b.
Proof.
  split.
  - intros H E. apply str_eqb_eq in E. congruence.
  - intros H. destruct (str_eqb a b) eqn:E; [|reflexivity].
    apply str_eqb_eq in E. contradiction.
Qed.

Lemma is_chr_true (a c : ascii) : is_chr a c = true <-> c = a.
Proof.
  unfold is_chr. rewrite Ascii.eqb_eq. split; congruence.
Qed.

Lemma is_chr_false (a c : ascii) : is_chr a c = false <-> c <> a.
Proof.
  unfold is_chr. rewrite Ascii.eqb_neq. split; congruence.
Qed.

(** One step of a scan. *)
Lemma scan_cons (m : matcher) (c : ascii) (r : str) :
  scan m (c :: r) =
  match m (c :: r) with
  | Some (S n) => Hit (firstn (S n) (c :: r)) :: scan_from m n r
  | _ => Text c :: scan m r
  end.
Proof. reflexivity. Qed.

Lemma scan_from_skip (m : matcher) (x s : str) :
  scan_from m (length x) (x ++ s) = scan m s.
Proof.
  induction x as [|c x IH]; simpl; [reflexivity|]. exact IH.
Qed.

(** A match [x] at the head is cut out whole. *)
Lemma scan_hit (m : matcher) (c : ascii) (x s : str) :
  m (c :: x ++ s) = Some (S (length x)) ->
  scan m (c :: x ++ s) = Hit (c :: x) :: scan m s.
Proof.
  intros H. rewrite scan_cons, H. f_equal.
  - f_equal. simpl. f_equal.
    rewrite firstn_app, Nat.sub_diag, firstn_all. simpl. apply app_nil_r.
  - apply scan_from_skip.
Qed.

Lemma scan_miss (m : matcher) (c : ascii) (r : str) :
  m (c :: r) = None -> scan m (c :: r) = Text c :: scan m r.
Proof. intros H. now rewrite scan_cons, H. Qed.

Lemma replace_with_hit (m : matcher) f (c : ascii) (x s : str) :
  m (c :: x ++ s) = Some (S (length x)) ->
  replace_with m f (c :: x ++ s) = f (c :: x) ++ replace_with m f s.
Proof.
  intros H. unfold replace_with. now rewrite (scan_hit m c x s H).
Qed.

Lemma replace_with_miss (m : matcher) f (c : ascii) (r : str) :
  m (c :: r) = None ->
  replace_with m f (c :: r) = c :: replace_with m f r.
Proof.
  intros H. unfold replace_with. now rewrite (scan_miss m c r H).
Qed.

Lemma replace_all_hit (m : matcher) (rep : str) (c : ascii) (x s : str) :
  m (c :: x ++ s) = Some (S (length x)) ->
  replace_all m rep (c :: x ++ s) = rep ++ replace_all m rep s.
Proof. apply replace_with_hit. Qed.

Lemma replace_all_miss (m : matcher) (rep : str) (c : ascii) (r : str) :
  m (c :: r) = None ->
  replace_all m rep (c :: r) = c :: replace_all m rep r.
Proof. apply replace_with_miss. Qed.

Lemma replace_all_nil (m : matcher) (rep : str) : replace_all m rep [] = [].
Proof. reflexivity. Qed.

(** A matcher that needs a head character of the class [p] leaves a string
    without such characters alone. *)
Lemma replace_all_untouched (p : ascii -> bool) (m : matcher) (rep s : str) :
  triggered_by p m ->
  (forall c, In c s -> p c = false) ->
  replace_all m rep s = s.
Proof.
  intros Hm. induction s as [|c s IH]; intros Hs; [reflexivity|].
  rewrite replace_all_miss.
  - f_equal. apply IH. intros x Hx. apply Hs. now right.
  - apply Hm. apply Hs. now left.
Qed.

End JsFacts.

(* ===================================================================== *)
(** * getDocumentExtension                                                *)
(* ===================================================================== *)

Section ExtensionFacts.

Lemma after_last_none (a : ascii) (s : str) :
  existsb (is_chr a) s = false -> after_last a s = s.
Proof.
  induction s as [|c r IH]; simpl; [reflexivity|].
  intros H. apply orb_false_iff in H as [Hc Hr].
  now rewrite Hr, Hc.
Qed.

(** [after_last] is the part behind the last occurrence. *)
Lemma after_last_split (a : ascii) (s : str) :
  existsb (is_chr a) s = true ->
  exists p, s = p ++ a :: after_last a s
            /\ existsb (is_chr a) (after_last a s) = false.
Proof.
  induction s as [|c r IH]; simpl; [discriminate|].
  intros H. destruct (existsb (is_chr a) r) eqn:Hr.
  - destruct (IH eq_refl) as (p & Hp & Hn).
    exists (c :: p). split; [|exact Hn]. simpl. now f_equal.
  - rewrite orb_false_r in H. rewrite H. apply is_chr_true in H. subst c.
    exists []. split; [reflexivity|exact Hr].
Qed.

Lemma scan_lit1 (a c : ascii) (r : str) :
  scan (m_lit [a]) (c :: r) =
  (if is_chr a c then Hit [c] else Text c) :: scan (m_lit [a]) r.
Proof.
  rewrite scan_cons. unfold m_lit, startsWith, is_chr. simpl.
  rewrite andb_true_r. now destruct (Ascii.eqb a c).
Qed.

Lemma split_lit1_nonempty (a : ascii) (s : str) : split (m_lit [a]) s <> [].
Proof.
  unfold split. induction s as [|c r IH]; [discriminate|].
  rewrite scan_lit1. destruct (is_chr a c); simpl; [discriminate|].
  destruct (between (scan (m_lit [a]) r)); discriminate.
Qed.

Lemma split_lit1_none (a : ascii) (s : str) :
  existsb (is_chr a) s = false -> split (m_lit [a]) s = [s].
Proof.
  unfold split. induction s as [|c r IH]; [reflexivity|].
  simpl existsb. intros H. apply orb_false_iff in H as [Hc Hr].
  rewrite scan_lit1, Hc. simpl. now rewrite (IH Hr).
Qed.

Lemma split_lit1_some (a : ascii) (s : str) :
  existsb (is_chr a) s = true ->
  exists h x t, split (m_lit [a]) s = h :: x :: t.
Proof.
  unfold split. induction s as [|c r IH]; [discriminate|].
  simpl existsb. intros H. rewrite scan_lit1.
  destruct (is_chr a c) eqn:Hc.
  - simpl. destruct (between (scan (m_lit [a]) r)) as [|x t] eqn:E.
    + now apply (split_lit1_nonempty a r) in E.
    + now exists [], x, t.
  - simpl in H. destruct (IH H) as (h & x & t & E).
    simpl. rewrite E. now exists (c :: h), x, t.
Qed.

Lemma pop_cons2 (h x : str) (t : list str) : pop (h :: x :: t) = pop (x :: t).
Proof. reflexivity. Qed.

(** [s.split(a).pop()] is the part behind the last [a]. *)
Lemma pop_split_lit1 (a : ascii) (s : str) :
  pop (split (m_lit [a]) s) = Some (after_last a s).
Proof.
  induction s as [|c r IH]; [reflexivity|].
  simpl after_last. destruct (existsb (is_chr a) r) eqn:Hr.
  - destruct (split_lit1_some a r Hr) as (h & x & t & E).
    unfold split in *. rewrite scan_lit1.
    destruct (is_chr a c); simpl; rewrite E in *; rewrite <- IH; reflexivity.
  - pose proof (split_lit1_none a r Hr) as E.
    unfold split in *. rewrite scan_lit1.
    destruct (is_chr a c); simpl; rewrite E; reflexivity.
Qed.

Lemma test_lit1 (a : ascii) (s : str) :
  includes [a] s = existsb (is_chr a) s.
Proof.
  unfold includes. induction s as [|c r IH]; [reflexivity|].
  simpl. unfold m_lit at 1, startsWith, is_chr. simpl.
  rewrite andb_true_r. destruct (Ascii.eqb a c); [reflexivity|exact IH].
Qed.

Lemma run_length_le (p : ascii -> bool) (s : str) : run_length p s <= length s.
Proof.
  induction s as [|c r IH]; simpl; [lia|]. destruct (p c); simpl; lia.
Qed.

Lemma run_length_all (p : ascii -> bool) (s : str) :
  run_length p s = length s <-> forallb p s = true.
Proof.
  induction s as [|c r IH]; simpl; [tauto|].
  destruct (p c); simpl.
  - rewrite <- IH. split; lia.
  - split; [lia|discriminate].
Qed.

(** The anchored test is: non-empty and alphanumeric throughout. *)
Lemma re_alnum_only_spec (s : str) :
  truthy s && re_alnum_only s = truthy s && forallb is_alnum s.
Proof.
  destruct s as [|c r]; [reflexivity|]. cbn [truthy andb].
  unfold re_alnum_only, m_run.
  destruct (forallb is_alnum (c :: r)) eqn:Hall.
  - apply run_length_all in Hall. rewrite Hall. cbn [length].
    simpl. now rewrite Nat.eqb_refl.
  - set (n := run_length is_alnum (c :: r)).
    assert (Hn : n <> length (c :: r)).
    { intros E. apply run_length_all in E. congruence. }
    destruct ((1 <=? n) && (1 <=? n)); [|reflexivity].
    now apply Nat.eqb_neq.
Qed.

Lemma lower_char_alnum (c : ascii) : is_alnum (lower_char c) = is_alnum c.
Proof. destruct c as [[] [] [] [] [] [] [] []]; reflexivity. Qed.

Lemma lower_char_space (c : ascii) : is_space (lower_char c) = is_space c.
Proof. destruct c as [[] [] [] [] [] [] [] []]; reflexivity. Qed.

Lemma lower_char_dot (c : ascii) : is_chr "." (lower_char c) = is_chr "." c.
Proof. destruct c as [[] [] [] [] [] [] [] []]; reflexivity. Qed.

Lemma lower_char_idem (c : ascii) : lower_char (lower_char c) = lower_char c.
Proof. destruct c as [[] [] [] [] [] [] [] []]; reflexivity. Qed.

Lemma forallb_alnum_lower (s : str) :
  forallb is_alnum (toLowerCase s) = forallb is_alnum s.
Proof.
  induction s as [|c r IH]; simpl; [reflexivity|].
  now rewrite lower_char_alnum, IH.
Qed.

Lemma truthy_lower (s : str) : truthy (toLowerCase s) = truthy s.
Proof. now destruct s. Qed.

(** The code against the wording, on the trimmed title. *)
Lemma getDocumentExtension_trimmed (doc : Document) :
  getDocumentExtension doc = extensionOf_spec (trim (titleOf doc)).
Proof.
  unfold getDocumentExtension, extensionOf_spec, titleOf.
  assert (E : match title doc with Some t => trim t | None => [] end
              = trim match title doc with Some t => t | None => [] end).
  { now destruct (title doc). }
  rewrite E. set (t := trim _).
  change (ls ".") with ["."]. rewrite test_lit1, pop_split_lit1.
  destruct (existsb (is_chr ".") t); [|reflexivity]. cbn [negb].
  now rewrite re_alnum_only_spec, truthy_lower, forallb_alnum_lower.
Qed.

End ExtensionFacts.

(* ===================================================================== *)
(** * Runs of a character class                                           *)
(* ===================================================================== *)

Section RunFacts.

Variable p : ascii -> bool.

Lemma run_length_app (w s : str) :
  forallb p w = true -> run_length p s = 0 ->
  run_length p (w ++ s) = length w.
Proof.
  intros Hw Hs. induction w as [|c w IH]; simpl in *; [exact Hs|].
  apply andb_true_iff in Hw as [Hc Hw]. rewrite Hc. f_equal. auto.
Qed.

Lemma run_length_zero (s : str) :
  run_length p s = 0 <-> s = [] \/ exists c r, s = c :: r /\ p c = false.
Proof.
  destruct s as [|c r]; simpl.
  - split; auto.
  - destruct (p c) eqn:Hc; split; intros H; try discriminate.
    + destruct H as [H | (c' & r' & E & H)]; [discriminate|].
      injection E as -> ->. congruence.
    + right. now exists c, r.
    + reflexivity.
Qed.

(** Every string is empty, or starts outside the class, or starts with a
    maximal run of the class. *)
Lemma run_ind (P : str -> Prop) :
  P [] ->
  (forall c r, p c = false -> P r -> P (c :: r)) ->
  (forall c w s, forallb p (c :: w) = true -> run_length p s = 0 ->
                 P s -> P ((c :: w) ++ s)) ->
  forall s, P s.
Proof.
  intros Hnil Hout Hrun s.
  remember (length s) as n eqn:Hn. revert s Hn.
  induction n as [n IH] using lt_wf_ind. intros s Hn.
  destruct s as [|c r]; [exact Hnil|].
  destruct (p c) eqn:Hc.
  - set (k := run_length p r).
    assert (Hall : forallb p (firstn k r) = true).
    { subst k. clear. induction r as [|x r IH]; simpl; [reflexivity|].
      destruct (p x) eqn:Hx; simpl; [now rewrite Hx|reflexivity]. }
    assert (Hstop : run_length p (skipn k r) = 0).
    { subst k. clear. induction r as [|x r IH]; simpl; [reflexivity|].
      destruct (p x) eqn:Hx; simpl; [exact IH|now rewrite Hx]. }
    rewrite <- (firstn_skipn k r).
    apply (Hrun c (firstn k r) (skipn k r)).
    + simpl. now rewrite Hc.
    + exact Hstop.
    + apply (IH (length (skipn k r))); [|reflexivity].
      subst n. simpl. rewrite length_skipn. lia.
  - apply Hout; [exact Hc|].
    apply (IH (length r)); [subst n; simpl; lia|reflexivity].
Qed.

(** A maximal run that is long enough is one match. *)
Lemma scan_run_hit (min : nat) (c : ascii) (w s : str) :
  forallb p (c :: w) = true -> run_length p s = 0 ->
  min <= S (length w) ->
  scan (m_run p min) ((c :: w) ++ s) = Hit (c :: w) :: scan (m_run p min) s.
Proof.
  intros Hw Hs Hmin. simpl app. apply scan_hit.
  unfold m_run. change (c :: w ++ s) with ((c :: w) ++ s).
  rewrite (run_length_app _ _ Hw Hs). simpl length.
  destruct (min <=? S (length w)) eqn:E; [reflexivity|].
  apply Nat.leb_gt in E. lia.
Qed.

(** A maximal run that is too short is ordinary text. *)
Lemma scan_run_short (min : nat) (w s : str) :
  forallb p w = true -> run_length p s = 0 ->
  length w < min ->
  scan (m_run p min) (w ++ s) = map Text w ++ scan (m_run p min) s.
Proof.
  intros Hw Hs Hlen. induction w as [|c w IH]; [reflexivity|].
  simpl app. rewrite scan_miss.
  - simpl. f_equal. apply IH.
    + simpl in Hw. now apply andb_true_iff in Hw.
    + simpl in Hlen. lia.
  - unfold m_run. change (c :: w ++ s) with ((c :: w) ++ s).
    rewrite (run_length_app _ _ Hw Hs).
    destruct (min <=? length (c :: w)) eqn:E; [|reflexivity].
    apply Nat.leb_le in E. lia.
Qed.

Lemma scan_run_out (min : nat) (c : ascii) (r : str) :
  p c = false ->
  scan (m_run p min) (c :: r) = Text c :: scan (m_run p min) r.
Proof.
  intros Hc. apply scan_miss. unfold m_run. simpl. rewrite Hc.
  now rewrite andb_false_r.
Qed.

(** Counting runs does not depend on what came before, when the string
    does not start inside the class. *)
Lemma run_starts_fresh (b : bool) (s : str) :
  run_length p s = 0 -> run_starts p b s = run_starts p false s.
Proof.
  intros H. apply run_length_zero in H as [-> | (c & r & -> & Hc)].
  - reflexivity.
  - simpl. now rewrite Hc.
Qed.

Lemma run_starts_inside (w s : str) :
  forallb p w = true -> run_length p s = 0 ->
  run_starts p true (w ++ s) = run_starts p false s.
Proof.
  intros Hw Hs. induction w as [|c w IH]; simpl.
  - now apply run_starts_fresh.
  - simpl in Hw. apply andb_true_iff in Hw as [Hc Hw]. rewrite Hc. simpl. auto.
Qed.

(** [(s.match(/[class]+/g) || []).length] counts the maximal runs. *)
Lemma match_count_runs (s : str) :
  match_count (m_run p 1) s = count_runs p s.
Proof.
  unfold match_count, count_runs.
  induction s as [|c r Hc IH|c w s Hw Hs IH] using run_ind.
  - reflexivity.
  - rewrite scan_run_out by assumption. simpl. now rewrite Hc.
  - rewrite scan_run_hit by (try assumption; simpl; lia).
    simpl filter. simpl length. rewrite IH.
    simpl in Hw. apply andb_true_iff in Hw as [Hc Hw'].
    simpl. rewrite Hc. f_equal. symmetry. now apply run_starts_inside.
Qed.

End RunFacts.

(* ===================================================================== *)
(** * White space: trim and the split on [\s+]                            *)
(* ===================================================================== *)

Section SpaceFacts.

Lemma not_space_false (c : ascii) : not_space c = false <-> is_space c = true.
Proof. unfold not_space. destruct (is_space c); simpl; split; congruence. Qed.

Lemma not_space_true (c : ascii) : not_space c = true <-> is_space c = false.
Proof. unfold not_space. destruct (is_space c); simpl; split; congruence. Qed.

Lemma ends_space_snoc (s : str) (c : ascii) : ends_space (s ++ [c]) = is_space c.
Proof. unfold ends_space. now rewrite rev_app_distr. Qed.

Lemma ends_space_app (a b : str) : b <> [] -> ends_space (a ++ b) = ends_space b.
Proof.
  intros Hb. destruct (exists_last Hb) as (b' & c & ->).
  now rewrite app_assoc, !ends_space_snoc.
Qed.

Lemma ends_space_cons (c : ascii) (r : str) :
  r <> [] -> ends_space (c :: r) = ends_space r.
Proof. intros H. now apply (ends_space_app [c]). Qed.

Lemma ends_space_all (c : ascii) (w : str) :
  forallb is_space (c :: w) = true -> ends_space (c :: w) = true.
Proof.
  revert c. induction w as [|x w IH]; intros c H.
  - simpl in H. unfold ends_space. simpl. now rewrite andb_true_r in H.
  - rewrite ends_space_cons by discriminate. apply IH.
    simpl in H. now apply andb_true_iff in H.
Qed.

Lemma trimEnd_snoc (s : str) (c : ascii) :
  trimEnd (s ++ [c]) = if is_space c then trimEnd s else s ++ [c].
Proof.
  unfold trimEnd. rewrite rev_app_distr. simpl.
  destruct (is_space c); [reflexivity|].
  simpl. now rewrite rev_involutive.
Qed.

Lemma trimEnd_nil : trimEnd [] = [].
Proof. reflexivity. Qed.

Lemma trimEnd_fixed (s : str) : ends_space s = false -> trimEnd s = s.
Proof.
  destruct s as [|c r] using rev_ind; [reflexivity|].
  rewrite ends_space_snoc, trimEnd_snoc. now intros ->.
Qed.

Lemma trimStart_fixed (s : str) : starts_space s = false -> trimStart s = s.
Proof. destruct s as [|c r]; simpl; [reflexivity|]. now intros ->. Qed.

Lemma ends_space_trimEnd (s : str) : ends_space (trimEnd s) = false.
Proof.
  induction s as [|c s IH] using rev_ind; [reflexivity|].
  rewrite trimEnd_snoc. destruct (is_space c) eqn:Hc; [exact IH|].
  now rewrite ends_space_snoc.
Qed.

Lemma starts_space_trimStart (s : str) : starts_space (trimStart s) = false.
Proof.
  induction s as [|c s IH]; simpl; [reflexivity|].
  destruct (is_space c) eqn:Hc; [exact IH|]. simpl. exact Hc.
Qed.

Lemma starts_space_trimEnd (s : str) :
  starts_space s = false -> starts_space (trimEnd s) = false.
Proof.
  induction s as [|c s IH] using rev_ind; [reflexivity|].
  rewrite trimEnd_snoc. destruct (is_space c) eqn:Hc; [|auto].
  destruct s as [|x s]; simpl; [congruence|].
  intros H. apply IH. exact H.
Qed.

Lemma starts_space_trim (s : str) : starts_space (trim s) = false.
Proof. apply starts_space_trimEnd, starts_space_trimStart. Qed.

Lemma ends_space_trim (s : str) : ends_space (trim s) = false.
Proof. apply ends_space_trimEnd. Qed.

Lemma truthy_trimStart (s : str) : truthy (trimStart s) = existsb not_space s.
Proof.
  induction s as [|c s IH]; simpl; [reflexivity|].
  unfold not_space at 1. destruct (is_space c); simpl; [exact IH|reflexivity].
Qed.

Lemma truthy_trimEnd (s : str) : truthy (trimEnd s) = existsb not_space s.
Proof.
  induction s as [|c s IH] using rev_ind; [reflexivity|].
  rewrite trimEnd_snoc, existsb_app. simpl. rewrite orb_false_r.
  unfold not_space at 2. destruct (is_space c); simpl.
  - now rewrite orb_false_r.
  - rewrite orb_true_r. now destruct s.
Qed.

Lemma existsb_trimStart (s : str) :
  existsb not_space (trimStart s) = existsb not_space s.
Proof.
  induction s as [|c s IH]; simpl; [reflexivity|].
  unfold not_space at 2. destruct (is_space c) eqn:Hc; simpl; [exact IH|].
  unfold not_space. now rewrite Hc.
Qed.

(** [!text.trim()] asks whether the text is white space throughout. *)
Lemma truthy_trim (s : str) : truthy (trim s) = existsb not_space s.
Proof. unfold trim. now rewrite truthy_trimEnd, existsb_trimStart. Qed.

Lemma run_starts_snoc_out (q : ascii -> bool) (b : bool) (s : str) (c : ascii) :
  q c = false -> run_starts q b (s ++ [c]) = run_starts q b s.
Proof.
  intros Hc. revert b. induction s as [|x s IH]; intros b; simpl.
  - now rewrite Hc.
  - destruct (q x); now rewrite IH.
Qed.

Lemma count_words_trimStart (s : str) : count_words (trimStart s) = count_words s.
Proof.
  unfold count_words, count_runs.
  induction s as [|c s IH]; simpl; [reflexivity|].
  destruct (is_space c) eqn:Hc; simpl; [|reflexivity].
  apply not_space_false in Hc. now rewrite Hc.
Qed.

Lemma count_words_trimEnd (s : str) : count_words (trimEnd s) = count_words s.
Proof.
  unfold count_words, count_runs.
  induction s as [|c s IH] using rev_ind; [reflexivity|].
  rewrite trimEnd_snoc. destruct (is_space c) eqn:Hc; [|reflexivity].
  rewrite IH. symmetry. apply run_starts_snoc_out. now apply not_space_false.
Qed.

Lemma count_words_trim (s : str) : count_words (trim s) = count_words s.
Proof. unfold trim. now rewrite count_words_trimEnd, count_words_trimStart. Qed.

Lemma split_nonempty (m : matcher) (s : str) : split m s <> [].
Proof.
  unfold split, scan. generalize 0.
  induction s as [|c r IH]; intros k; simpl; [discriminate|].
  destruct k as [|k].
  - destruct (m (c :: r)) as [[|n]|]; simpl; try discriminate;
      destruct (between (scan_from m 0 r)); discriminate.
  - apply IH.
Qed.

Lemma split_out (c : ascii) (r : str) :
  is_space c = false ->
  exists h t, split m_spaces r = h :: t
              /\ split m_spaces (c :: r) = (c :: h) :: t.
Proof.
  intros Hc. unfold split, m_spaces. rewrite scan_run_out by assumption.
  simpl. destruct (between (scan (m_run is_space 1) r)) as [|h t] eqn:E.
  - now apply (split_nonempty (m_run is_space 1) r) in E.
  - now exists h, t.
Qed.

Lemma split_run (c : ascii) (w s : str) :
  forallb is_space (c :: w) = true -> run_length is_space s = 0 ->
  split m_spaces ((c :: w) ++ s) = [] :: split m_spaces s.
Proof.
  intros Hw Hs. unfold split, m_spaces.
  rewrite scan_run_hit by (try assumption; simpl; lia). reflexivity.
Qed.

Lemma run_starts_not_space_run (b : bool) (w s : str) :
  forallb is_space w = true ->
  run_starts not_space b (w ++ s) =
  match w with [] => run_starts not_space b s | _ => run_starts not_space false s end.
Proof.
  revert b. induction w as [|c w IH]; intros b Hw; [reflexivity|].
  simpl in Hw. apply andb_true_iff in Hw as [Hc Hw].
  simpl. unfold not_space at 1. rewrite Hc. simpl.
  rewrite (IH false Hw). now destruct w.
Qed.

(** The non-empty pieces of a split on white space are the tokens. *)
Lemma split_spaces_count (s : str) :
  exists h t, split m_spaces s = h :: t
    /\ length (filter truthy t) = run_starts not_space true s
    /\ length (filter truthy (h :: t)) = run_starts not_space false s.
Proof.
  induction s as [|c r Hc IH|c w s Hw Hs IH] using (run_ind is_space).
  - exists [], []. now split.
  - destruct IH as (h & t & E & H1 & H2).
    destruct (split_out c r Hc) as (h' & t' & E' & Es).
    rewrite E in E'. injection E' as <- <-.
    exists (c :: h), t. split; [exact Es|].
    simpl. apply not_space_true in Hc. rewrite Hc, H1. auto.
  - destruct IH as (h & t & E & H1 & H2).
    exists [], (h :: t). split; [rewrite split_run by assumption; now rewrite E|].
    rewrite (run_starts_not_space_run true _ s Hw).
    rewrite (run_starts_not_space_run false _ s Hw).
    cbn [filter truthy]. auto.
Qed.

Lemma count_words_split (s : str) :
  length (filter truthy (split m_spaces s)) = count_words s.
Proof.
  destruct (split_spaces_count s) as (h & t & E & _ & H). now rewrite E.
Qed.

(** With no white space at either end, no piece is empty. *)
Lemma split_trimmed_pieces (s : str) :
  ends_space s = false ->
  exists h t, split m_spaces s = h :: t
    /\ filter truthy t = t
    /\ (run_length is_space s = 0 -> s <> [] -> truthy h = true).
Proof.
  induction s as [|c r Hc IH|c w s Hw Hs IH] using (run_ind is_space).
  - intros _. exists [], []. repeat split; congruence.
  - intros He.
    assert (Hr : ends_space r = false).
    { destruct r as [|x r]; [reflexivity|].
      now rewrite ends_space_cons in He by discriminate. }
    destruct (IH Hr) as (h & t & E & Ht & _).
    destruct (split_out c r Hc) as (h' & t' & E' & Es).
    rewrite E in E'. injection E' as <- <-.
    exists (c :: h), t. repeat split; auto.
  - intros He.
    assert (Hne : s <> []).
    { intros ->. rewrite app_nil_r in He.
      now rewrite (ends_space_all _ _ Hw) in He. }
    rewrite ends_space_app in He by assumption.
    destruct (IH He) as (h & t & E & Ht & Hh).
    exists [], (h :: t). split; [rewrite split_run by assumption; now rewrite E|].
    split.
    + simpl. rewrite (Hh Hs Hne). now rewrite Ht.
    + intros H0. simpl in Hw. apply andb_true_iff in Hw as [Hc _].
      simpl in H0. now rewrite Hc in H0.
Qed.

Lemma starts_space_run (s : str) :
  starts_space s = false -> run_length is_space s = 0.
Proof. destruct s as [|c r]; simpl; [reflexivity|]. now intros ->. Qed.

(** [text.split(/\s+/).length] of a trimmed, non-empty text is its number
    of tokens. *)
Lemma split_trimmed_length (s : str) :
  starts_space s = false -> ends_space s = false -> s <> [] ->
  length (split m_spaces s) = count_words s.
Proof.
  intros Hs He Hne. rewrite <- count_words_split.
  destruct (split_trimmed_pieces s He) as (h & t & E & Ht & Hh).
  rewrite E. simpl. rewrite (Hh (starts_space_run s Hs) Hne). simpl.
  now rewrite Ht.
Qed.

Lemma truthy_nonempty (s : str) : truthy s = true <-> s <> [].
Proof. destruct s; simpl; split; congruence. Qed.

Lemma words_of_trim (s : str) :
  truthy (trim s) = true ->
  length (split m_spaces (trim s)) = count_words s.
Proof.
  intros H. rewrite split_trimmed_length.
  - apply count_words_trim.
  - apply starts_space_trim.
  - apply ends_space_trim.
  - now apply truthy_nonempty.
Qed.

End SpaceFacts.

(* ===================================================================== *)
(** * Statistics: the text, the counts, the health score                  *)
(* ===================================================================== *)

Section StatsFacts.

Lemma through_gt_none (r : str) :
  through_gt r = None <-> existsb (is_chr ">") r = false.
Proof.
  induction r as [|c r IH]; simpl; [tauto|].
  destruct (is_chr ">" c); simpl.
  - split; discriminate.
  - destruct (through_gt r).
    + split; [discriminate|]. intros H. apply IH in H. discriminate.
    + split; [intros _; now apply IH|reflexivity].
Qed.

Lemma through_gt_some (r : str) (n : nat) :
  through_gt r = Some n ->
  exists x r', r = x ++ ">" :: r' /\ n = S (length x)
               /\ existsb (is_chr ">") x = false.
Proof.
  revert n. induction r as [|c r IH]; intros n; simpl; [discriminate|].
  destruct (is_chr ">" c) eqn:Hc.
  - intros [= <-]. apply is_chr_true in Hc. subst c.
    now exists [], r.
  - destruct (through_gt r) as [k|]; [|discriminate].
    intros [= <-]. destruct (IH k eq_refl) as (x & r' & -> & -> & Hx).
    exists (c :: x), r'. repeat split. simpl. now rewrite Hc.
Qed.

Lemma retag_inside (rep x r' : str) :
  existsb (is_chr ">") x = false ->
  retag rep true (x ++ ">" :: r') = retag rep false r'.
Proof.
  induction x as [|c x IH]; simpl; [reflexivity|].
  intros H. apply orb_false_iff in H as [Hc Hx]. rewrite Hc. auto.
Qed.

Lemma m_markup_not_lt (c : ascii) (r : str) :
  is_chr "<" c = false -> m_markup (c :: r) = None.
Proof.
  intros H. apply is_chr_false in H.
  destruct c as [[] [] [] [] [] [] [] []]; try reflexivity. now elim H.
Qed.

(** [content.replace(/<[^>]*>/g, rep)] replaces the tags. *)
Lemma replace_markup (rep s : str) :
  replace_all m_markup rep s = retag rep false s.
Proof.
  remember (length s) as n eqn:Hn. revert s Hn.
  induction n as [n IH] using lt_wf_ind. intros s Hn.
  destruct s as [|c r]; [reflexivity|].
  simpl retag. destruct (is_chr "<" c) eqn:Hc.
  - apply is_chr_true in Hc. subst c.
    destruct (through_gt r) as [k|] eqn:Hk.
    + destruct (through_gt_some r k Hk) as (x & r' & -> & -> & Hx).
      assert (Hex : existsb (is_chr ">") (x ++ ">" :: r') = true).
      { rewrite existsb_app. simpl. apply orb_true_r. }
      rewrite Hex. simpl andb. cbv iota.
      rewrite retag_inside by exact Hx.
      replace (x ++ ">" :: r') with ((x ++ [">"]) ++ r')
        by (now rewrite <- app_assoc).
      rewrite replace_all_hit.
      * f_equal. apply (IH (length r')); [|reflexivity].
        subst n. simpl. rewrite !length_app. simpl. lia.
      * unfold m_markup. rewrite <- app_assoc. simpl app. rewrite Hk.
        rewrite length_app. simpl. do 2 f_equal. lia.
    + assert (Hex : existsb (is_chr ">") r = false) by now apply through_gt_none.
      rewrite Hex. simpl andb. cbv iota.
      rewrite replace_all_miss.
      * f_equal. apply (IH (length r)); [subst n; simpl; lia|reflexivity].
      * unfold m_markup. now rewrite Hk.
  - simpl andb. cbv iota. rewrite replace_all_miss.
    + f_equal. apply (IH (length r)); [subst n; simpl; lia|reflexivity].
    + now apply m_markup_not_lt.
Qed.

Lemma collapse_run (c : ascii) (w s : str) :
  forallb is_space (c :: w) = true -> run_length is_space s = 0 ->
  collapse ((c :: w) ++ s) = " " :: collapse s.
Proof.
  revert c. induction w as [|x w IH]; intros c Hw Hs.
  - simpl in *. rewrite andb_true_r in Hw. rewrite Hw.
    assert (E : starts_space s = false).
    { destruct s as [|y s]; [reflexivity|]. simpl in *.
      destruct (is_space y); [discriminate|reflexivity]. }
    now rewrite E.
  - simpl in Hw. apply andb_true_iff in Hw as [Hc Hw].
    change ((c :: x :: w) ++ s) with (c :: (x :: w) ++ s).
    cbn [collapse]. rewrite Hc.
    assert (E : starts_space ((x :: w) ++ s) = true).
    { simpl. now apply andb_true_iff in Hw. }
    rewrite E. now apply IH.
Qed.

(** [text.replace(/\s+/g, " ")] collapses the white space. *)
Lemma replace_spaces (s : str) :
  replace_all m_spaces (ls " ") s = collapse s.
Proof.
  unfold replace_all, replace_with, m_spaces.
  induction s as [|c r Hc IH|c w s Hw Hs IH] using (run_ind is_space).
  - reflexivity.
  - rewrite scan_run_out by assumption. simpl. rewrite Hc. now f_equal.
  - rewrite scan_run_hit by (try assumption; simpl; lia).
    rewrite collapse_run by assumption. simpl. now f_equal.
Qed.

Lemma statsText_plain_text (content : str) :
  statsText content = plain_text (ls " ") content.
Proof.
  unfold statsText, plain_text. now rewrite replace_markup, replace_spaces.
Qed.

(** The [words] of [updateEditorStats] are the tokens of its text. *)
Lemma stats_words (text : str) :
  starts_space text = false -> ends_space text = false ->
  (if truthy text then length (split m_spaces text) else 0) = count_words text.
Proof.
  intros Hs He. destruct text as [|c r]; [reflexivity|].
  cbn [truthy]. now apply split_trimmed_length.
Qed.

Lemma ceil_div_bounds (a b : nat) :
  0 < b -> a <= b * ceil_div a b /\ b * ceil_div a b < a + b.
Proof.
  intros Hb. unfold ceil_div.
  pose proof (Nat.div_mod_eq (a + (b - 1)) b) as E.
  pose proof (Nat.mod_upper_bound (a + (b - 1)) b) as U.
  lia.
Qed.

Lemma test_ext (m m' : matcher) (s : str) :
  (forall u, match m u with Some _ => true | None => false end
             = match m' u with Some _ => true | None => false end) ->
  test m s = test m' s.
Proof.
  intros H. induction s as [|c r IH]; simpl.
  - specialize (H []). destruct (m []), (m' []); congruence.
  - specialize (H (c :: r)). destruct (m (c :: r)), (m' (c :: r)); congruence.
Qed.

Lemma test_alt (m1 m2 : matcher) (s : str) :
  test (m_alt m1 m2) s = test m1 s || test m2 s.
Proof.
  induction s as [|c r IH]; simpl; unfold m_alt at 1.
  - destruct (m1 []), (m2 []); reflexivity.
  - destruct (m1 (c :: r)), (m2 (c :: r)); simpl; auto.
    now rewrite orb_true_r.
Qed.

Lemma m_heading_alt (u : str) :
  match m_heading u with Some _ => true | None => false end
  = match m_alt (m_lit (ls "<h1")) (m_alt (m_lit (ls "<h2")) (m_lit (ls "<h3"))) u
    with Some _ => true | None => false end.
Proof.
  destruct u as [|c1 u]; [reflexivity|].
  destruct c1 as [[] [] [] [] [] [] [] []]; try reflexivity.
  destruct u as [|c2 u]; [reflexivity|].
  destruct c2 as [[] [] [] [] [] [] [] []]; try reflexivity.
  destruct u as [|c3 u]; [reflexivity|].
  destruct c3 as [[] [] [] [] [] [] [] []]; reflexivity.
Qed.

Lemma test_heading (s : str) :
  test m_heading s =
  includes (ls "<h1") s || includes (ls "<h2") s || includes (ls "<h3") s.
Proof.
  rewrite (test_ext _ _ s m_heading_alt). rewrite !test_alt.
  unfold includes. now rewrite orb_assoc.
Qed.

(** The code computes the score over the tokens of the raw content. *)
Lemma calcContentHealth_raw (content : str) :
  calcContentHealth content = health_score (count_words content) content.
Proof.
  unfold calcContentHealth, health_score.
  rewrite truthy_trim. destruct (existsb not_space content) eqn:Hne;
    [|reflexivity].
  cbn [negb]. rewrite words_of_trim by now rewrite truthy_trim.
  rewrite match_count_runs, test_heading, !test_alt.
  fold (includes (ls "<ul") content) (includes (ls "<ol") content)
       (includes (ls "<code") content) (includes (ls "<pre") content).
  set (w := count_words content).
  set (k := count_runs is_sentence_mark content).
  replace (match k with 0 => 1 | S n0 => S n0 end) with (Nat.max 1 k)
    by (destruct k; simpl; lia).
  unfold bonus.
  destruct (100 <=? w), (300 <=? w), (w <? 25 * Nat.max 1 k),
    (includes (ls "<h1") content || includes (ls "<h2") content
     || includes (ls "<h3") content),
    (includes (ls "<ul") content || includes (ls "<ol") content),
    (includes (ls "<code") content || includes (ls "<pre") content);
    reflexivity.
Qed.

End StatsFacts.

(* ===================================================================== *)
(** * plainTextToHtml: escaping and the generated markers                 *)
(* ===================================================================== *)

Section EscapeFacts.

Lemma scan_class (q : ascii -> bool) (s : str) :
  scan (m_class q) s = map (fun c => if q c then Hit [c] else Text c) s.
Proof.
  induction s as [|c r IH]; [reflexivity|].
  rewrite scan_cons. unfold m_class at 1. simpl map.
  destruct (q c); simpl; now rewrite <- IH.
Qed.

Lemma replace_with_class (q : ascii -> bool) (f : str -> str) (s : str) :
  replace_with (m_class q) f s = flat_map (fun c => if q c then f [c] else [c]) s.
Proof.
  unfold replace_with. rewrite scan_class.
  induction s as [|c r IH]; [reflexivity|].
  simpl. rewrite IH. destruct (q c); reflexivity.
Qed.

Lemma entity_lookup (c : ascii) :
  (if is_special c
   then match assoc htmlEscape [c] with Some e => e | None => [c] end
   else [c]) = entity c.
Proof. destruct c as [[] [] [] [] [] [] [] []]; reflexivity. Qed.

(** The escaping step maps every character to its entity form. *)
Lemma escape_entities (t : str) : escape t = flat_map entity t.
Proof.
  unfold escape. rewrite replace_with_class.
  apply flat_map_ext. intros c. apply entity_lookup.
Qed.

Lemma entity_inert (c : ascii) : forallb inert (entity c) = true.
Proof. destruct c as [[] [] [] [] [] [] [] []]; reflexivity. Qed.

Lemma escape_inert (t : str) : forallb inert (escape t) = true.
Proof.
  rewrite escape_entities. induction t as [|c r IH]; [reflexivity|].
  simpl. rewrite forallb_app, IH. now rewrite entity_inert.
Qed.

Lemma inert_not_lt (c : ascii) : inert c = true -> is_chr "<" c = false.
Proof.
  unfold inert. destruct (is_chr "<" c); [discriminate|reflexivity].
Qed.

Lemma entity_plain (c : ascii) : is_special c = false -> entity c = [c].
Proof. destruct c as [[] [] [] [] [] [] [] []]; try reflexivity; discriminate. Qed.

Lemma escape_plain (t : str) :
  forallb (fun c => negb (is_special c)) t = true -> escape t = t.
Proof.
  rewrite escape_entities. induction t as [|c r IH]; [reflexivity|].
  simpl. intros H. apply andb_true_iff in H as [Hc Hr].
  rewrite entity_plain by now destruct (is_special c).
  simpl. f_equal. auto.
Qed.

(** The characters outside the matches of a scan are characters of the
    subject. *)
Lemma scan_from_text (m : matcher) (c : ascii) (s : str) (k : nat) :
  In (Text c) (scan_from m k s) -> In c s.
Proof.
  revert k. induction s as [|x r IH]; intros k; simpl; [tauto|].
  destruct k as [|k].
  - destruct (m (x :: r)) as [[|n]|]; simpl.
    + intros [[= ->] | H]; [now left|right; eauto].
    + intros [H | H]; [discriminate|right; eauto].
    + intros [[= ->] | H]; [now left|right; eauto].
  - intros H. right. eauto.
Qed.

Lemma between_text (ps : list piece) (x : str) (c : ascii) :
  In x (between ps) -> In c x -> In (Text c) ps.
Proof.
  revert x. induction ps as [|q ps IH]; intros x; simpl.
  - intros [<- | []]. intros [].
  - destruct q as [d|y].
    + destruct (between ps) as [|h t] eqn:E.
      * intros [<- | []]. intros [-> | []]. now left.
      * intros [<- | Hx] Hc.
        -- destruct Hc as [-> | Hc]; [now left|].
           right. apply (IH h); [now left|exact Hc].
        -- right. apply (IH x); [now right|exact Hc].
    + intros [<- | Hx] Hc; [destruct Hc|].
      right. now apply (IH x).
Qed.

Lemma split_chars (m : matcher) (s x : str) (c : ascii) :
  In x (split m s) -> In c x -> In c s.
Proof.
  intros Hx Hc. apply (scan_from_text m c s 0).
  now apply (between_text _ x).
Qed.

Lemma starts_by_app (eq : ascii -> ascii -> bool) (pat r b : str) :
  starts_by eq pat r = true -> starts_by eq pat (r ++ b) = true.
Proof.
  revert r. induction pat as [|a pat IH]; intros r; simpl; [reflexivity|].
  destruct r as [|c r]; simpl; [discriminate|].
  intros H. apply andb_true_iff in H as [H1 H2]. rewrite H1. simpl. auto.
Qed.

Lemma lt_in_markers_app (a b : str) :
  lt_in_markers a = true -> lt_in_markers b = true ->
  lt_in_markers (a ++ b) = true.
Proof.
  intros Ha Hb. induction a as [|c a IH]; [exact Hb|].
  simpl in *. apply andb_true_iff in Ha as [Hc Ha].
  rewrite (IH Ha), andb_true_r.
  destruct (is_chr "<" c); [|reflexivity].
  unfold startsWith in *.
  apply orb_true_iff in Hc as [Hc | Hc];
    [apply orb_true_iff in Hc as [Hc | Hc]|];
    rewrite (starts_by_app _ _ _ b Hc); rewrite ?orb_true_r; reflexivity.
Qed.

Lemma replace_lit1 (a : ascii) (rep s : str) :
  replace_all (m_lit [a]) rep s
  = flat_map (fun c => if is_chr a c then rep else [c]) s.
Proof.
  unfold replace_all, replace_with.
  induction s as [|c r IH]; [reflexivity|].
  rewrite scan_lit1. simpl. rewrite IH. now destruct (is_chr a c).
Qed.

(** A paragraph body: the text with [<br>] for every newline. *)
Lemma breaks_markers (p : str) :
  (forall c, In c p -> is_chr "<" c = false) ->
  lt_in_markers (replace_all (m_lit [LF]) (ls "<br>") p) = true.
Proof.
  rewrite replace_lit1. induction p as [|c r IH]; intros H; [reflexivity|].
  simpl flat_map. apply lt_in_markers_app.
  - destruct (is_chr LF c); [reflexivity|].
    simpl. rewrite (H c) by now left. reflexivity.
  - apply IH. intros x Hx. apply H. now right.
Qed.

Lemma paragraph_markers (p : str) :
  (forall c, In c p -> is_chr "<" c = false) ->
  lt_in_markers (paragraph p) = true.
Proof.
  intros H. unfold paragraph.
  apply (lt_in_markers_app (ls "<p>")); [reflexivity|].
  apply lt_in_markers_app; [|reflexivity].
  destruct (truthy _); [now apply breaks_markers|reflexivity].
Qed.

Lemma plainTextToHtml_markers (t : str) :
  lt_in_markers (plainTextToHtml t) = true.
Proof.
  unfold plainTextToHtml. destruct (truthy t); [|reflexivity].
  cbn [negb]. unfold join.
  assert (H : forall x, In x (split (m_run is_LF 2) (escape t)) ->
                        forall c, In c x -> is_chr "<" c = false).
  { intros x Hx c Hc. apply inert_not_lt.
    pose proof (escape_inert t) as Hall. rewrite forallb_forall in Hall.
    apply Hall. now apply (split_chars (m_run is_LF 2) _ x). }
  induction (split (m_run is_LF 2) (escape t)) as [|x l IH]; [reflexivity|].
  simpl. apply lt_in_markers_app.
  - apply paragraph_markers. apply H. now left.
  - apply IH. intros y Hy. apply H. now right.
Qed.

End EscapeFacts.

(* ===================================================================== *)
(** * The round trip through plainTextToHtml and htmlToPlainText          *)
(* ===================================================================== *)

Section RoundTripFacts.

(** A matcher that fails at every position leaves the subject alone. *)
Lemma replace_all_quiet (m : matcher) (rep s : str) :
  (forall n, m (skipn n s) = None) -> replace_all m rep s = s.
Proof.
  induction s as [|c r IH]; intros H; [reflexivity|].
  rewrite replace_all_miss.
  - f_equal. apply IH. intros n. exact (H (S n)).
  - exact (H 0).
Qed.

Lemma block_needs_lt : triggered_by (fun c => is_chr "<" c) m_block.
Proof.
  intros c r H. apply is_chr_false in H.
  destruct c as [[] [] [] [] [] [] [] []]; try reflexivity. now elim H.
Qed.

Lemma br_needs_lt : triggered_by (fun c => is_chr "<" c) m_br.
Proof.
  intros c r H. apply is_chr_false in H.
  destruct c as [[] [] [] [] [] [] [] []]; try reflexivity. now elim H.
Qed.

Lemma tag_needs_lt : triggered_by (fun c => is_chr "<" c) m_tag.
Proof.
  intros c r H. apply is_chr_false in H.
  destruct c as [[] [] [] [] [] [] [] []]; try reflexivity. now elim H.
Qed.

(** A literal pattern needs its first character. *)
Lemma lit_needs_head (a : ascii) (pat : str) :
  triggered_by (fun c => is_chr a c) (m_lit (a :: pat)).
Proof.
  intros c r H. unfold m_lit, startsWith. simpl.
  unfold is_chr in H. now rewrite H.
Qed.

Lemma alt_needs (q : ascii -> bool) (m1 m2 : matcher) :
  triggered_by q m1 -> triggered_by q m2 -> triggered_by q (m_alt m1 m2).
Proof.
  intros H1 H2 c r H. unfold m_alt. now rewrite (H1 c r H), (H2 c r H).
Qed.

Lemma with_breaks_cons (c : ascii) (t : str) :
  with_breaks (c :: t) = (if is_chr LF c then ls "<br>" else [c]) ++ with_breaks t.
Proof. reflexivity. Qed.

Lemma block_br (s : str) :
  replace_all m_block [LF] (ls "<br>" ++ s) = LF :: replace_all m_block [LF] s.
Proof. apply (replace_all_hit m_block [LF] "<" (ls "br>") s). reflexivity. Qed.

Lemma block_p (s : str) :
  replace_all m_block [LF] (ls "<p>" ++ s) = LF :: replace_all m_block [LF] s.
Proof. apply (replace_all_hit m_block [LF] "<" (ls "p>") s). reflexivity. Qed.

Lemma block_breaks (t rest : str) :
  (forall c, In c t -> is_chr "<" c = false) ->
  replace_all m_block [LF] (with_breaks t ++ rest)
  = t ++ replace_all m_block [LF] rest.
Proof.
  induction t as [|c t IH]; intros H; [reflexivity|].
  assert (Ht : forall x, In x t -> is_chr "<" x = false)
    by (intros x Hx; apply H; now right).
  rewrite with_breaks_cons, <- app_assoc.
  destruct (is_chr LF c) eqn:Hc.
  - apply is_chr_true in Hc. subst c.
    rewrite block_br, (IH Ht). reflexivity.
  - change ([c] ++ with_breaks t ++ rest) with (c :: with_breaks t ++ rest).
    rewrite replace_all_miss.
    + rewrite (IH Ht). reflexivity.
    + apply block_needs_lt. apply H. now left.
Qed.

Lemma block_paragraph (t : str) :
  (forall c, In c t -> is_chr "<" c = false) ->
  replace_all m_block [LF] (ls "<p>" ++ with_breaks t ++ ls "</p>")
  = LF :: t ++ [LF].
Proof.
  intros H. rewrite block_p, block_breaks by exact H. reflexivity.
Qed.

Lemma no_space_at_line_end_tail (c : ascii) (r : str) :
  no_space_at_line_end (c :: r) = true -> no_space_at_line_end r = true.
Proof. simpl. intros H. now apply andb_true_iff in H. Qed.

Lemma no_space_at_line_end_skipn (n : nat) (s : str) :
  no_space_at_line_end s = true -> no_space_at_line_end (skipn n s) = true.
Proof.
  revert s. induction n as [|n IH]; intros s H; [exact H|].
  destruct s as [|c r]; [exact H|].
  simpl. apply IH. now apply no_space_at_line_end_tail in H.
Qed.

Lemma is_LF_space (c : ascii) : is_LF c = true -> is_space c = true.
Proof. unfold is_LF. intros H. apply is_chr_true in H. now subst c. Qed.

Lemma is_LF_terminator (c : ascii) :
  is_LF c = true -> is_line_terminator c = true.
Proof. unfold is_LF. intros H. apply is_chr_true in H. now subst c. Qed.

(** Without white space at a line end there are no two newlines in a row. *)
Lemma newline_runs_short (s : str) :
  no_space_at_line_end s = true -> run_length is_LF s <= 1.
Proof.
  destruct s as [|c r]; simpl; [lia|].
  destruct (is_LF c) eqn:Hc; [|lia].
  destruct r as [|x r]; simpl; [lia|].
  destruct (is_LF x) eqn:Hx; [|lia].
  rewrite (is_LF_space c Hc), (is_LF_terminator x Hx). discriminate.
Qed.

Lemma scan_all_text (m : matcher) (s : str) :
  (forall n, m (skipn n s) = None) -> scan m s = map Text s.
Proof.
  induction s as [|c r IH]; intros H; [reflexivity|].
  rewrite scan_miss by exact (H 0). simpl. f_equal.
  apply IH. intros n. exact (H (S n)).
Qed.

Lemma between_all_text (s : str) : between (map Text s) = [s].
Proof.
  induction s as [|c r IH]; [reflexivity|]. simpl. now rewrite IH.
Qed.

(** One paragraph: there is no blank-line boundary to split at. *)
Lemma split_one_paragraph (t : str) :
  no_space_at_line_end t = true -> split (m_run is_LF 2) t = [t].
Proof.
  intros H. unfold split. rewrite scan_all_text; [apply between_all_text|].
  intros n. unfold m_run.
  pose proof (newline_runs_short _ (no_space_at_line_end_skipn n t H)) as L.
  destruct (2 <=? run_length is_LF (skipn n t)) eqn:E; [|reflexivity].
  apply Nat.leb_le in E. lia.
Qed.

Lemma with_breaks_truthy (t : str) : truthy (with_breaks t) = truthy t.
Proof.
  destruct t as [|c r]; [reflexivity|].
  unfold with_breaks. simpl. now destruct (is_chr LF c).
Qed.

(** The markup of a simple text: one paragraph with line breaks. *)
Lemma plainTextToHtml_simple (c : ascii) (r : str) :
  plain_simple (c :: r) = true ->
  plainTextToHtml (c :: r) = ls "<p>" ++ with_breaks (c :: r) ++ ls "</p>".
Proof.
  intros H. unfold plain_simple in H.
  apply andb_true_iff in H as [H Hend]. apply andb_true_iff in H as [Hsp _].
  unfold plainTextToHtml. cbn [truthy negb].
  rewrite (escape_plain _ Hsp), (split_one_paragraph _ Hend).
  unfold join, paragraph. simpl concat. rewrite app_nil_r.
  rewrite replace_lit1. fold (with_breaks (c :: r)).
  now rewrite with_breaks_truthy.
Qed.

Lemma not_special_lt (c : ascii) : is_special c = false -> is_chr "<" c = false.
Proof.
  unfold is_special. destruct (is_chr "<" c); [|reflexivity].
  now rewrite orb_true_r.
Qed.

Lemma not_special_amp (c : ascii) : is_special c = false -> is_chr "&" c = false.
Proof. unfold is_special. now destruct (is_chr "&" c). Qed.

(** No white space at a line end: the scan for trailing white space finds
    nothing before the final newline. *)
Lemma trailing_none (u : str) :
  u <> [] -> no_space_at_line_end u = true ->
  m_trailing_space (u ++ [LF]) = None.
Proof.
  induction u as [|c u IH]; intros Hne H; [congruence|].
  simpl app. cbn [m_trailing_space].
  destruct (is_space c) eqn:Hc; [|reflexivity].
  simpl in H. rewrite Hc in H. apply andb_true_iff in H as [Hend Hu].
  destruct u as [|x u]; [discriminate|].
  rewrite IH by (try discriminate; exact Hu).
  simpl in Hend. simpl. destruct (is_line_terminator x); [discriminate|reflexivity].
Qed.

Lemma trailing_strip (u : str) :
  no_space_at_line_end u = true ->
  replace_all m_trailing_space [] (u ++ [LF]) = u.
Proof.
  induction u as [|c u IH]; intros H; [reflexivity|].
  simpl app. rewrite replace_all_miss.
  - f_equal. apply IH. now apply no_space_at_line_end_tail in H.
  - change (c :: u ++ [LF]) with ((c :: u) ++ [LF]).
    apply trailing_none; [discriminate|exact H].
Qed.

Lemma no_space_at_line_end_last (s : str) :
  no_space_at_line_end s = true -> ends_space s = false.
Proof.
  induction s as [|c r IH]; [reflexivity|].
  intros H. destruct r as [|x r].
  - simpl in H. unfold ends_space. simpl.
    destruct (is_space c); [discriminate|reflexivity].
  - rewrite ends_space_cons by discriminate.
    apply IH. now apply no_space_at_line_end_tail in H.
Qed.

Lemma run_length_snoc_le (q : ascii -> bool) (s : str) (c : ascii) :
  run_length q (s ++ [c]) <= S (run_length q s).
Proof.
  induction s as [|x s IH]; simpl.
  - destruct (q c); lia.
  - destruct (q x); lia.
Qed.

Lemma skipn_snoc (n : nat) (s : str) (c : ascii) :
  skipn n (s ++ [c]) = skipn n s ++ [c] \/ skipn n (s ++ [c]) = [].
Proof.
  revert s. induction n as [|n IH]; intros s; [now left|].
  destruct s as [|x s]; simpl.
  - right. now destruct n.
  - apply IH.
Qed.

(** Between the two newlines that replace [<p>] and [</p>] no run of
    newlines reaches three. *)
Lemma no_long_newline_run (t : str) (n : nat) :
  no_space_at_line_end t = true ->
  m_run is_LF 3 (skipn n (LF :: t ++ [LF])) = None.
Proof.
  intros H. unfold m_run.
  assert (L : run_length is_LF (skipn n (LF :: t ++ [LF])) <= 2).
  { destruct n as [|n].
    - change (skipn 0 (LF :: t ++ [LF])) with (LF :: t ++ [LF]).
      destruct t as [|x t]; [vm_compute; lia|].
      change (LF :: (x :: t) ++ [LF]) with (LF :: x :: t ++ [LF]).
      cbn [run_length]. destruct (is_LF LF); [|lia].
      destruct (is_LF x) eqn:Hx; [|lia].
      simpl in H. rewrite (is_LF_space x Hx) in H.
      destruct t as [|y t]; [discriminate|].
      simpl in H. simpl app. cbn [run_length].
      destruct (is_LF y) eqn:Hy; [|lia].
      now rewrite (is_LF_terminator y Hy) in H.
    - simpl. destruct (skipn_snoc n t LF) as [E | E]; rewrite E; [|simpl; lia].
      pose proof (run_length_snoc_le is_LF (skipn n t) LF).
      pose proof (newline_runs_short _ (no_space_at_line_end_skipn n t H)). lia. }
  destruct (3 <=? _) eqn:E; [|reflexivity].
  apply Nat.leb_le in E. lia.
Qed.

End RoundTripFacts.

Section RoundTrip.

Lemma terminator_is_space (c : ascii) :
  is_line_terminator c = true -> is_space c = true.
Proof. destruct c as [[] [] [] [] [] [] [] []]; try reflexivity; discriminate. Qed.

Lemma trailing_strip_framed (t : str) :
  t <> [] -> starts_space t = false -> no_space_at_line_end t = true ->
  replace_all m_trailing_space [] (LF :: t ++ [LF]) = LF :: t.
Proof.
  intros Hne Hs He. rewrite replace_all_miss.
  - f_equal. now apply trailing_strip.
  - cbn [m_trailing_space].
    change (is_space LF) with true. cbv iota.
    rewrite (trailing_none t Hne He).
    destruct t as [|c r]; [congruence|].
    simpl in Hs. simpl.
    destruct (is_line_terminator c) eqn:Hc; [|reflexivity].
    apply terminator_is_space in Hc. congruence.
Qed.

Lemma trim_framed (t : str) :
  starts_space t = false -> ends_space t = false -> trim (LF :: t) = t.
Proof.
  intros Hs He. unfold trim.
  change (trimStart (LF :: t)) with (trimStart t).
  now rewrite (trimStart_fixed t Hs), (trimEnd_fixed t He).
Qed.

(** The pipeline of [htmlToPlainText] on the markup of a simple text. *)
Lemma round_trip_simple (t : str) :
  plain_simple t = true -> htmlToPlainText (plainTextToHtml t) = t.
Proof.
  destruct t as [|c r]; [reflexivity|].
  intros H. rewrite (plainTextToHtml_simple c r H).
  set (t := c :: r) in *.
  unfold plain_simple in H.
  apply andb_true_iff in H as [H Hend]. apply andb_true_iff in H as [Hsp Hst].
  apply negb_true_iff in Hst.
  assert (Hspecial : forall x, In x (LF :: t ++ [LF]) -> is_special x = false).
  { intros x [<- | Hx]; [reflexivity|].
    apply in_app_or in Hx as [Hx | [<- | []]]; [|reflexivity].
    rewrite forallb_forall in Hsp. apply negb_true_iff. now apply Hsp. }
  assert (Hlt : forall x, In x (LF :: t ++ [LF]) -> is_chr "<" x = false)
    by (intros x Hx; now apply not_special_lt, Hspecial).
  assert (Hamp : forall x, In x (LF :: t ++ [LF]) -> is_chr "&" x = false)
    by (intros x Hx; now apply not_special_amp, Hspecial).
  unfold htmlToPlainText.
  assert (Htr : truthy (trim (ls "<p>" ++ with_breaks t ++ ls "</p>")) = true)
    by (now rewrite truthy_trim).
  rewrite Htr. cbn [negb].
  rewrite block_paragraph
    by (intros x Hx; apply Hlt; right; apply in_or_app; now left).
  rewrite (replace_all_untouched (fun x => is_chr "<" x) m_br [LF] _
             br_needs_lt Hlt).
  rewrite (replace_all_untouched (fun x => is_chr "<" x) m_tag [] _
             tag_needs_lt Hlt).
  rewrite (replace_all_untouched (fun x => is_chr "&" x)
             (m_lit (ls "&nbsp;")) (ls " ") _
             (lit_needs_head "&" (ls "nbsp;")) Hamp).
  rewrite (replace_all_untouched (fun x => is_chr "&" x)
             (m_lit (ls "&amp;")) (ls "&") _
             (lit_needs_head "&" (ls "amp;")) Hamp).
  rewrite (replace_all_untouched (fun x => is_chr "&" x)
             (m_lit (ls "&lt;")) (ls "<") _
             (lit_needs_head "&" (ls "lt;")) Hamp).
  rewrite (replace_all_untouched (fun x => is_chr "&" x)
             (m_lit (ls "&gt;")) (ls ">") _
             (lit_needs_head "&" (ls "gt;")) Hamp).
  rewrite (replace_all_untouched (fun x => is_chr "&" x)
             (m_lit (ls "&quot;")) [DQ] _
             (lit_needs_head "&" (ls "quot;")) Hamp).
  rewrite (replace_all_untouched (fun x => is_chr "&" x)
             (m_alt (m_lit (ls "&#39;")) (m_lit (ls "&apos;"))) (ls "'") _
             (alt_needs _ _ _ (lit_needs_head "&" (ls "#39;"))
                              (lit_needs_head "&" (ls "apos;"))) Hamp).
  rewrite (replace_all_quiet (m_run is_LF 3) [LF; LF] _
             (fun n => no_long_newline_run t n Hend)).
  rewrite (trailing_strip_framed t) by (try assumption; discriminate).
  apply trim_framed; [assumption|].
  now apply no_space_at_line_end_last.
Qed.

(** Without white space at a line end there is no blank line: the simple
    texts are among the texts the specification speaks of. *)
Lemma no_blank_line (t : str) :
  no_space_at_line_end t = true -> includes [LF; LF] t = false.
Proof.
  unfold includes. induction t as [|c r IH]; intros H; [reflexivity|].
  cbn [test].
  assert (E : m_lit [LF; LF] (c :: r) = None).
  { unfold m_lit, startsWith. cbn [starts_by].
    destruct (Ascii.eqb LF c) eqn:Hc; [|reflexivity].
    destruct r as [|x r]; [reflexivity|]. cbn [starts_by andb].
    destruct (Ascii.eqb LF x) eqn:Hx; [|reflexivity].
    apply Ascii.eqb_eq in Hc, Hx. subst c x. discriminate H. }
  rewrite E. apply IH. now apply no_space_at_line_end_tail in H.
Qed.

Lemma plain_simple_as_worded (t : str) :
  plain_simple t = true -> plain_as_worded t = true.
Proof.
  unfold plain_simple, plain_as_worded. intros H.
  apply andb_true_iff in H as [H Hend]. apply andb_true_iff in H as [Hsp _].
  now rewrite Hsp, (no_blank_line t Hend).
Qed.

(** White space only, or nothing: the plain text is empty. *)
Lemma htmlToPlainText_blank (html : str) :
  existsb not_space html = false -> htmlToPlainText html = [].
Proof.
  intros H. unfold htmlToPlainText. now rewrite truthy_trim, H.
Qed.

End RoundTrip.

(* ===================================================================== *)
(** * The document table                                                  *)
(* ===================================================================== *)

Section TableFacts.

Lemma lookup_In (docs : table) (k : str) (d : Document) :
  lookup docs k = Some d -> In (k, d) docs.
Proof.
  induction docs as [|[k' d'] r IH]; simpl; [discriminate|].
  destruct (str_eqb k' k) eqn:E.
  - intros [= ->]. apply str_eqb_eq in E. subst. now left.
  - intros H. right. auto.
Qed.

Lemma lookup_keys (docs : table) (k : str) :
  lookup docs k = None <-> ~ In k (keys docs).
Proof.
  induction docs as [|[k' d'] r IH]; simpl; [tauto|].
  destruct (str_eqb k' k) eqn:E.
  - apply str_eqb_eq in E. subst. split; [discriminate|]. intros H. elim H. now left.
  - apply str_eqb_neq in E. rewrite IH. tauto.
Qed.

Lemma In_lookup (docs : table) (k : str) (d : Document) :
  NoDup (keys docs) -> In (k, d) docs -> lookup docs k = Some d.
Proof.
  induction docs as [|[k' d'] r IH]; simpl; [tauto|].
  intros Hnd [[= -> ->] | Hin].
  - now rewrite str_eqb_refl.
  - inversion Hnd as [|? ? Hk' Hr]; subst.
    destruct (str_eqb k' k) eqn:E; [|auto].
    apply str_eqb_eq in E. subst. elim Hk'.
    apply in_map_iff. now exists (k, d).
Qed.

Lemma keys_filter (P : str -> bool) (docs : table) :
  keys (filter (fun kv => P (fst kv)) docs) = filter P (keys docs).
Proof.
  induction docs as [|[k d] r IH]; simpl; [reflexivity|].
  destruct (P k); simpl; now rewrite IH.
Qed.

Lemma lookup_filter (P : str -> bool) (docs : table) (k : str) :
  lookup (filter (fun kv => P (fst kv)) docs) k
  = if P k then lookup docs k else None.
Proof.
  induction docs as [|[k' d] r IH]; simpl; [now destruct (P k)|].
  destruct (P k') eqn:Hk'; simpl; destruct (str_eqb k' k) eqn:E; auto.
  - apply str_eqb_eq in E. subst. now rewrite Hk'.
  - apply str_eqb_eq in E. subst. now rewrite Hk' in *.
Qed.

Lemma filter_twice {A} (P Q : A -> bool) (l : list A) :
  filter Q (filter P l) = filter (fun a => P a && Q a) l.
Proof.
  induction l as [|a l IH]; simpl; [reflexivity|].
  destruct (P a); simpl; [|exact IH]. destruct (Q a); now rewrite IH.
Qed.

Lemma well_formed_filter (P : str -> bool) (docs : table) :
  well_formed docs -> well_formed (filter (fun kv => P (fst kv)) docs).
Proof.
  intros [Hnd Hid]. split.
  - rewrite keys_filter. now apply NoDup_filter.
  - intros k d Hin. apply filter_In in Hin as [Hin _]. now apply Hid.
Qed.

Lemma parent_of_filter (P : str -> bool) (docs : table) (k : str) :
  parent_of (filter (fun kv => P (fst kv)) docs) k
  = if P k then parent_of docs k else None.
Proof. unfold parent_of. rewrite lookup_filter. now destruct (P k). Qed.

Lemma parent_of_key (docs : table) (k p : str) :
  parent_of docs k = Some p -> In k (keys docs).
Proof.
  unfold parent_of. destruct (lookup docs k) as [d|] eqn:E; [|discriminate].
  intros _. apply lookup_In in E. apply in_map_iff. now exists (k, d).
Qed.

Lemma descends_key (docs : table) (k a : str) :
  descends docs k a -> In k (keys docs).
Proof. intros [? ? H | ? ? ? H _]; eapply parent_of_key; eauto. Qed.

Lemma descends_trans (docs : table) (k p a : str) :
  descends docs k p -> descends docs p a -> descends docs k a.
Proof.
  intros H. revert a. induction H as [k p H | k q p H _ IH]; intros a Hpa.
  - eapply descends_step; eauto.
  - eapply descends_step; eauto.
Qed.

(** The last link of a chain. *)
Lemma descends_last (docs : table) (k a : str) :
  descends docs k a <->
  exists c, parent_of docs c = Some a /\ (k = c \/ descends docs k c).
Proof.
  split.
  - intros H. induction H as [k a H | k p a H _ (c & Hc & IH)].
    + exists k. auto.
    + exists c. split; [exact Hc|]. right.
      destruct IH as [-> | IH].
      * now apply descends_child.
      * eapply descends_step; eauto.
  - intros (c & Hc & [-> | H]).
    + now apply descends_child.
    + eapply descends_trans; eauto. now apply descends_child.
Qed.

Lemma descends_filter_sub (P : str -> bool) (docs : table) (k a : str) :
  descends (filter (fun kv => P (fst kv)) docs) k a -> descends docs k a.
Proof.
  intros H. induction H as [k a H | k p a H _ IH].
  - rewrite parent_of_filter in H. destruct (P k); [|discriminate].
    now apply descends_child.
  - rewrite parent_of_filter in H. destruct (P k); [|discriminate].
    eapply descends_step; eauto.
Qed.

(** Removing a set of documents that is closed under descent does not cut
    the chains of the documents that stay. *)
Lemma descends_filter (P : str -> bool) (docs : table) (k a : str) :
  (forall x y, P y = false -> descends docs x y -> P x = false) ->
  P k = true -> descends docs k a ->
  descends (filter (fun kv => P (fst kv)) docs) k a.
Proof.
  intros Hclosed Hk H. induction H as [k a H | k p a H Hpa IH].
  - apply descends_child. rewrite parent_of_filter. now rewrite Hk.
  - assert (Hp : P p = true).
    { destruct (P p) eqn:E; [reflexivity|].
      rewrite (Hclosed k p E (descends_child docs k p H)) in Hk. discriminate. }
    eapply descends_step; [|exact (IH Hp)].
    rewrite parent_of_filter. now rewrite Hk.
Qed.

End TableFacts.

(* ===================================================================== *)
(** * deleteDocument: the cascade                                         *)
(* ===================================================================== *)

Section DeleteFacts.

Variable h : str -> nat.

Lemma measured_filter (P : str -> bool) (docs : table) :
  measured h docs -> measured h (filter (fun kv => P (fst kv)) docs).
Proof.
  intros Hm k p H. rewrite parent_of_filter in H.
  destruct (P k); [auto|discriminate].
Qed.

Lemma parent_is_true (d : Document) (x : str) :
  parent_is d (Some x) = true <-> parentId d = Some (Some x).
Proof.
  unfold parent_is. destruct (parentId d) as [[p|]|]; split; try discriminate.
  - intros H. apply str_eqb_eq in H. now subst.
  - intros [= ->]. apply str_eqb_refl.
Qed.

Lemma children_done_closed (docs : table) (x : str) (done : list Document)
      (a b : str) :
  children_done docs x done b -> descends docs a b ->
  children_done docs x done a.
Proof.
  intros (d & c & Hd & Hp & Hid & Hb) Hab.
  exists d, c. repeat split; auto. right.
  destruct Hb as [-> | Hb]; [exact Hab|].
  eapply descends_trans; eauto.
Qed.

Lemma children_done_snoc_other (docs : table) (x : str)
      (done : list Document) (d : Document) (k : str) :
  parent_is d (Some x) = false ->
  children_done docs x (done ++ [d]) k <-> children_done docs x done k.
Proof.
  intros Hd. split.
  - intros (d' & c & Hin & Hp & Hid & Hk).
    apply in_app_or in Hin as [Hin | [<- | []]]; [|congruence].
    now exists d', c.
  - intros (d' & c & Hin & Hp & Hid & Hk).
    exists d', c. repeat split; auto. apply in_or_app. now left.
Qed.

(** The loop over the snapshot, given the recursive calls do their job. *)
Lemma forEach_children (fuel : nat) (docs : table) (x : str) :
  well_formed docs -> measured h docs -> h x <= fuel ->
  (forall cur c, well_formed cur -> measured h cur -> h c < fuel ->
     exists keep : str -> bool,
       deleteRecursive fuel cur (Some c)
       = Some (filter (fun kv => keep (fst kv)) cur)
       /\ forall k, keep k = false <-> doomed cur c k) ->
  forall todo done P,
    values docs = done ++ todo ->
    (forall k, P k = false <-> children_done docs x done k) ->
    exists P' : str -> bool,
      forEach (fun cur d => if parent_is d (Some x)
                            then deleteRecursive fuel cur (id d)
                            else Some cur)
              todo (filter (fun kv => P (fst kv)) docs)
      = Some (filter (fun kv => P' (fst kv)) docs)
      /\ forall k, P' k = false <-> children_done docs x (done ++ todo) k.
Proof.
  intros Hwf Hm Hx Hrec todo.
  induction todo as [|d todo IH]; intros done P Hsnap HP.
  - exists P. split; [reflexivity|]. now rewrite app_nil_r.
  - assert (Hd : In d (values docs)).
    { rewrite Hsnap. apply in_or_app. right. now left. }
    apply in_map_iff in Hd as ([c d'] & Hsnd & Hin). simpl in Hsnd. subst d'.
    destruct Hwf as [Hnd Hid]. destruct (Hid c d Hin) as [Hidc _].
    assert (Hsnap' : values docs = (done ++ [d]) ++ todo)
      by (now rewrite <- app_assoc).
    replace (done ++ d :: todo) with ((done ++ [d]) ++ todo)
      by (now rewrite <- app_assoc).
    cbn [forEach]. destruct (parent_is d (Some x)) eqn:Hp.
    + assert (Hpc : parent_of docs c = Some x).
      { unfold parent_of. rewrite (In_lookup docs c d Hnd Hin).
        apply parent_is_true in Hp. now rewrite Hp. }
      assert (Hclosed : forall a b, P b = false -> descends docs a b -> P a = false).
      { intros a b Hb Hab. apply HP.
        apply (children_done_closed docs x done a b); [now apply HP|exact Hab]. }
      destruct (Hrec (filter (fun kv => P (fst kv)) docs) c) as (keep & E & Hkeep).
      * now apply well_formed_filter.
      * now apply measured_filter.
      * specialize (Hm c x Hpc). lia.
      * rewrite Hidc, E. rewrite filter_twice.
        apply (IH (done ++ [d]) (fun k => P k && keep k) Hsnap').
        intros k. split.
        -- intros Hk. apply andb_false_iff in Hk as [Hk | Hk].
           ++ apply HP in Hk. destruct Hk as (d' & c' & Hin' & Hp' & Hid' & Hk).
              exists d', c'. repeat split; auto. apply in_or_app. now left.
           ++ apply Hkeep in Hk. exists d, c. repeat split; auto.
              ** apply in_or_app. right. now left.
              ** destruct Hk as [-> | Hk]; [now left|right].
                 now apply descends_filter_sub in Hk.
        -- intros (d' & c' & Hin' & Hp' & Hid' & Hk).
           apply in_app_or in Hin' as [Hin' | [<- | []]].
           ++ apply andb_false_iff. left. apply HP. now exists d', c'.
           ++ assert (c' = c) by congruence. subst c'.
              destruct (P k) eqn:HPk; [|reflexivity]. simpl.
              apply Hkeep. destruct Hk as [-> | Hk]; [now left|right].
              now apply descends_filter.
    + apply (IH (done ++ [d]) P Hsnap').
      intros k. rewrite HP. symmetry. now apply children_done_snoc_other.
Qed.

Lemma children_all (docs : table) (x k : str) :
  well_formed docs ->
  children_done docs x (values docs) k <-> descends docs k x.
Proof.
  intros [Hnd Hid]. rewrite descends_last. split.
  - intros (d & c & Hin & Hp & Hidc & Hk).
    exists c. split; [|exact Hk].
    apply in_map_iff in Hin as ([c' d'] & Hsnd & Hin). simpl in Hsnd. subst d'.
    destruct (Hid c' d Hin) as [Hidc' _].
    assert (c' = c) by congruence. subst c'.
    unfold parent_of. rewrite (In_lookup docs c d Hnd Hin).
    apply parent_is_true in Hp. now rewrite Hp.
  - intros (c & Hc & Hk). unfold parent_of in Hc.
    destruct (lookup docs c) as [d|] eqn:E; [|discriminate].
    apply lookup_In in E. exists d, c. repeat split.
    + apply in_map_iff. now exists (c, d).
    + apply parent_is_true. destruct (parentId d) as [[q|]|]; congruence.
    + now destruct (Hid c d E).
    + exact Hk.
Qed.

(** With fuel beyond the measure of [x], [deleteRecursive] returns the
    table without [x] and its descendants, the rest in place. *)
Lemma deleteRecursive_spec (fuel : nat) :
  forall docs x, well_formed docs -> measured h docs -> h x < fuel ->
    exists keep : str -> bool,
      deleteRecursive fuel docs (Some x)
      = Some (filter (fun kv => keep (fst kv)) docs)
      /\ forall k, keep k = false <-> doomed docs x k.
Proof.
  induction fuel as [|fuel IH]; intros docs x Hwf Hm Hx; [lia|].
  destruct (forEach_children fuel docs x Hwf Hm ltac:(lia) IH
              (values docs) [] (fun _ => true) eq_refl) as (P' & E & HP').
  { intros k. split; [discriminate|]. intros (d & c & [] & _). }
  assert (Hall : filter (fun kv : str * Document => (fun _ : str => true) (fst kv)) docs = docs).
  { clear. induction docs as [|a l IHl]; simpl; [reflexivity|]. now rewrite IHl. }
  rewrite Hall in E. simpl app in HP'.
  exists (fun k => P' k && negb (str_eqb k x)).
  cbn [deleteRecursive]. rewrite E. split.
  - unfold delete, property_key. now rewrite filter_twice.
  - intros k. unfold doomed. rewrite andb_false_iff, HP', children_all by assumption.
    rewrite negb_false_iff, str_eqb_eq. tauto.
Qed.

Lemma deleteRecursive_more_fuel (fuel : nat) :
  forall docs x r, deleteRecursive fuel docs x = Some r ->
                   deleteRecursive (S fuel) docs x = Some r.
Proof.
  induction fuel as [|fuel IH]; intros docs x r; [discriminate|].
  intros H. cbn [deleteRecursive] in H.
  change (deleteRecursive (S (S fuel)) docs x) with
    (match forEach (fun cur d => if parent_is d x
                                 then deleteRecursive (S fuel) cur (id d)
                                 else Some cur) (values docs) docs with
     | Some docs' => Some (delete (property_key x) docs')
     | None => None
     end).
  destruct (forEach _ (values docs) docs) as [r1|] eqn:E; [|discriminate].
  assert (F : forEach (fun cur d => if parent_is d x
                                    then deleteRecursive (S fuel) cur (id d)
                                    else Some cur) (values docs) docs = Some r1).
  { revert E. generalize docs at 2 4. generalize (values docs).
    induction l as [|d l IHl]; intros cur; cbn [forEach]; [auto|].
    destruct (parent_is d x).
    - destruct (deleteRecursive fuel cur (id d)) as [c1|] eqn:E1; [|discriminate].
      rewrite (IH _ _ _ E1). apply IHl.
    - apply IHl. }
  now rewrite F.
Qed.

End DeleteFacts.

(* ===================================================================== *)
(** * Acyclic tables have a measure                                       *)
(* ===================================================================== *)

Section AcyclicFacts.

Variable docs : table.

Lemma chain_length (f : nat) (k : str) : length (chain f docs k) = up f docs k.
Proof.
  revert k. induction f as [|f IH]; intros k; simpl; [reflexivity|].
  destruct (parent_of docs k); simpl; auto.
Qed.

Lemma chain_keys (f : nat) (k y : str) :
  In y (chain f docs k) -> In y (keys docs).
Proof.
  revert k. induction f as [|f IH]; intros k; simpl; [tauto|].
  destruct (parent_of docs k) as [p|] eqn:E; simpl; [|tauto].
  intros [<- | H]; [now apply (parent_of_key docs k p)|eauto].
Qed.

Lemma chain_ancestors (f : nat) (k y : str) :
  In y (chain f docs k) -> y = k \/ descends docs k y.
Proof.
  revert k. induction f as [|f IH]; intros k; simpl; [tauto|].
  destruct (parent_of docs k) as [p|] eqn:E; simpl; [|tauto].
  intros [<- | H]; [now left|right].
  destruct (IH p H) as [-> | Hp].
  - now apply descends_child.
  - eapply descends_step; eauto.
Qed.

Lemma chain_NoDup (f : nat) (k : str) :
  acyclic docs -> NoDup (chain f docs k).
Proof.
  intros Hac. revert k. induction f as [|f IH]; intros k; simpl; [constructor|].
  destruct (parent_of docs k) as [p|] eqn:E; [|constructor].
  constructor; [|apply IH].
  intros Hin. apply chain_ancestors in Hin as [-> | Hp].
  - apply (Hac p). now apply descends_child.
  - apply (Hac k). eapply descends_step; eauto.
Qed.

(** Without a cycle no way up is longer than the table. *)
Lemma up_bound (f : nat) (k : str) : acyclic docs -> up f docs k <= length docs.
Proof.
  intros Hac. rewrite <- chain_length.
  replace (length docs) with (length (keys docs)) by apply length_map.
  apply NoDup_incl_length; [now apply chain_NoDup|].
  intros y. apply chain_keys.
Qed.

Lemma up_stable (f : nat) (k : str) :
  up f docs k < f -> up (S f) docs k = up f docs k.
Proof.
  revert k. induction f as [|f IH]; intros k; [lia|].
  intros H. cbn [up] in *. destruct (parent_of docs k) as [p|]; [|reflexivity].
  f_equal. apply IH. lia.
Qed.

Lemma acyclic_measured : acyclic docs -> measured (height docs) docs.
Proof.
  intros Hac k p Hkp. unfold height.
  pose proof (up_bound (S (length docs)) k Hac) as Bk.
  cbn [up] in Bk. rewrite Hkp in Bk.
  assert (E : up (S (length docs)) docs k = S (up (length docs) docs p)).
  { cbn [up]. now rewrite Hkp. }
  rewrite E. rewrite (up_stable (length docs) p) by lia. lia.
Qed.

Lemma height_bound (k : str) : height docs k <= length docs.
Proof. unfold height. lia. Qed.

Lemma measured_acyclic (h : str -> nat) : measured h docs -> acyclic docs.
Proof.
  intros Hm k Hk.
  assert (L : forall a b, descends docs a b -> h a < h b).
  { intros a b H. induction H as [a b H | a q b H _ IH].
    - now apply Hm.
    - specialize (Hm a q H). lia. }
  specialize (L k k Hk). lia.
Qed.

End AcyclicFacts.

Section SetKeyFacts.

Lemma lookup_replace_value (docs : table) (k k' : str) (v : Document) :
  lookup (replace_value k v docs) k'
  = if str_eqb k k'
    then match lookup docs k with Some _ => Some v | None => None end
    else lookup docs k'.
Proof.
  induction docs as [|[k1 d] r IH]; simpl.
  - now destruct (str_eqb k k').
  - destruct (str_eqb k1 k) eqn:E1; simpl.
    + apply str_eqb_eq in E1. subst k1. now destruct (str_eqb k k').
    + destruct (str_eqb k1 k') eqn:E2.
      * apply str_eqb_eq in E2. subst k1.
        destruct (str_eqb k k') eqn:E3; [|reflexivity].
        apply str_eqb_eq in E3. subst k'. now rewrite str_eqb_refl in E1.
      * exact IH.
Qed.

Lemma lookup_snoc (docs : table) (k k' : str) (v : Document) :
  lookup (docs ++ [(k, v)]) k'
  = match lookup docs k' with
    | Some d => Some d
    | None => if str_eqb k k' then Some v else None
    end.
Proof.
  induction docs as [|[k1 d] r IH]; simpl; [reflexivity|].
  now destruct (str_eqb k1 k').
Qed.

Lemma lookup_insert_index (docs : table) (n : N) (k k' : str) (v : Document) :
  array_index k = Some n -> lookup docs k = None ->
  lookup (insert_index n k v docs) k'
  = if str_eqb k k' then Some v else lookup docs k'.
Proof.
  intros Hk. induction docs as [|[k1 d] r IH]; simpl; [reflexivity|].
  destruct (str_eqb k1 k) eqn:E1; [discriminate|]. intros Hr.
  destruct (array_index k1) as [n1|]; [destruct (n1 <? n)%N|]; simpl;
    try reflexivity.
  rewrite (IH Hr). destruct (str_eqb k k') eqn:E2; [|reflexivity].
  apply str_eqb_eq in E2. subst k'. now rewrite E1.
Qed.

(** [{ ...docs, [k]: v }] maps [k] to [v] and every other key as before. *)
Lemma lookup_set_key (docs : table) (k k' : str) (v : Document) :
  lookup (set_key docs k v) k' = if str_eqb k k' then Some v else lookup docs k'.
Proof.
  unfold set_key. destruct (lookup docs k) as [d|] eqn:E.
  - rewrite lookup_replace_value, E. reflexivity.
  - destruct (array_index k) as [n|] eqn:Ek.
    + now apply lookup_insert_index.
    + rewrite lookup_snoc. destruct (str_eqb k k') eqn:E2.
      * apply str_eqb_eq in E2. subst k'. now rewrite E.
      * now destruct (lookup docs k').
Qed.

Lemma spread_empty (updates : Document) : spread emptyObject updates = updates.
Proof.
  destruct updates as [i t c p f ch ca ua w]. unfold spread. simpl.
  now destruct i, t, c, p, f, ch, ca, ua, w.
Qed.

End SetKeyFacts.

(* ===================================================================== *)
(** * The store keeps its table well formed and acyclic                   *)
(* ===================================================================== *)

Section StoreInvariant.

Lemma insert_index_perm (n : N) (k : str) (v : Document) (docs : table) :
  Permutation (insert_index n k v docs) ((k, v) :: docs).
Proof.
  induction docs as [|[k1 d1] r IH]; simpl; [apply Permutation_refl|].
  destruct (array_index k1) as [n1|]; [destruct (n1 <? n)%N|];
    try apply Permutation_refl.
  eapply Permutation_trans; [apply perm_skip, IH|apply perm_swap].
Qed.

Lemma set_key_fresh_perm (docs : table) (k : str) (v : Document) :
  lookup docs k = None -> Permutation (set_key docs k v) ((k, v) :: docs).
Proof.
  intros H. unfold set_key. rewrite H.
  destruct (array_index k) as [n|]; [apply insert_index_perm|].
  apply Permutation_sym, Permutation_cons_append.
Qed.

(** [createDocument] with an id that is not in use keeps the table well
    formed. *)
Lemma createDocument_well_formed (newId : str) (now : Z) (parent : option str)
      (folder : bool) (st : EditorState) :
  well_formed (documents st) -> lookup (documents st) newId = None ->
  well_formed (documents (fst (createDocument newId now parent folder st))).
Proof.
  intros [Hnd Hid] Hfresh. unfold createDocument.
  cbn [fst documents set_documents].
  set (doc := {| id := Some newId; title := _ |}).
  pose proof (set_key_fresh_perm (documents st) newId doc Hfresh) as P.
  split.
  - apply (Permutation_NoDup (l := newId :: keys (documents st))).
    + apply Permutation_sym. apply (Permutation_map fst) in P. exact P.
    + constructor; [now apply lookup_keys|exact Hnd].
  - intros k d Hin. apply (Permutation_in _ P) in Hin.
    destruct Hin as [[= <- <-] | Hin]; [split; [reflexivity|discriminate]|].
    now apply Hid.
Qed.

(** [createDocument] keeps the table acyclic, when the new id is not in use
    and is named by nobody as a parent. *)
Lemma createDocument_acyclic (newId : str) (now : Z) (parent : option str)
      (folder : bool) (st : EditorState) :
  acyclic (documents st) -> lookup (documents st) newId = None ->
  parent <> Some newId ->
  (forall k, parent_of (documents st) k <> Some newId) ->
  acyclic (documents (fst (createDocument newId now parent folder st))).
Proof.
  intros Hac Hfresh Hself Hnobody. unfold createDocument.
  cbn [fst documents set_documents].
  set (doc := {| id := Some newId; title := _ |}).
  pose proof (acyclic_measured (documents st) Hac) as Hm.
  apply (measured_acyclic _
           (fun k => if str_eqb newId k then 0
                     else S (height (documents st) k))).
  intros k p. unfold parent_of. rewrite lookup_set_key.
  destruct (str_eqb newId k) eqn:Ek.
  - subst doc. cbn [parentId]. destruct parent as [q|]; [|discriminate].
    intros [= ->]. destruct (str_eqb newId p) eqn:Ep; [|lia].
    apply str_eqb_eq in Ep. subst p. now elim Hself.
  - intros Hp. fold (parent_of (documents st) k) in Hp.
    destruct (str_eqb newId p) eqn:Ep.
    + apply str_eqb_eq in Ep. subst p. now elim (Hnobody k).
    + specialize (Hm k p Hp). lia.
Qed.

(** [deleteDocument] keeps the table well formed and acyclic. *)
Lemma deleteDocument_invariant (st st' : EditorState) (root : str) (fuel : nat) :
  well_formed (documents st) -> acyclic (documents st) ->
  length (documents st) < fuel ->
  deleteDocument fuel root st = Some st' ->
  well_formed (documents st') /\ acyclic (documents st').
Proof.
  intros Hwf Hac Hfuel E.
  destruct (deleteRecursive_spec (height (documents st)) fuel (documents st) root
              Hwf (acyclic_measured (documents st) Hac))
    as (keep & Er & _).
  { pose proof (height_bound (documents st) root). lia. }
  unfold deleteDocument in E. rewrite Er in E. injection E as <-.
  cbn [documents set_documents]. split.
  - now apply well_formed_filter.
  - intros k Hk. apply (Hac k). now apply descends_filter_sub in Hk.
Qed.

End StoreInvariant.

(* ===================================================================== *)
(** * generateReply                                                       *)
(* ===================================================================== *)

Section ReplyFacts.

Variable ceilParseFloat : str -> Ai.number.
Variable oracle : nat -> Ai.outcome.

Lemma min60_le (x : Ai.number) : Ai.min60 x <= 60.
Proof. destruct x; simpl; lia. Qed.

Lemma getRetrySeconds_le (msg : str) :
  Ai.getRetrySeconds ceilParseFloat msg <= 60.
Proof.
  unfold Ai.getRetrySeconds.
  destruct (Ai.search Ai.retry_in_at msg); [apply min60_le|].
  destruct (Ai.search Ai.retryDelay_at msg); [apply min60_le|lia].
Qed.


Lemma startsWith_self (pat b : str) : startsWith pat (pat ++ b) = true.
Proof.
  unfold startsWith. induction pat as [|a pat IH]; simpl; [reflexivity|].
  now rewrite Ascii.eqb_refl, IH.
Qed.

Lemma includes_middle (pat a b : str) : includes pat (a ++ pat ++ b) = true.
Proof.
  unfold includes. induction a as [|c a IH].
  - simpl app. destruct (pat ++ b) eqn:E; simpl; unfold m_lit;
      rewrite <- E, startsWith_self; reflexivity.
  - simpl. destruct (m_lit pat (c :: a ++ pat ++ b)); [reflexivity|exact IH].
Qed.


Lemma reply_blank (params : Ai.GenerateReplyParams) (w : Ai.world) :
  truthy (key_of params) = false ->
  Ai.generateReply ceilParseFloat oracle params w
  = (Ai.Throw (ls "API key is required."), w).
Proof.
  intros H. unfold Ai.generateReply. fold (key_of params). now rewrite H.
Qed.

Lemma reply_openai (params : Ai.GenerateReplyParams) (w : Ai.world) :
  truthy (key_of params) = true -> Ai.provider params = ls "openai" ->
  Ai.generateReply ceilParseFloat oracle params w
  = (match oracle (Ai.served w) with
     | Ai.Resolved (Some c) => Ai.Ok c
     | Ai.Resolved None => Ai.Throw (ls "Empty or invalid response from OpenAI.")
     | Ai.Rejected e => Ai.Throw e
     end,
     Ai.mkWorld (S (Ai.served w))
       (Ai.trace w ++ [Ai.Request (Ai.provider params) (model_of params)
                                  (key_of params)])).
Proof.
  intros Hk Hp. unfold Ai.generateReply.
  fold (key_of params) (model_of params). rewrite Hk, Hp. cbn [negb].
  change (str_eqb (ls "openai") (ls "openai")) with true. cbv iota.
  unfold Ai.bind, Ai.request.
  destruct (oracle (Ai.served w)) as [[c|]|e]; reflexivity.
Qed.

Lemma reply_gemini_first (params : Ai.GenerateReplyParams) (w : Ai.world) :
  truthy (key_of params) = true -> Ai.provider params = ls "gemini" ->
  (forall e, oracle (Ai.served w) = Ai.Rejected e -> Ai.isQuotaError e = false) ->
  Ai.generateReply ceilParseFloat oracle params w
  = (match oracle (Ai.served w) with
     | Ai.Resolved (Some c) => Ai.Ok c
     | Ai.Resolved None => Ai.Throw (ls "Empty or invalid response from Gemini.")
     | Ai.Rejected e => Ai.Throw e
     end,
     Ai.mkWorld (S (Ai.served w))
       (Ai.trace w ++ [Ai.Request (Ai.provider params) (model_of params)
                                  (key_of params)])).
Proof.
  intros Hk Hp Hq. unfold Ai.generateReply.
  fold (key_of params) (model_of params). rewrite Hk, Hp. cbn [negb].
  change (str_eqb (ls "gemini") (ls "openai")) with false.
  change (str_eqb (ls "gemini") (ls "gemini")) with true. cbv iota.
  unfold Ai.try_catch, Ai.doGeminiCall, Ai.bind, Ai.request.
  destruct (oracle (Ai.served w)) as [[c|]|e] eqn:E; try reflexivity.
  unfold Ai.throw. now rewrite (Hq e eq_refl).
Qed.

Lemma reply_gemini_limited (params : Ai.GenerateReplyParams) (w : Ai.world)
      (e1 : str) :
  truthy (key_of params) = true -> Ai.provider params = ls "gemini" ->
  oracle (Ai.served w) = Ai.Rejected e1 -> Ai.isQuotaError e1 = true ->
  Ai.generateReply ceilParseFloat oracle params w
  = (match oracle (S (Ai.served w)) with
     | Ai.Resolved (Some c) => Ai.Ok c
     | Ai.Resolved None => Ai.Throw (ls "Empty or invalid response from Gemini.")
     | Ai.Rejected e2 =>
         if Ai.isQuotaError e2
         then Ai.Throw (Ai.rateLimitMessage
                          (Ai.getRetrySeconds ceilParseFloat e2))
         else Ai.Throw e2
     end,
     Ai.mkWorld (S (S (Ai.served w)))
       (Ai.trace w
        ++ [Ai.Request (Ai.provider params) (model_of params) (key_of params);
            Ai.Sleep (Ai.getRetrySeconds ceilParseFloat e1 * 1000);
            Ai.Request (Ai.provider params) (model_of params) (key_of params)])).
Proof.
  intros Hk Hp E1 Hq. unfold Ai.generateReply.
  fold (key_of params) (model_of params). rewrite Hk, Hp. cbn [negb].
  change (str_eqb (ls "gemini") (ls "openai")) with false.
  change (str_eqb (ls "gemini") (ls "gemini")) with true. cbv iota.
  unfold Ai.try_catch at 1. unfold Ai.doGeminiCall at 1.
  unfold Ai.bind at 1. unfold Ai.request at 1. rewrite E1, Hq. cbn [negb].
  unfold Ai.bind at 1. unfold Ai.sleep at 1. cbn [Ai.served Ai.trace].
  unfold Ai.try_catch, Ai.doGeminiCall, Ai.bind, Ai.request.
  cbn [Ai.served Ai.trace]. rewrite <- !app_assoc. simpl app.
  destruct (oracle (S (Ai.served w))) as [[c|]|e2]; try reflexivity.
  unfold Ai.throw. now destruct (Ai.isQuotaError e2).
Qed.

End ReplyFacts.

(* ===================================================================== *)
(** * The debounced save                                                  *)
(* ===================================================================== *)

Section DebounceFacts.

Variable k : Surface.kind.

Lemma callback_saves (t : Surface.timer) (st : EditorState) (now : nat) :
  snd (Surface.callback k t st now)
  = save_of (Surface.savedFor t) (Surface.savedContent t).
Proof.
  unfold Surface.callback, save_of.
  destruct (Surface.savedFor t) as [d|]; [|reflexivity].
  now destruct (truthy d).
Qed.

Lemma holds_edit (s : Surface.surface) latest (c : str) :
  holds s latest ->
  holds (Surface.onEdit k c s)
        (Some (Surface.clock s + 600, Surface.activeId s, c))
  /\ Surface.activeId (Surface.onEdit k c s) = Surface.activeId s
  /\ Surface.clock (Surface.onEdit k c s) = Surface.clock s.
Proof.
  intros [Hn H].
  assert (E : match Surface.saveTimeout s with
              | Some h => if h =? 0 then Surface.pending s
                          else Surface.clearTimeout h (Surface.pending s)
              | None => Surface.pending s
              end = []).
  { destruct latest as [[[due doc] c0]|].
    - destruct H as (h & Hs & Hh & Hp). rewrite Hs, Hp.
      destruct (h =? 0) eqn:E0; [apply Nat.eqb_eq in E0; lia|].
      unfold Surface.clearTimeout. simpl. now rewrite Nat.eqb_refl.
    - destruct H as [Hp _]. rewrite Hp.
      destruct (Surface.saveTimeout s) as [h|]; [now destruct (h =? 0)|reflexivity]. }
  assert (G : holds (Surface.debouncedSave c s)
                    (Some (Surface.clock s + 600, Surface.activeId s, c))).
  { unfold holds, Surface.debouncedSave. cbn. rewrite E. split; [lia|].
    exists (Surface.nextHandle s). repeat split; lia. }
  destruct k; simpl; auto.
Qed.

Lemma holds_elapse (s : Surface.surface) latest (ms : nat) :
  holds s latest ->
  holds (fst (Surface.step k s (Surface.Elapse ms))) latest.
Proof. intros H. exact H. Qed.

Lemma holds_fire (s : Surface.surface) latest :
  holds s latest ->
  let out := Surface.step k s Surface.Fire in
  Surface.activeId (fst out) = Surface.activeId s
  /\ Surface.clock (fst out) = Surface.clock s
  /\ match latest with
     | Some (due, doc, c) =>
         if due <=? Surface.clock s
         then holds (fst out) None /\ snd out = save_of doc c
         else holds (fst out) latest /\ snd out = []
     | None => holds (fst out) None /\ snd out = []
     end.
Proof.
  intros [Hn H]. unfold Surface.step.
  destruct latest as [[[due doc] c]|].
  - destruct H as (h & Hs & Hh & Hp). rewrite Hp. cbn [Surface.run_due Surface.due].
    destruct (due <=? Surface.clock s) eqn:Ed.
    + pose proof (callback_saves (Surface.mkTimer h due doc c) (Surface.store s)
                                 (Surface.clock s)) as Hc.
      destruct (Surface.callback k _ _ _) as [st1 w1]. simpl in Hc. subst w1.
      cbn. rewrite app_nil_r. repeat split; auto;
        simpl in *; assert (h0 = h) by congruence; subst h0; lia.
    + cbn. repeat split; auto. exists h. auto.
  - destruct H as [Hp Hs]. rewrite Hp. cbn. repeat split; auto;
      simpl in *; apply Hs in H; lia.
Qed.

Lemma holds_switch (s : Surface.surface) latest (d : str) :
  holds s latest ->
  holds (fst (Surface.step k s (Surface.Switch d))) latest.
Proof. intros H. exact H. Qed.

Lemma holds_pending (s : Surface.surface) latest :
  holds s latest -> length (Surface.pending s) <= 1.
Proof.
  intros [_ H]. destruct latest as [[[due doc] c]|].
  - destruct H as (h & _ & _ & ->). simpl. lia.
  - destruct H as [-> _]. simpl. lia.
Qed.

(** The timers of the surface do what the one-slot debounce says. *)
Lemma run_debounce (inputs : list Surface.input) :
  forall s latest, holds s latest ->
    snd (Surface.run k s inputs)
    = debounce_spec (Surface.activeId s) (Surface.clock s) latest inputs
    /\ length (Surface.pending (fst (Surface.run k s inputs))) <= 1.
Proof.
  induction inputs as [|i rest IH]; intros s latest H.
  - simpl. split; [reflexivity|]. now apply (holds_pending s latest).
  - cbn [Surface.run]. destruct i as [c|ms| |d].
    + destruct (holds_edit s latest c H) as (H' & Ha & Hc).
      cbn [Surface.step]. destruct (IH _ _ H') as [E L].
      destruct (Surface.run k (Surface.onEdit k c s) rest) as [s2 w2].
      simpl in *. rewrite Ha, Hc in E. auto.
    + pose proof (holds_elapse s latest ms H) as H'.
      cbn [Surface.step] in *. destruct (IH _ _ H') as [E L].
      destruct (Surface.run k _ rest) as [s2 w2]. simpl in *. auto.
    + pose proof (holds_fire s latest H) as G. cbv zeta in G.
      destruct (Surface.step k s Surface.Fire) as [s1 w1].
      simpl in G. destruct G as (Ha & Hc & G).
      cbn [debounce_spec].
      destruct latest as [[[due doc] c]|].
      * destruct (due <=? Surface.clock s).
        -- destruct G as [H' ->]. destruct (IH _ _ H') as [E L].
           destruct (Surface.run k s1 rest) as [s2 w2].
           simpl in *. rewrite Ha, Hc in E. now rewrite E.
        -- destruct G as [H' ->]. destruct (IH _ _ H') as [E L].
           destruct (Surface.run k s1 rest) as [s2 w2].
           simpl in *. rewrite Ha, Hc in E. auto.
      * destruct G as [H' ->]. destruct (IH _ _ H') as [E L].
        destruct (Surface.run k s1 rest) as [s2 w2].
        simpl in *. rewrite Ha, Hc in E. auto.
    + pose proof (holds_switch s latest d H) as H'.
      cbn [Surface.step] in *. destruct (IH _ _ H') as [E L].
      destruct (Surface.run k _ rest) as [s2 w2]. simpl in *. auto.
Qed.

Lemma holds_mount (st : EditorState) : holds (Surface.mount st) None.
Proof.
  unfold holds, Surface.mount. simpl. repeat split; auto; discriminate.
Qed.

End DebounceFacts.

(* ===================================================================== *)
(** * Case, white space and the extension                                 *)
(* ===================================================================== *)

Section CaseFacts.

Lemma trimStart_lower (s : str) :
  trimStart (toLowerCase s) = toLowerCase (trimStart s).
Proof.
  induction s as [|c r IH]; [reflexivity|].
  simpl. rewrite lower_char_space. now destruct (is_space c).
Qed.

Lemma trim_lower (s : str) : trim (toLowerCase s) = toLowerCase (trim s).
Proof.
  unfold trim, trimEnd.
  rewrite trimStart_lower.
  assert (R : forall x, rev (toLowerCase x) = toLowerCase (rev x))
    by (intros x; unfold toLowerCase; now rewrite map_rev).
  now rewrite R, trimStart_lower, R.
Qed.

Lemma existsb_dot_lower (s : str) :
  existsb (is_chr ".") (toLowerCase s) = existsb (is_chr ".") s.
Proof.
  induction s as [|c r IH]; [reflexivity|].
  simpl. now rewrite lower_char_dot, IH.
Qed.

Lemma after_last_lower (s : str) :
  after_last "." (toLowerCase s) = toLowerCase (after_last "." s).
Proof.
  induction s as [|c r IH]; [reflexivity|].
  simpl. fold (toLowerCase r). rewrite existsb_dot_lower, lower_char_dot, IH.
  destruct (existsb (is_chr ".") r); [reflexivity|].
  now destruct (is_chr "." c).
Qed.

Lemma toLowerCase_idem (s : str) : toLowerCase (toLowerCase s) = toLowerCase s.
Proof.
  induction s as [|c r IH]; [reflexivity|].
  simpl. fold (toLowerCase r). fold (toLowerCase (toLowerCase r)).
  now rewrite lower_char_idem, IH.
Qed.

Lemma extensionOf_spec_lower (t : str) :
  extensionOf_spec (toLowerCase t) = extensionOf_spec t.
Proof.
  unfold extensionOf_spec.
  rewrite existsb_dot_lower, after_last_lower, truthy_lower,
    forallb_alnum_lower, toLowerCase_idem.
  reflexivity.
Qed.

End CaseFacts.

(* ===================================================================== *)
(** * plainTextToHtml: the markup laid out over the input                 *)
(* ===================================================================== *)

Section LayoutFacts.

Lemma between_cons (ps : list piece) : exists h t, between ps = h :: t.
Proof.
  induction ps as [|[c|x] ps (h & t & E)]; simpl.
  - now exists [], [].
  - rewrite E. now exists (c :: h), t.
  - now exists [], (between ps).
Qed.

Lemma between_texts (w : str) (ps : list piece) (h : str) (t : list str) :
  between ps = h :: t -> between (map Text w ++ ps) = (w ++ h) :: t.
Proof.
  intros E. induction w as [|c w IH]; [exact E|]. simpl. now rewrite IH.
Qed.

Lemma scan_block (q : ascii -> bool) (min : nat) (x s : str) :
  forallb (fun c => negb (q c)) x = true ->
  scan (m_run q min) (x ++ s) = map Text x ++ scan (m_run q min) s.
Proof.
  induction x as [|c x IH]; intros H; [reflexivity|].
  simpl in H. apply andb_true_iff in H as [Hc Hx]. apply negb_true_iff in Hc.
  simpl app. rewrite (scan_run_out q min c (x ++ s) Hc).
  simpl. now rewrite IH.
Qed.

Lemma entity_no_LF (c : ascii) :
  is_LF c = false -> forallb (fun x => negb (is_LF x)) (entity c) = true.
Proof. destruct c as [[] [] [] [] [] [] [] []]; try reflexivity; discriminate. Qed.

Lemma entity_LF (c : ascii) : is_LF c = true -> entity c = [c].
Proof. destruct c as [[] [] [] [] [] [] [] []]; try reflexivity; discriminate. Qed.

Lemma entity_run (w : str) :
  forallb is_LF w = true -> flat_map entity w = w.
Proof.
  induction w as [|c w IH]; [reflexivity|]. simpl. intros H.
  apply andb_true_iff in H as [Hc Hw]. now rewrite (entity_LF c Hc), IH.
Qed.

Lemma entity_run_stop (s : str) :
  run_length is_LF s = 0 -> run_length is_LF (flat_map entity s) = 0.
Proof.
  destruct s as [|c r]; [reflexivity|]. simpl.
  destruct (is_LF c) eqn:Hc; [discriminate|]. intros _.
  destruct c as [[] [] [] [] [] [] [] []]; try reflexivity; discriminate.
Qed.

(** Escaping does not move a paragraph boundary: the paragraphs of the
    escaped text are the escaped paragraphs of the text. *)
Lemma split_escape (t : str) :
  split (m_run is_LF 2) (flat_map entity t)
  = map (flat_map entity) (split (m_run is_LF 2) t).
Proof.
  unfold split.
  induction t as [|c r Hc IH|c w s Hw Hs IH] using (run_ind is_LF).
  - reflexivity.
  - cbn [flat_map]. rewrite (scan_block is_LF 2 _ _ (entity_no_LF c Hc)).
    rewrite (scan_run_out is_LF 2 c r Hc).
    destruct (between_cons (scan (m_run is_LF 2) r)) as (h & t & E).
    rewrite E in IH. cbn [between]. rewrite E.
    rewrite (between_texts _ _ _ _ IH). cbn [map flat_map]. reflexivity.
  - rewrite flat_map_app, (entity_run _ Hw).
    pose proof (entity_run_stop s Hs) as Hs'.
    destruct w as [|x w].
    + rewrite (scan_run_short is_LF 2 [c] _ Hw Hs') by (simpl; lia).
      rewrite (scan_run_short is_LF 2 [c] _ Hw Hs) by (simpl; lia).
      destruct (between_cons (scan (m_run is_LF 2) s)) as (h & t & E).
      rewrite E in IH.
      rewrite (between_texts _ _ _ _ IH), (between_texts _ _ _ _ E).
      cbn [map]. rewrite flat_map_app, (entity_run _ Hw). reflexivity.
    + rewrite (scan_run_hit is_LF 2 c (x :: w) _ Hw Hs') by (simpl; lia).
      rewrite (scan_run_hit is_LF 2 c (x :: w) _ Hw Hs) by (simpl; lia).
      cbn [between map flat_map]. now rewrite IH.
Qed.

(** The paragraphs hold every character of the text but newlines. *)
Lemma split_keeps_others (t : str) :
  flat_map (filter (fun c => negb (is_LF c))) (split (m_run is_LF 2) t)
  = filter (fun c => negb (is_LF c)) t.
Proof.
  unfold split.
  induction t as [|c r Hc IH|c w s Hw Hs IH] using (run_ind is_LF).
  - reflexivity.
  - rewrite (scan_run_out is_LF 2 c r Hc).
    destruct (between_cons (scan (m_run is_LF 2) r)) as (h & t & E).
    rewrite E in IH. cbn [between]. rewrite E.
    cbn [flat_map filter] in *. rewrite Hc. cbn [negb app]. now rewrite <- IH.
  - assert (F : filter (fun x => negb (is_LF x)) (c :: w) = []).
    { clear - Hw. induction (c :: w) as [|x l IHl]; [reflexivity|].
      simpl in *. apply andb_true_iff in Hw as [Hx Hl].
      rewrite Hx. simpl. now apply IHl. }
    rewrite filter_app, F, app_nil_l.
    destruct w as [|x w].
    + rewrite (scan_run_short is_LF 2 [c] _ Hw Hs) by (simpl; lia).
      destruct (between_cons (scan (m_run is_LF 2) s)) as (h & t & E).
      rewrite E in IH. rewrite (between_texts _ _ _ _ E).
      cbn [flat_map] in *. rewrite filter_app, F. exact IH.
    + rewrite (scan_run_hit is_LF 2 c (x :: w) _ Hw Hs) by (simpl; lia).
      cbn [between flat_map filter app]. exact IH.
Qed.

Lemma breaks_entity (c : ascii) :
  flat_map (fun x => if is_chr LF x then ls "<br>" else [x]) (entity c)
  = render_part (if is_LF c then Marker (ls "<br>") else FromInput c).
Proof. destruct c as [[] [] [] [] [] [] [] []]; reflexivity. Qed.

Lemma breaks_escape (p : str) :
  flat_map (fun x => if is_chr LF x then ls "<br>" else [x]) (flat_map entity p)
  = render (map (fun c => if is_LF c then Marker (ls "<br>") else FromInput c) p).
Proof.
  induction p as [|c p IH]; [reflexivity|].
  cbn [flat_map map render]. rewrite flat_map_app, breaks_entity.
  unfold render in IH. now rewrite IH.
Qed.

Lemma truthy_escape (p : str) : truthy (flat_map entity p) = truthy p.
Proof.
  destruct p as [|c p]; [reflexivity|]. cbn [flat_map].
  destruct c as [[] [] [] [] [] [] [] []]; reflexivity.
Qed.

Lemma truthy_breaks (x : str) :
  truthy (flat_map (fun c => if is_chr LF c then ls "<br>" else [c]) x)
  = truthy x.
Proof. destruct x as [|c x]; [reflexivity|]. simpl. now destruct (is_chr LF c). Qed.

Lemma render_app (a b : list part) : render (a ++ b) = render a ++ render b.
Proof. apply flat_map_app. Qed.

(** The markup of one escaped paragraph. *)
Lemma paragraph_escape (p : str) :
  paragraph (flat_map entity p) = render (layout_paragraph p).
Proof.
  unfold paragraph, layout_paragraph. rewrite replace_lit1.
  rewrite truthy_breaks, truthy_escape, breaks_escape.
  change (Marker (ls "<p>") :: ?x) with ([Marker (ls "<p>")] ++ x).
  rewrite !render_app. now destruct (truthy p).
Qed.

Lemma render_paragraphs (ps : list str) :
  join (map paragraph (map (flat_map entity) ps))
  = render (flat_map layout_paragraph ps).
Proof.
  unfold join. induction ps as [|p ps IH]; [reflexivity|].
  cbn [map concat flat_map]. now rewrite render_app, paragraph_escape, IH.
Qed.

(** The code against the layout. *)
Lemma plainTextToHtml_layout (t : str) :
  plainTextToHtml t = render (layout t).
Proof.
  unfold plainTextToHtml, layout. destruct (truthy t); cbn [negb];
    [|reflexivity].
  now rewrite escape_entities, split_escape, render_paragraphs.
Qed.

Lemma markers_app (a b : list part) :
  markers (a ++ b) = markers a ++ markers b.
Proof. apply flat_map_app. Qed.

Lemma markers_paragraph (p m : str) :
  In m (markers (layout_paragraph p)) ->
  m = ls "<p>" \/ m = ls "</p>" \/ m = ls "<br>".
Proof.
  unfold layout_paragraph.
  change (Marker (ls "<p>") :: ?x) with ([Marker (ls "<p>")] ++ x).
  rewrite !markers_app. intros H.
  apply in_app_or in H as [H | H]; [|apply in_app_or in H as [H | H]].
  - destruct H as [<- | []]. now left.
  - destruct (truthy p).
    + apply in_flat_map in H as (x & Hx & Hm).
      apply in_map_iff in Hx as (c & <- & _).
      destruct (is_LF c); simpl in Hm; [|destruct Hm].
      destruct Hm as [<- | []]. now right; right.
    + destruct H as [<- | []]. now right; right.
  - destruct H as [<- | []]. right. now left.
Qed.

Lemma markers_layout (t m : str) :
  In m (markers (layout t)) ->
  m = ls "<p>" \/ m = ls "</p>" \/ m = ls "<br>".
Proof.
  unfold layout. destruct (truthy t).
  - unfold markers. intros H. apply in_flat_map in H as (x & Hx & Hm).
    apply in_flat_map in Hx as (p & _ & Hx).
    apply (markers_paragraph p). unfold markers.
    apply in_flat_map. now exists x.
  - simpl. intros [<- | [<- | []]]; [now left|right; now left].
Qed.

Lemma from_input_app (a b : list part) :
  from_input (a ++ b) = from_input a ++ from_input b.
Proof. apply flat_map_app. Qed.

Lemma from_input_paragraph (p : str) :
  from_input (layout_paragraph p) = filter (fun c => negb (is_LF c)) p.
Proof.
  unfold layout_paragraph.
  change (Marker (ls "<p>") :: ?x) with ([Marker (ls "<p>")] ++ x).
  rewrite !from_input_app. cbn [from_input flat_map app].
  rewrite app_nil_r. destruct p as [|c p]; [reflexivity|]. cbn [truthy].
  induction (c :: p) as [|x l IH]; [reflexivity|].
  cbn [map from_input flat_map filter]. unfold from_input in IH. rewrite IH.
  now destruct (is_LF x).
Qed.

(** Every character of the input but the newlines is among the parts,
    once and in its place. *)
Lemma from_input_layout (t : str) :
  from_input (layout t) = filter (fun c => negb (is_LF c)) t.
Proof.
  unfold layout. destruct t as [|c r]; [reflexivity|]. cbn [truthy].
  rewrite <- split_keeps_others.
  induction (split (m_run is_LF 2) (c :: r)) as [|p ps IH]; [reflexivity|].
  cbn [flat_map]. now rewrite from_input_app, from_input_paragraph, IH.
Qed.

Lemma entity_no_lt (c : ascii) : filter (is_chr "<") (entity c) = [].
Proof. destruct c as [[] [] [] [] [] [] [] []]; reflexivity. Qed.

(** The output has one [<] for every marker and no other. *)
Lemma lt_count (l : list part) :
  (forall m, In m (markers l) ->
             m = ls "<p>" \/ m = ls "</p>" \/ m = ls "<br>") ->
  length (filter (is_chr "<") (render l)) = length (markers l).
Proof.
  induction l as [|x l IH]; intros H; [reflexivity|].
  cbn [render flat_map markers]. rewrite filter_app, !length_app.
  fold (render l) (markers l). rewrite IH.
  - f_equal. destruct x as [m|c]; cbn [render_part].
    + destruct (H m) as [-> | [-> | ->]]; [cbn [markers flat_map]; now left|..];
        reflexivity.
    + now rewrite entity_no_lt.
  - intros m Hm. apply H. cbn [markers flat_map]. apply in_or_app. now right.
Qed.

End LayoutFacts.

(* ===================================================================== *)
(** * The properties of the specification                                 *)
(* ===================================================================== *)

(** ** Document store: update of a missing id *)

(** C1, as worded, fails: with an id that is no key of the table,
    [updateDocument] does change the table.  A late save for the id
    [ghost] adds an entry to a table that does not hold it. *)
Lemma updateDocument_missing_id_changes_table :
  lookup (documents (state_of sample_tree None)) (ls "ghost") = None
  /\ documents (updateDocument 1700 (ls "ghost") (onlyContent (ls "late save"))
                               (state_of sample_tree None))
     <> documents (state_of sample_tree None).
Proof.
  split; [reflexivity|].
  intros H. apply (f_equal (@length _)) in H. vm_compute in H. discriminate.
Qed.

(** C1 (amended).  For every state of the document table and every id that
    is not a key of the table, [updateDocument(id, updates)] returns
    normally, leaves every document of the table as it was and leaves the
    active document as it was, but adds under [id] a new object that holds
    just the given fields and the fresh [updatedAt]. *)
Theorem updateDocument_missing_id_adds_entry
        (now : Z) (k : str) (updates : Document) (st : EditorState) :
  lookup (documents st) k = None ->
  let st' := updateDocument now k updates st in
  lookup (documents st') k = Some (spread updates (onlyUpdatedAt now))
  /\ (forall k', k' <> k -> lookup (documents st') k' = lookup (documents st) k')
  /\ activeDocumentId st' = activeDocumentId st.
Proof.
  intros Hk. cbv zeta. unfold updateDocument. cbn [documents set_documents activeDocumentId].
  split; [|split; [|reflexivity]].
  - rewrite lookup_set_key, str_eqb_refl. unfold stored. rewrite Hk.
    now rewrite spread_empty.
  - intros k' Hne. rewrite lookup_set_key.
    destruct (str_eqb k k') eqn:E; [|reflexivity].
    apply str_eqb_eq in E. congruence.
Qed.

Lemma updateDocument_missing_id_adds_entry_witness :
  lookup (documents (state_of sample_tree None)) (ls "ghost") = None
  /\ lookup (documents (updateDocument 1700 (ls "ghost")
                          (onlyContent (ls "late save"))
                          (state_of sample_tree None))) (ls "ghost")
     = Some (spread (onlyContent (ls "late save")) (onlyUpdatedAt 1700)).
Proof.
  split; [reflexivity|].
  exact (proj1 (updateDocument_missing_id_adds_entry
                  1700 (ls "ghost") (onlyContent (ls "late save"))
                  (state_of sample_tree None) eq_refl)).
Defined.

(** ** Content converter: the round trip *)

(** C2, as worded, fails: a text with none of the five special characters
    and no blank line, but with a space in front, does not come back. *)
Lemma round_trip_loses_leading_space :
  plain_as_worded (ls " a") = true
  /\ htmlToPlainText (plainTextToHtml (ls " a")) <> ls " a".
Proof. split; [reflexivity|]. vm_compute. discriminate. Qed.

(** C2 (amended).  For every plain text [t] that contains none of the
    characters & < > and the two quotes, does not start with white space
    and has no white-space character at the end of a line (directly before
    a line terminator or at the end of the text; this excludes two newlines
    in a row), [htmlToPlainText(plainTextToHtml(t))] equals [t]; moreover
    [plainTextToHtml] of the empty text is the empty paragraph [<p></p>],
    and [htmlToPlainText] of an empty or white-space-only string is the
    empty string. *)
Theorem round_trip_plain_simple (t html : str) :
  (plain_simple t = true -> htmlToPlainText (plainTextToHtml t) = t)
  /\ plainTextToHtml [] = ls "<p></p>"
  /\ (existsb not_space html = false -> htmlToPlainText html = []).
Proof.
  split; [apply round_trip_simple|]. split; [reflexivity|].
  apply htmlToPlainText_blank.
Qed.

Lemma round_trip_plain_simple_witness :
  plain_simple (ls "first line" ++ [LF] ++ ls "  second line") = true
  /\ htmlToPlainText (plainTextToHtml (ls "first line" ++ [LF] ++ ls "  second line"))
     = ls "first line" ++ [LF] ++ ls "  second line"
  /\ existsb not_space (ls "  " ++ [LF]) = false
  /\ htmlToPlainText (ls "  " ++ [LF]) = [].
Proof.
  destruct (round_trip_plain_simple
              (ls "first line" ++ [LF] ++ ls "  second line")
              (ls "  " ++ [LF])) as (H1 & _ & H3).
  split; [reflexivity|]. split; [exact (H1 eq_refl)|].
  split; [reflexivity|exact (H3 eq_refl)].
Defined.

(** ** Document store: cascading delete *)

Lemma sample_tree_well_formed : well_formed sample_tree.
Proof.
  split.
  - unfold keys, sample_tree. simpl map.
    repeat constructor; simpl; intuition discriminate.
  - intros k d H. simpl in H.
    repeat (destruct H as [[= <- <-] | H]; [split; [reflexivity|discriminate]|]).
    destruct H.
Qed.

Lemma sample_tree_acyclic : acyclic sample_tree.
Proof.
  apply (measured_acyclic sample_tree
           (fun k => if str_eqb k (ls "note") then 0
                     else if str_eqb k (ls "inner") then 1 else 2)).
  intros k p. unfold parent_of, sample_tree. cbn [lookup].
  destruct (str_eqb (ls "folder") k) eqn:E1; [discriminate|].
  destruct (str_eqb (ls "inner") k) eqn:E2.
  { apply str_eqb_eq in E2. subst k. intros [= <-]. vm_compute. lia. }
  destruct (str_eqb (ls "note") k) eqn:E3.
  { apply str_eqb_eq in E3. subst k. intros [= <-]. vm_compute. lia. }
  destruct (str_eqb (ls "other") k); discriminate.
Qed.

(** C3.  For every document table whose [parentId] references form no
    cycle and every id, [deleteDocument(id)] (given a call stack deeper
    than the table is long) removes exactly the document with that id and
    every document whose [parentId] chain leads to it; every other document
    stays in the table unchanged, and no remaining document names a removed
    one as its parent. *)
Theorem deleteDocument_cascade (st : EditorState) (root : str) (fuel : nat) :
  well_formed (documents st) -> acyclic (documents st) ->
  length (documents st) < fuel ->
  exists st',
    deleteDocument fuel root st = Some st'
    /\ (forall k, doomed (documents st) root k ->
                  lookup (documents st') k = None)
    /\ (forall k, ~ doomed (documents st) root k ->
                  lookup (documents st') k = lookup (documents st) k)
    /\ (forall k d p, lookup (documents st') k = Some d ->
                      parentId d = Some (Some p) ->
                      ~ doomed (documents st) root p).
Proof.
  intros Hwf Hac Hfuel.
  destruct (deleteRecursive_spec (height (documents st)) fuel (documents st) root
              Hwf (acyclic_measured (documents st) Hac))
    as (keep & E & Hkeep).
  { pose proof (height_bound (documents st) root). lia. }
  unfold deleteDocument. rewrite E. eexists. split; [reflexivity|].
  cbn [documents set_documents].
  assert (Hgone : forall k, doomed (documents st) root k ->
                            lookup (filter (fun kv => keep (fst kv)) (documents st)) k = None).
  { intros k Hk. rewrite lookup_filter. apply Hkeep in Hk. now rewrite Hk. }
  assert (Hstay : forall k, ~ doomed (documents st) root k ->
                            lookup (filter (fun kv => keep (fst kv)) (documents st)) k
                            = lookup (documents st) k).
  { intros k Hk. rewrite lookup_filter. destruct (keep k) eqn:Ek; [reflexivity|].
    apply Hkeep in Ek. contradiction. }
  split; [exact Hgone|]. split; [exact Hstay|].
  intros k d p Hl Hp Hdoomed.
  rewrite lookup_filter in Hl. destruct (keep k) eqn:Ek; [|discriminate].
  assert (Hkp : descends (documents st) k p).
  { apply descends_child. unfold parent_of. now rewrite Hl, Hp. }
  assert (Hk : doomed (documents st) root k).
  { right. destruct Hdoomed as [-> | Hd]; [exact Hkp|].
    eapply descends_trans; eauto. }
  apply Hkeep in Hk. congruence.
Qed.

Lemma deleteDocument_cascade_witness :
  well_formed sample_tree /\ acyclic sample_tree
  /\ exists st',
       deleteDocument 5 (ls "folder") (state_of sample_tree None) = Some st'
       /\ lookup (documents st') (ls "note") = None
       /\ lookup (documents st') (ls "other") = lookup sample_tree (ls "other").
Proof.
  split; [exact sample_tree_well_formed|]. split; [exact sample_tree_acyclic|].
  destruct (deleteDocument_cascade (state_of sample_tree None) (ls "folder") 5
              sample_tree_well_formed sample_tree_acyclic)
    as (st' & E & Hgone & Hstay & _).
  { simpl. lia. }
  exists st'. split; [exact E|]. split.
  - apply Hgone. right.
    apply (descends_step sample_tree (ls "note") (ls "inner") (ls "folder"));
      [reflexivity|].
    apply descends_child. reflexivity.
  - apply Hstay. intros [H | H]; [discriminate|].
    inversion H as [? ? Hp | ? ? ? Hp _]; vm_compute in Hp; discriminate.
Defined.

(** C4 is a defect of the code.  [deleteDocument] reassigns the active
    pointer only when the active document is the very document deleted
    ([state.activeDocumentId === id]); when the active document goes with
    a deleted ancestor, the pointer is left on it.  Deleting the folder
    above the active note removes the note and keeps the pointer. *)
Theorem deleteDocument_leaves_stale_active :
  exists st',
    deleteDocument 5 (ls "folder")
                   (state_of sample_tree (Some (ls "note"))) = Some st'
    /\ activeDocumentId st' = Some (ls "note")
    /\ lookup (documents st') (ls "note") = None
    /\ keys (documents st') = [ls "other"].
Proof. eexists. split; [vm_compute; reflexivity|]. repeat split. Qed.

(** ** Statistics engine: content health *)

(** C5, as worded, fails: the word count behind the score is not the
    number of tokens of the tag-stripped text.  Twenty-four words followed
    by [<br>] are twenty-five tokens to the code, so the bonus for short
    sentences is not given, whether a stripped tag leaves a space behind
    or nothing. *)
Lemma contentHealth_counts_markup_tokens :
  calcContentHealth sample_24_words = 40
  /\ health_score (count_words (plain_text (ls " ") sample_24_words))
                  sample_24_words = 50
  /\ health_score (count_words (plain_text [] sample_24_words))
                  sample_24_words = 50.
Proof. repeat split; vm_compute; reflexivity. Qed.

(** C5 (amended).  For every content string, [calcContentHealth] returns 0
    if the content has no non-white-space character, and otherwise 40, plus
    20 if the word count is at least 100, plus a further 10 if it is at
    least 300, plus 10 if the average number of words per sentence is below
    25 (sentences counted as the maximal runs of [.], [!], [?], at least 1),
    plus 10 if [<h1], [<h2] or [<h3] occurs, plus 5 if [<ul] or [<ol]
    occurs, plus 5 if [<code] or [<pre] occurs, capped at 100 -- where the
    word count is the number of white-space separated tokens of the raw
    content, markup included.  In particular the empty content scores 0,
    and a [<p>]-wrapped body of 350 words in short sentences with one
    heading scores at least 90. *)
Theorem calcContentHealth_formula (content : str) :
  calcContentHealth content = health_score (count_words content) content
  /\ calcContentHealth [] = 0
  /\ 90 <= calcContentHealth sample_body.
Proof.
  split; [apply calcContentHealth_raw|]. split; [reflexivity|].
  vm_compute. lia.
Qed.

(** ** Statistics engine: word and character counts *)

(** C6, as worded, fails: the tags are not stripped out but replaced by a
    space each.  In [a<b>c] the code sees two words and three characters,
    the text without its tag has one word and two characters. *)
Lemma stats_see_a_space_for_a_tag :
  editorWordCount (updateEditorStats (ls "a<b>c") (state_of [] None)) = 2
  /\ charCount (updateEditorStats (ls "a<b>c") (state_of [] None)) = 3
  /\ count_words (plain_text [] (ls "a<b>c")) = 1
  /\ length (plain_text [] (ls "a<b>c")) = 2.
Proof. repeat split; vm_compute; reflexivity. Qed.

(** C6 (amended).  For every content string, [updateEditorStats] computes
    [wordCount] as the number of non-empty tokens obtained by replacing
    every markup tag by a space, collapsing white-space runs to single
    spaces, trimming, and splitting on white space (0 if none); [charCount]
    as the length of that text; and [readingTime] as the ceiling of
    [wordCount / 238]; in particular the content [Hello world] yields 2
    words and 11 characters. *)
Theorem updateEditorStats_counts (content : str) (st : EditorState) :
  let st' := updateEditorStats content st in
  let text := plain_text (ls " ") content in
  editorWordCount st' = length (filter truthy (split m_spaces text))
  /\ editorWordCount st' = count_words text
  /\ charCount st' = length text
  /\ (editorWordCount st' <= 238 * readingTime st'
      /\ 238 * readingTime st' < editorWordCount st' + 238)
  /\ editorWordCount (updateEditorStats (ls "Hello world") st) = 2
  /\ charCount (updateEditorStats (ls "Hello world") st) = 11.
Proof.
  cbv zeta. unfold updateEditorStats.
  cbn [editorWordCount charCount readingTime set_stats].
  rewrite statsText_plain_text.
  assert (W : (if truthy (plain_text (ls " ") content)
               then length (split m_spaces (plain_text (ls " ") content))
               else 0) = count_words (plain_text (ls " ") content)).
  { apply stats_words; [apply starts_space_trim|apply ends_space_trim]. }
  rewrite W. split; [now rewrite count_words_split|]. split; [reflexivity|].
  split; [reflexivity|]. split.
  - unfold calcReadingTime. apply ceil_div_bounds. lia.
  - split; reflexivity.
Qed.

(** ** Content converter: the extension of a title *)

(** C7, as worded, fails: the code looks at the title without the white
    space around it.  Behind the last dot of the title [a.txt ] comes
    [txt ] with a space, which is not alphanumeric, yet the code answers
    [txt]. *)
Lemma extension_of_padded_title :
  getDocumentExtension (onlyTitle (ls "a.txt ")) = Some (ls "txt")
  /\ extensionOf_spec (ls "a.txt ") = None.
Proof. split; reflexivity. Qed.

(** C7 (amended).  For every document, [getDocumentExtension] returns the
    lower-case form of what follows the last dot of the title taken without
    its leading and trailing white space, provided that part is non-empty
    and alphanumeric throughout, and [null] when the trimmed title has no
    dot or the part is not alphanumeric throughout; the result does not
    depend on the letter case of the title, so [Notes.TXT] and [notes.txt]
    both yield [txt], [my.file.name] yields [name] and [noext] yields
    [null]. *)
Theorem getDocumentExtension_spec (doc : Document) :
  getDocumentExtension doc = extensionOf_spec (trim (titleOf doc))
  /\ getDocumentExtension doc
     = getDocumentExtension (onlyTitle (toLowerCase (titleOf doc)))
  /\ getDocumentExtension (onlyTitle (ls "Notes.TXT")) = Some (ls "txt")
  /\ getDocumentExtension (onlyTitle (ls "notes.txt")) = Some (ls "txt")
  /\ getDocumentExtension (onlyTitle (ls "my.file.name")) = Some (ls "name")
  /\ getDocumentExtension (onlyTitle (ls "noext")) = None.
Proof.
  split; [apply getDocumentExtension_trimmed|].
  split; [|repeat split; reflexivity].
  rewrite !getDocumentExtension_trimmed.
  change (titleOf (onlyTitle (toLowerCase (titleOf doc))))
    with (toLowerCase (titleOf doc)).
  now rewrite trim_lower, extensionOf_spec_lower.
Qed.

(** ** The AI provider call *)




(** ** The debounced save of an editing surface *)

(** C9.  In the save protocol of an editing surface every edit cancels the
    pending debounce timer, if any, before it schedules the new save 600 ms
    ahead, so that at most one debounced save is ever pending; and the
    saves a surface performs are those of the one-slot debounce: when the
    timer fires, the content written to the store by [updateDocument] is
    that of the most recent edit, never that of an edit it superseded. *)
Theorem debounce_one_pending_latest_content
        (k : Surface.kind) (st : EditorState) (inputs : list Surface.input) :
  let out := Surface.run k (Surface.mount st) inputs in
  snd out = debounce_spec (activeDocumentId st) 0 None inputs
  /\ length (Surface.pending (fst out)) <= 1
  /\ (forall s latest c, holds s latest ->
        exists h,
          Surface.pending (Surface.onEdit k c s)
          = [Surface.mkTimer h (Surface.clock s + 600) (Surface.activeId s) c])
  /\ (forall t store now d,
        Surface.savedFor t = Some d -> truthy d = true ->
        exists doc,
          lookup (documents (fst (Surface.callback k t store now))) d = Some doc
          /\ content doc = Some (Surface.savedContent t)).
Proof.
  cbv zeta.
  destruct (run_debounce k inputs (Surface.mount st) None (holds_mount st))
    as [E L].
  split; [exact E|]. split; [exact L|]. split.
  - intros s latest c H.
    destruct (holds_edit k s latest c H) as ((_ & h & _ & _ & Hp) & _).
    exists h. exact Hp.
  - intros t store now d Hd Ht. unfold Surface.callback. rewrite Hd, Ht.
    eexists. split.
    + destruct k; cbn [fst updateEditorStats set_stats documents];
        unfold updateDocument; cbn [documents set_documents];
        rewrite lookup_set_key, str_eqb_refl; reflexivity.
    + reflexivity.
Qed.

Lemma debounce_one_pending_latest_content_witness :
  snd (Surface.run Surface.PlainText
         (Surface.mount (state_of sample_tree (Some (ls "note"))))
         sample_session)
  = [Surface.mkSave (ls "note") (ls "Hello world")]
  /\ holds (Surface.mount (state_of sample_tree (Some (ls "note")))) None
  /\ exists h,
       Surface.pending
         (Surface.onEdit Surface.PlainText (ls "Hello")
            (Surface.mount (state_of sample_tree (Some (ls "note")))))
       = [Surface.mkTimer h 600 (Some (ls "note")) (ls "Hello")].
Proof.
  destruct (debounce_one_pending_latest_content Surface.PlainText
              (state_of sample_tree (Some (ls "note"))) sample_session)
    as (E & _ & Hedit & _).
  split; [exact E|]. split; [apply holds_mount|].
  exact (Hedit _ None (ls "Hello") (holds_mount _)).
Defined.

(** ** Content converter: no markup from the text *)

(** C10.  For every input string, [plainTextToHtml] replaces every
    occurrence of the characters & < > and the two quotes by its entity
    form, and no markup comes from the input.  The escaped text is the
    entity form of every character of the input, and holds no [<], no
    [>] and no quote.  The output is the rendering of a sequence of
    parts laid out over the input: every part is either one character of
    the input, written as its entity form, or a marker; the characters
    of the input among the parts are those of the input without its
    newlines, each once and in its place; every marker is [<p>], [</p>]
    or [<br>].  So every [<] of the output opens one of these markers,
    and the output has as many [<] as it has markers: none comes from
    the input. *)
Theorem plainTextToHtml_no_injection (t : str) :
  escape t = flat_map entity t
  /\ forallb inert (escape t) = true
  /\ lt_in_markers (plainTextToHtml t) = true
  /\ plainTextToHtml t = render (layout t)
  /\ from_input (layout t) = filter (fun c => negb (is_LF c)) t
  /\ (forall m, In m (markers (layout t)) ->
                m = ls "<p>" \/ m = ls "</p>" \/ m = ls "<br>")
  /\ length (filter (is_chr "<") (plainTextToHtml t))
     = length (markers (layout t)).
Proof.
  split; [apply escape_entities|]. split; [apply escape_inert|].
  split; [apply plainTextToHtml_markers|].
  split; [apply plainTextToHtml_layout|].
  split; [apply from_input_layout|].
  split; [apply markers_layout|].
  rewrite plainTextToHtml_layout. apply lt_count, markers_layout.
Qed.

(* ===================================================================== *)
(** * Further properties of the content converter                         *)
(* ===================================================================== *)

Section PlainTextShape.

Lemma trailing_match (s : str) (k : nat) :
  m_trailing_space s = Some k -> 1 <= k <= length s.
Proof.
  revert k. induction s as [|c r IH]; intros k; cbn [m_trailing_space];
    [discriminate|].
  destruct (is_space c); [|discriminate].
  destruct (m_trailing_space r) as [n|] eqn:E.
  - intros [= <-]. specialize (IH n eq_refl). simpl. lia.
  - destruct (at_line_end r); [|discriminate]. intros [= <-]. simpl. lia.
Qed.

Lemma trailing_miss (c : ascii) (r : str) :
  m_trailing_space (c :: r) = None -> is_space c = true ->
  m_trailing_space r = None /\ at_line_end r = false.
Proof.
  cbn [m_trailing_space]. intros H Hc. rewrite Hc in H.
  destruct (m_trailing_space r); [discriminate|].
  destruct (at_line_end r); [discriminate|]. auto.
Qed.

(** After the step that deletes [/\s+$/gm] no white space is left at a
    line end. *)
Lemma trailing_clean (s : str) :
  no_space_at_line_end (replace_all m_trailing_space [] s) = true.
Proof.
  remember (length s) as n eqn:Hn. revert s Hn.
  induction n as [n IH] using lt_wf_ind. intros s Hn.
  destruct s as [|c r]; [reflexivity|].
  destruct (m_trailing_space (c :: r)) as [k|] eqn:E.
  - pose proof (trailing_match _ _ E) as Hk.
    destruct k as [|k]; [lia|]. simpl in Hk.
    assert (Hs : c :: r = c :: firstn k r ++ skipn k r)
      by (now rewrite firstn_skipn).
    assert (Hl : length (firstn k r) = k) by (rewrite length_firstn; lia).
    rewrite Hs. rewrite replace_all_hit.
    + simpl app. apply (IH (length (skipn k r))); [|reflexivity].
      subst n. simpl. rewrite length_skipn. lia.
    + rewrite <- Hs, Hl. exact E.
  - rewrite replace_all_miss by exact E.
    assert (Hr : no_space_at_line_end (replace_all m_trailing_space [] r) = true).
    { apply (IH (length r)); [subst n; simpl; lia|reflexivity]. }
    cbn [no_space_at_line_end]. rewrite Hr, andb_true_r.
    destruct (is_space c) eqn:Hc; [|reflexivity].
    destruct (trailing_miss c r E Hc) as [Er Hend].
    destruct r as [|x r']; [discriminate|].
    rewrite replace_all_miss by exact Er. simpl in *. now rewrite Hend.
Qed.

Lemma no_space_at_line_end_trimStart (s : str) :
  no_space_at_line_end s = true -> no_space_at_line_end (trimStart s) = true.
Proof.
  induction s as [|c r IH]; [auto|]. intros H. simpl trimStart.
  destruct (is_space c); [|exact H].
  apply IH. now apply no_space_at_line_end_tail in H.
Qed.

Lemma no_space_at_line_end_trim (s : str) :
  no_space_at_line_end s = true -> no_space_at_line_end (trim s) = true.
Proof.
  intros H. unfold trim.
  pose proof (no_space_at_line_end_trimStart s H) as H'.
  now rewrite (trimEnd_fixed _ (no_space_at_line_end_last _ H')).
Qed.

(** What comes out of [htmlToPlainText] has no white space in front, at
    the end, or at the end of any line. *)
Lemma htmlToPlainText_shape (html : str) :
  starts_space (htmlToPlainText html) = false
  /\ no_space_at_line_end (htmlToPlainText html) = true.
Proof.
  unfold htmlToPlainText. destruct (truthy (trim html)); cbn [negb].
  - split; [apply starts_space_trim|].
    apply no_space_at_line_end_trim, trailing_clean.
  - split; reflexivity.
Qed.

Lemma trailing_quiet (u : str) :
  no_space_at_line_end u = true -> m_trailing_space u = None.
Proof.
  induction u as [|c r IH]; [reflexivity|].
  intros H. cbn [m_trailing_space]. simpl in H.
  apply andb_true_iff in H as [Hc Hr]. rewrite (IH Hr).
  destruct (is_space c); [|reflexivity].
  simpl in Hc. now destruct (at_line_end r).
Qed.

(** A text that is already in that shape, and holds neither [<] nor [&],
    is left as it is. *)
Lemma htmlToPlainText_fixed (t : str) :
  (forall c, In c t -> is_chr "<" c = false) ->
  (forall c, In c t -> is_chr "&" c = false) ->
  starts_space t = false -> no_space_at_line_end t = true ->
  htmlToPlainText t = t.
Proof.
  intros Hlt Hamp Hst Hend.
  pose proof (no_space_at_line_end_last t Hend) as Hlast.
  assert (Htrim : trim t = t).
  { unfold trim. now rewrite (trimStart_fixed t Hst), (trimEnd_fixed t Hlast). }
  unfold htmlToPlainText. rewrite Htrim.
  destruct t as [|c r]; [reflexivity|]. cbn [truthy negb].
  set (t := c :: r) in *.
  rewrite (replace_all_untouched (fun x => is_chr "<" x) m_block [LF] t
             block_needs_lt Hlt).
  rewrite (replace_all_untouched (fun x => is_chr "<" x) m_br [LF] t
             br_needs_lt Hlt).
  rewrite (replace_all_untouched (fun x => is_chr "<" x) m_tag [] t
             tag_needs_lt Hlt).
  rewrite (replace_all_untouched (fun x => is_chr "&" x)
             (m_lit (ls "&nbsp;")) (ls " ") t
             (lit_needs_head "&" (ls "nbsp;")) Hamp).
  rewrite (replace_all_untouched (fun x => is_chr "&" x)
             (m_lit (ls "&amp;")) (ls "&") t
             (lit_needs_head "&" (ls "amp;")) Hamp).
  rewrite (replace_all_untouched (fun x => is_chr "&" x)
             (m_lit (ls "&lt;")) (ls "<") t
             (lit_needs_head "&" (ls "lt;")) Hamp).
  rewrite (replace_all_untouched (fun x => is_chr "&" x)
             (m_lit (ls "&gt;")) (ls ">") t
             (lit_needs_head "&" (ls "gt;")) Hamp).
  rewrite (replace_all_untouched (fun x => is_chr "&" x)
             (m_lit (ls "&quot;")) [DQ] t
             (lit_needs_head "&" (ls "quot;")) Hamp).
  rewrite (replace_all_untouched (fun x => is_chr "&" x)
             (m_alt (m_lit (ls "&#39;")) (m_lit (ls "&apos;"))) (ls "'") t
             (alt_needs _ _ _ (lit_needs_head "&" (ls "#39;"))
                              (lit_needs_head "&" (ls "apos;"))) Hamp).
  rewrite (replace_all_quiet (m_run is_LF 3) [LF; LF] t).
  - rewrite (replace_all_quiet m_trailing_space [] t); [exact Htrim|].
    intros n. apply trailing_quiet. now apply no_space_at_line_end_skipn.
  - intros n. unfold m_run.
    pose proof (newline_runs_short _ (no_space_at_line_end_skipn n t Hend)) as L.
    destruct (3 <=? run_length is_LF (skipn n t)) eqn:E; [|reflexivity].
    apply Nat.leb_le in E. lia.
Qed.

End PlainTextShape.

Section EntityRoundTrip.

Lemma replace_all_clear (m : matcher) (rep x s : str) :
  clear_of m x -> replace_all m rep (x ++ s) = x ++ replace_all m rep s.
Proof.
  induction x as [|c x IH]; intros H; [reflexivity|].
  simpl app. rewrite replace_all_miss.
  - f_equal. apply IH. intros k rest Hk. apply (H (S k) rest). simpl. lia.
  - apply (H 0 s). simpl. lia.
Qed.

(** One replacement over a text written character by character: every
    character's form is either taken whole by the expression and
    replaced, or holds no start of a match. *)
Lemma replace_all_blocks (m : matcher) (rep : str) (e e' : ascii -> str)
      (t : str) :
  (forall c, In c t ->
             (cut_by m (e c) /\ e' c = rep)
             \/ (clear_of m (e c) /\ e' c = e c)) ->
  replace_all m rep (flat_map e t) = flat_map e' t.
Proof.
  induction t as [|c r IH]; intros H; [reflexivity|].
  cbn [flat_map].
  assert (Hr : replace_all m rep (flat_map e r) = flat_map e' r)
    by (apply IH; intros x Hx; apply H; now right).
  destruct (H c (or_introl eq_refl)) as [[(a & w & Ea & Hm) E'] | [Hc E']].
  - rewrite Ea, E'. simpl app. rewrite (replace_all_hit m rep a w _ (Hm _)).
    now rewrite Hr.
  - rewrite E', (replace_all_clear m rep _ _ Hc). now rewrite Hr.
Qed.

Ltac settle_clear :=
  let k := fresh "k" in
  let rest := fresh "rest" in
  let Hk := fresh "Hk" in
  intros k rest Hk;
  do 7 (destruct k as [|k];
        [first [reflexivity | exfalso; cbv in Hk; lia]|]);
  exfalso; cbv in Hk; lia.

Ltac settle_form :=
  first
    [ right; split; [settle_clear | reflexivity]
    | left; split;
      [ eexists; eexists; split; [reflexivity | intros ?; reflexivity]
      | reflexivity ] ].

Lemma stage_nbsp (c : ascii) :
  is_chr "&" c = false ->
  (cut_by (m_lit (ls "&nbsp;")) (entity_after 0 c)
   /\ entity_after 0 c = ls " ")
  \/ (clear_of (m_lit (ls "&nbsp;")) (entity_after 0 c)
      /\ entity_after 0 c = entity_after 0 c).
Proof.
  destruct c as [[] [] [] [] [] [] [] []]; intros H; try discriminate H;
    settle_form.
Qed.

Lemma stage_amp (c : ascii) :
  is_chr "&" c = false ->
  (cut_by (m_lit (ls "&amp;")) (entity_after 0 c)
   /\ entity_after 0 c = ls "&")
  \/ (clear_of (m_lit (ls "&amp;")) (entity_after 0 c)
      /\ entity_after 0 c = entity_after 0 c).
Proof.
  destruct c as [[] [] [] [] [] [] [] []]; intros H; try discriminate H;
    settle_form.
Qed.

Lemma stage_lt (c : ascii) :
  is_chr "&" c = false ->
  (cut_by (m_lit (ls "&lt;")) (entity_after 0 c)
   /\ entity_after 1 c = ls "<")
  \/ (clear_of (m_lit (ls "&lt;")) (entity_after 0 c)
      /\ entity_after 1 c = entity_after 0 c).
Proof.
  destruct c as [[] [] [] [] [] [] [] []]; intros H; try discriminate H;
    settle_form.
Qed.

Lemma stage_gt (c : ascii) :
  is_chr "&" c = false ->
  (cut_by (m_lit (ls "&gt;")) (entity_after 1 c)
   /\ entity_after 2 c = ls ">")
  \/ (clear_of (m_lit (ls "&gt;")) (entity_after 1 c)
      /\ entity_after 2 c = entity_after 1 c).
Proof.
  destruct c as [[] [] [] [] [] [] [] []]; intros H; try discriminate H;
    settle_form.
Qed.

Lemma stage_quot (c : ascii) :
  is_chr "&" c = false ->
  (cut_by (m_lit (ls "&quot;")) (entity_after 2 c)
   /\ entity_after 3 c = [DQ])
  \/ (clear_of (m_lit (ls "&quot;")) (entity_after 2 c)
      /\ entity_after 3 c = entity_after 2 c).
Proof.
  destruct c as [[] [] [] [] [] [] [] []]; intros H; try discriminate H;
    settle_form.
Qed.

Lemma stage_apos (c : ascii) :
  is_chr "&" c = false ->
  (cut_by (m_alt (m_lit (ls "&#39;")) (m_lit (ls "&apos;"))) (entity_after 3 c)
   /\ entity_after 4 c = ls "'")
  \/ (clear_of (m_alt (m_lit (ls "&#39;")) (m_lit (ls "&apos;")))
               (entity_after 3 c)
      /\ entity_after 4 c = entity_after 3 c).
Proof.
  destruct c as [[] [] [] [] [] [] [] []]; intros H; try discriminate H;
    settle_form.
Qed.

Lemma entity_after_0 (t : str) :
  (forall c, In c t -> is_chr "&" c = false) ->
  flat_map entity t = flat_map (entity_after 0) t.
Proof.
  induction t as [|c r IH]; intros H; [reflexivity|].
  cbn [flat_map]. rewrite IH by (intros x Hx; apply H; now right).
  f_equal. specialize (H c (or_introl eq_refl)).
  destruct c as [[] [] [] [] [] [] [] []]; try reflexivity; discriminate H.
Qed.

Lemma entity_after_4 (t : str) : flat_map (entity_after 4) t = t.
Proof.
  induction t as [|c r IH]; [reflexivity|].
  cbn [flat_map]. rewrite IH.
  destruct c as [[] [] [] [] [] [] [] []]; reflexivity.
Qed.

(** The decoding steps of [htmlToPlainText] undo the entities of a text
    without [&]. *)
Lemma decode_entities (t : str) :
  (forall c, In c t -> is_chr "&" c = false) ->
  replace_all (m_alt (m_lit (ls "&#39;")) (m_lit (ls "&apos;"))) (ls "'")
    (replace_all (m_lit (ls "&quot;")) [DQ]
      (replace_all (m_lit (ls "&gt;")) (ls ">")
        (replace_all (m_lit (ls "&lt;")) (ls "<")
          (replace_all (m_lit (ls "&amp;")) (ls "&")
            (replace_all (m_lit (ls "&nbsp;")) (ls " ")
               (flat_map entity t))))))
  = t.
Proof.
  intros H. rewrite (entity_after_0 t H).
  rewrite (replace_all_blocks _ _ (entity_after 0) (entity_after 0) t)
    by (intros c Hc; apply stage_nbsp, H, Hc).
  rewrite (replace_all_blocks _ _ (entity_after 0) (entity_after 0) t)
    by (intros c Hc; apply stage_amp, H, Hc).
  rewrite (replace_all_blocks _ _ (entity_after 0) (entity_after 1) t)
    by (intros c Hc; apply stage_lt, H, Hc).
  rewrite (replace_all_blocks _ _ (entity_after 1) (entity_after 2) t)
    by (intros c Hc; apply stage_gt, H, Hc).
  rewrite (replace_all_blocks _ _ (entity_after 2) (entity_after 3) t)
    by (intros c Hc; apply stage_quot, H, Hc).
  rewrite (replace_all_blocks _ _ (entity_after 3) (entity_after 4) t)
    by (intros c Hc; apply stage_apos, H, Hc).
  apply entity_after_4.
Qed.

Lemma no_space_entity_cons (c : ascii) (s : str) :
  no_space_at_line_end (entity c ++ s)
  = negb (is_space c && at_line_end s) && no_space_at_line_end s.
Proof. destruct c as [[] [] [] [] [] [] [] []]; reflexivity. Qed.

Lemma at_line_end_entity (t : str) :
  at_line_end (flat_map entity t) = at_line_end t.
Proof.
  destruct t as [|c r]; [reflexivity|].
  destruct c as [[] [] [] [] [] [] [] []]; reflexivity.
Qed.

Lemma no_space_entity (t : str) :
  no_space_at_line_end (flat_map entity t) = no_space_at_line_end t.
Proof.
  induction t as [|c r IH]; [reflexivity|].
  cbn [flat_map]. rewrite no_space_entity_cons, at_line_end_entity, IH.
  reflexivity.
Qed.

(** The markup of a text with no white space at a line end: one paragraph
    holding the entities, with line breaks. *)
Lemma plainTextToHtml_one_paragraph (c : ascii) (r : str) :
  no_space_at_line_end (c :: r) = true ->
  plainTextToHtml (c :: r)
  = ls "<p>" ++ with_breaks (flat_map entity (c :: r)) ++ ls "</p>".
Proof.
  intros Hend. unfold plainTextToHtml. cbn [truthy negb].
  rewrite escape_entities.
  rewrite split_one_paragraph by (now rewrite no_space_entity).
  assert (T : truthy (flat_map entity (c :: r)) = true).
  { cbn [flat_map]. destruct c as [[] [] [] [] [] [] [] []]; reflexivity. }
  set (e := flat_map entity (c :: r)) in *.
  unfold join, paragraph. cbn [map concat]. rewrite app_nil_r.
  rewrite replace_lit1. fold (with_breaks e).
  now rewrite with_breaks_truthy, T.
Qed.

Lemma round_trip_without_amp (t : str) :
  plain_without_amp t = true -> htmlToPlainText (plainTextToHtml t) = t.
Proof.
  destruct t as [|c r]; [reflexivity|].
  intros H. unfold plain_without_amp in H.
  apply andb_true_iff in H as [H Hend]. apply andb_true_iff in H as [Hamp Hst].
  apply negb_true_iff in Hst.
  rewrite (plainTextToHtml_one_paragraph c r Hend).
  set (t := c :: r) in *.
  assert (Hamp' : forall x, In x (LF :: t ++ [LF]) -> is_chr "&" x = false).
  { intros x [<- | Hx]; [reflexivity|].
    apply in_app_or in Hx as [Hx | [<- | []]]; [|reflexivity].
    rewrite forallb_forall in Hamp. apply negb_true_iff. now apply Hamp. }
  assert (Hlt : forall x, In x (flat_map entity t) -> is_chr "<" x = false).
  { intros x Hx. pose proof (escape_inert t) as Hi.
    rewrite escape_entities, forallb_forall in Hi. specialize (Hi x Hx).
    unfold inert in Hi. apply negb_true_iff in Hi.
    now destruct (is_chr "<" x). }
  assert (Hlt' : forall x, In x (LF :: flat_map entity t ++ [LF]) ->
                           is_chr "<" x = false).
  { intros x [<- | Hx]; [reflexivity|].
    apply in_app_or in Hx as [Hx | [<- | []]]; [auto|reflexivity]. }
  unfold htmlToPlainText.
  assert (Htr : truthy (trim (ls "<p>" ++ with_breaks (flat_map entity t)
                              ++ ls "</p>")) = true)
    by (now rewrite truthy_trim).
  rewrite Htr. cbn [negb].
  rewrite (block_paragraph _ Hlt).
  rewrite (replace_all_untouched (fun x => is_chr "<" x) m_br [LF] _
             br_needs_lt Hlt').
  rewrite (replace_all_untouched (fun x => is_chr "<" x) m_tag [] _
             tag_needs_lt Hlt').
  change (LF :: flat_map entity t ++ [LF])
    with (entity LF ++ flat_map entity t ++ [LF]).
  change [LF] with (flat_map entity [LF]) at 2.
  rewrite <- flat_map_app.
  change (entity LF ++ flat_map entity (t ++ [LF]))
    with (flat_map entity (LF :: t ++ [LF])).
  rewrite (decode_entities _ Hamp').
  rewrite (replace_all_quiet (m_run is_LF 3) [LF; LF] _
             (fun n => no_long_newline_run t n Hend)).
  rewrite (trailing_strip_framed t) by (try assumption; discriminate).
  apply trim_framed; [assumption|].
  now apply no_space_at_line_end_last.
Qed.

End EntityRoundTrip.

Section MarkupShape.

Lemma paragraph_no_newline (p : str) (c : ascii) :
  In c (paragraph p) -> is_LF c = false.
Proof.
  unfold paragraph. rewrite replace_lit1.
  set (wb := flat_map _ p).
  assert (Hwb : forall x, In x wb -> is_LF x = false).
  { intros x Hx. apply in_flat_map in Hx as (y & _ & Hy).
    destruct (is_chr LF y) eqn:E.
    - simpl in Hy. destruct Hy as [<- | [<- | [<- | [<- | []]]]]; reflexivity.
    - destruct Hy as [<- | []]. exact E. }
  intros H. apply in_app_or in H as [H | H].
  - simpl in H. destruct H as [<- | [<- | [<- | []]]]; reflexivity.
  - apply in_app_or in H as [H | H].
    + destruct (truthy wb); [now apply Hwb|].
      simpl in H. destruct H as [<- | [<- | [<- | [<- | []]]]]; reflexivity.
    + simpl in H. destruct H as [<- | [<- | [<- | [<- | []]]]]; reflexivity.
Qed.

Lemma paragraphs_framed (ps : list str) :
  ps <> [] ->
  exists body, join (map paragraph ps) = ls "<p>" ++ body ++ ls "</p>".
Proof.
  induction ps as [|p ps IH]; [congruence|]. intros _.
  unfold join. cbn [map concat]. unfold paragraph at 1.
  set (b := if truthy _ then _ else _).
  destruct ps as [|q ps].
  - exists b. cbn [map concat]. now rewrite app_nil_r.
  - destruct IH as (body & E); [discriminate|].
    unfold join in E. rewrite E.
    exists (b ++ ls "</p>" ++ ls "<p>" ++ body).
    now rewrite <- !app_assoc.
Qed.

Lemma after_last_app (a : ascii) (p s : str) :
  existsb (is_chr a) s = false -> after_last a (p ++ a :: s) = s.
Proof.
  intros Hs. induction p as [|c p IH].
  - simpl. rewrite Hs. now rewrite (proj2 (is_chr_true a a) eq_refl).
  - simpl. rewrite existsb_app. simpl.
    rewrite (proj2 (is_chr_true a a) eq_refl), orb_true_r. exact IH.
Qed.

Lemma alnum_not_dot (c : ascii) : is_alnum c = true -> is_chr "." c = false.
Proof. destruct c as [[] [] [] [] [] [] [] []]; try reflexivity; discriminate. Qed.

Lemma alnum_no_dot (s : str) :
  forallb is_alnum s = true -> existsb (is_chr ".") s = false.
Proof.
  induction s as [|c r IH]; [reflexivity|]. simpl. intros H.
  apply andb_true_iff in H as [Hc Hr]. now rewrite (alnum_not_dot c Hc), IH.
Qed.

Lemma toLowerCase_app (a b : str) :
  toLowerCase (a ++ b) = toLowerCase a ++ toLowerCase b.
Proof. apply map_app. Qed.

End MarkupShape.

(* ===================================================================== *)
(** * Further properties of the document store                            *)
(* ===================================================================== *)

Section StoreFacts.

Lemma filter_all {A} (P : A -> bool) (l : list A) :
  (forall a, In a l -> P a = true) -> filter P l = l.
Proof.
  induction l as [|a l IH]; intros H; [reflexivity|]. simpl.
  rewrite (H a (or_introl eq_refl)). f_equal. apply IH.
  intros b Hb. apply H. now right.
Qed.

Lemma In_keys (docs : table) (k : str) (d : Document) :
  In (k, d) docs -> In k (keys docs).
Proof. intros H. apply in_map_iff. now exists (k, d). Qed.

Lemma lookup_some_key (docs : table) (k : str) :
  lookup docs k <> None <-> In k (keys docs).
Proof.
  pose proof (lookup_keys docs k) as H.
  destruct (lookup docs k) as [d|] eqn:E.
  - split; [|discriminate]. intros _.
    apply lookup_In in E. now apply In_keys in E.
  - split; [congruence|]. intros Hin. now apply H in Hin.
Qed.

(** What [deleteDocument] returns, on a well-formed table without cycles. *)
Lemma deleteDocument_filter (st : EditorState) (root : str) (fuel : nat) :
  well_formed (documents st) -> acyclic (documents st) ->
  length (documents st) < fuel ->
  exists keep : str -> bool,
    deleteDocument fuel root st
    = Some (set_documents st
              (filter (fun kv => keep (fst kv)) (documents st))
              (if same_id (activeDocumentId st) root
               then first_or_null
                      (keys (filter (fun kv => keep (fst kv)) (documents st)))
               else activeDocumentId st))
    /\ forall k, keep k = false <-> doomed (documents st) root k.
Proof.
  intros Hwf Hac Hfuel.
  destruct (deleteRecursive_spec (height (documents st)) fuel (documents st) root
              Hwf (acyclic_measured (documents st) Hac))
    as (keep & E & Hkeep).
  { pose proof (height_bound (documents st) root). lia. }
  exists keep. split; [|exact Hkeep].
  unfold deleteDocument. now rewrite E.
Qed.

Lemma doomed_child (docs : table) (root k p : str) :
  parent_of docs k = Some p -> doomed docs root p -> doomed docs root k.
Proof.
  intros Hp [-> | H]; right.
  - now apply descends_child.
  - eapply descends_step; eauto.
Qed.

Lemma closed_filter (docs : table) (root : str) (keep : str -> bool) :
  closed docs ->
  (forall k, keep k = false <-> doomed docs root k) ->
  closed (filter (fun kv => keep (fst kv)) docs).
Proof.
  intros Hcl Hkeep k p. rewrite parent_of_filter, lookup_filter.
  destruct (keep k) eqn:Ek; [|discriminate]. intros Hp.
  destruct (keep p) eqn:Ep; [now apply (Hcl k)|].
  apply Hkeep in Ep. apply (doomed_child _ _ k p Hp) in Ep.
  apply Hkeep in Ep. congruence.
Qed.

(** With no reference to a missing parent, nothing hangs below an id that
    is not in the table. *)
Lemma doomed_unknown (docs : table) (root k : str) :
  closed docs -> lookup docs root = None ->
  In k (keys docs) -> ~ doomed docs root k.
Proof.
  intros Hcl Hroot Hk [-> | H].
  - now apply lookup_keys in Hroot.
  - apply descends_last in H as (c & Hc & _). now apply Hcl in Hc.
Qed.


Lemma same_id_true (a : option str) (k : str) :
  same_id a k = true <-> a = Some k.
Proof.
  destruct a as [x|]; simpl; [|split; discriminate].
  rewrite str_eqb_eq. split; congruence.
Qed.

Lemma keys_replace_value (k : str) (v : Document) (docs : table) :
  keys (replace_value k v docs) = keys docs.
Proof.
  induction docs as [|[k1 d] r IH]; [reflexivity|]. simpl.
  destruct (str_eqb k1 k); simpl; [reflexivity|]. now rewrite IH.
Qed.

Lemma keys_set_key_known (docs : table) (k : str) (v d : Document) :
  lookup docs k = Some d -> keys (set_key docs k v) = keys docs.
Proof. intros H. unfold set_key. rewrite H. apply keys_replace_value. Qed.

Lemma descends_ext (a b : table) (x y : str) :
  (forall k, parent_of a k = parent_of b k) ->
  descends a x y -> descends b x y.
Proof.
  intros E H. induction H as [k p H | k p q H _ IH].
  - apply descends_child. now rewrite <- E.
  - eapply descends_step; [|exact IH]. now rewrite <- E.
Qed.

Lemma delete_insert_index (n : N) (k : str) (v : Document) (docs : table) :
  lookup docs k = None -> delete k (insert_index n k v docs) = docs.
Proof.
  unfold delete. intros H.
  assert (Hd : filter (fun kv => negb (str_eqb (fst kv) k)) docs = docs).
  { apply filter_all. intros [k1 d1] Hin. simpl.
    destruct (str_eqb k1 k) eqn:E; [|reflexivity].
    apply str_eqb_eq in E. subst k1.
    apply lookup_keys in H. elim H. now apply In_keys in Hin. }
  clear H. revert Hd.
  induction docs as [|[k1 d1] r IH]; intros Hd.
  - simpl. now rewrite str_eqb_refl.
  - assert (E1 : str_eqb k1 k = false).
    { destruct (str_eqb k1 k) eqn:E; [|reflexivity].
      simpl in Hd. rewrite E in Hd. simpl in Hd.
      assert (L : length (filter (fun kv => negb (str_eqb (fst kv) k)) r)
                  <= length r) by apply filter_length_le.
      rewrite Hd in L. simpl in L. lia. }
    assert (Hr : filter (fun kv => negb (str_eqb (fst kv) k)) r = r).
    { simpl in Hd. rewrite E1 in Hd. simpl in Hd. congruence. }
    assert (Hall : filter (fun kv => negb (str_eqb (fst kv) k))
                          ((k, v) :: (k1, d1) :: r) = (k1, d1) :: r).
    { simpl. now rewrite str_eqb_refl, E1, Hr. }
    cbn [insert_index].
    destruct (array_index k1) as [n1|]; [destruct (n1 <? n)%N|];
      try exact Hall.
    simpl. rewrite E1. simpl. f_equal. now apply IH.
Qed.

Lemma delete_set_key (docs : table) (k : str) (v : Document) :
  lookup docs k = None -> delete k (set_key docs k v) = docs.
Proof.
  intros H. unfold set_key. rewrite H.
  destruct (array_index k) as [n|]; [now apply delete_insert_index|].
  unfold delete. rewrite filter_app. simpl. rewrite str_eqb_refl. simpl.
  rewrite app_nil_r. apply filter_all. intros [k1 d1] Hin. simpl.
  destruct (str_eqb k1 k) eqn:E; [|reflexivity].
  apply str_eqb_eq in E. subst k1.
  apply lookup_keys in H. elim H. now apply In_keys in Hin.
Qed.

Lemma forEach_nothing (visit : table -> Document -> option table)
      (q : Document -> bool) (snapshot : list Document) (cur : table) :
  (forall d, In d snapshot -> q d = false) ->
  forEach (fun c d => if q d then visit c d else Some c) snapshot cur
  = Some cur.
Proof.
  induction snapshot as [|d r IH]; intros H; [reflexivity|].
  cbn [forEach]. rewrite (H d (or_introl eq_refl)).
  apply IH. intros x Hx. apply H. now right.
Qed.

(** A document nobody names as parent is deleted alone. *)
Lemma deleteRecursive_leaf (fuel : nat) (docs : table) (k : str) :
  (forall d, In d (values docs) -> parent_is d (Some k) = false) ->
  deleteRecursive (S fuel) docs (Some k) = Some (delete k docs).
Proof.
  intros H. cbn [deleteRecursive].
  rewrite (forEach_nothing
             (fun cur d => deleteRecursive fuel cur (id d))
             (fun d => parent_is d (Some k)) (values docs) docs H).
  reflexivity.
Qed.

Lemma values_perm (a b : table) :
  Permutation a b -> forall d, In d (values a) -> In d (values b).
Proof.
  intros P d. unfold values. apply Permutation_in. now apply Permutation_map.
Qed.

Lemma parent_is_parent_of (docs : table) (k x : str) (d : Document) :
  NoDup (keys docs) -> In (k, d) docs ->
  parent_is d (Some x) = true -> parent_of docs k = Some x.
Proof.
  intros Hnd Hin H. unfold parent_of. rewrite (In_lookup docs k d Hnd Hin).
  unfold parent_is in H. destruct (parentId d) as [[p|]|]; try discriminate.
  apply str_eqb_eq in H. now subst.
Qed.

Lemma nobody_names_fresh (docs : table) (k : str) :
  well_formed docs -> closed docs -> lookup docs k = None ->
  forall d, In d (values docs) -> parent_is d (Some k) = false.
Proof.
  intros [Hnd _] Hcl Hk d Hd. apply in_map_iff in Hd as ([k1 d1] & <- & Hin).
  simpl. destruct (parent_is d1 (Some k)) eqn:E; [|reflexivity].
  apply (parent_is_parent_of docs k1 k d1 Hnd Hin) in E.
  now apply Hcl in E.
Qed.

Lemma createDocument_closed (newId : str) (now : Z) (parent : option str)
      (folder : bool) (st : EditorState) :
  closed (documents st) -> known_parent (documents st) parent ->
  closed (documents (fst (createDocument newId now parent folder st))).
Proof.
  intros Hcl Hpar k p. unfold createDocument.
  cbn [fst documents set_documents]. unfold parent_of.
  rewrite !lookup_set_key.
  destruct (str_eqb newId p) eqn:Ep; [discriminate|].
  destruct (str_eqb newId k) eqn:Ek.
  - cbn [parentId]. destruct parent as [q|]; [|discriminate].
    intros [= ->]. exact Hpar.
  - intros H. now apply (Hcl k).
Qed.

Lemma sample_tree_sound : sound sample_tree.
Proof.
  split; [exact sample_tree_well_formed|].
  split; [exact sample_tree_acyclic|].
  intros k p. unfold parent_of, sample_tree. cbn [lookup].
  destruct (str_eqb (ls "folder") k); [discriminate|].
  destruct (str_eqb (ls "inner") k); [intros [= <-]; discriminate|].
  destruct (str_eqb (ls "note") k); [intros [= <-]; discriminate|].
  destruct (str_eqb (ls "other") k); discriminate.
Qed.

Lemma updateDocument_lookup (now : Z) (k k' : str) (updates : Document)
      (st : EditorState) :
  lookup (documents (updateDocument now k updates st)) k'
  = if str_eqb k k'
    then Some (spread (spread (stored (documents st) k) updates)
                      (onlyUpdatedAt now))
    else lookup (documents st) k'.
Proof.
  unfold updateDocument. cbn [documents set_documents].
  apply lookup_set_key.
Qed.

Lemma updateDocument_parent_of (now : Z) (k k' : str) (updates d : Document)
      (st : EditorState) :
  lookup (documents st) k = Some d -> parentId updates = None ->
  parent_of (documents (updateDocument now k updates st)) k'
  = parent_of (documents st) k'.
Proof.
  intros Hk Hp. unfold parent_of. rewrite updateDocument_lookup.
  destruct (str_eqb k k') eqn:E; [|reflexivity].
  apply str_eqb_eq in E. subst k'. unfold stored. rewrite Hk.
  cbn [spread parentId onlyUpdatedAt orElse]. now rewrite Hp.
Qed.

End StoreFacts.

(* ===================================================================== *)
(** * Statistics, word counts and the status bar                          *)
(* ===================================================================== *)

Section CountFacts.

Lemma run_starts_after_space (b : bool) (s : str) :
  starts_space s = true ->
  run_starts not_space b s = run_starts not_space false s.
Proof.
  destruct s as [|c r]; [discriminate|]. simpl. intros H.
  unfold not_space. now rewrite H.
Qed.

Lemma run_starts_collapse (b : bool) (s : str) :
  run_starts not_space b (collapse s) = run_starts not_space b s.
Proof.
  revert b. induction s as [|c r IH]; intros b; [reflexivity|].
  cbn [collapse]. destruct (is_space c) eqn:Hc.
  - cbn [run_starts]. unfold not_space at 2. rewrite Hc. cbn [negb].
    destruct (starts_space r) eqn:Hr.
    + rewrite IH. now apply run_starts_after_space.
    + cbn [run_starts]. unfold not_space at 1.
      change (is_space " ") with true. cbn [negb]. apply IH.
  - cbn [run_starts]. now rewrite !IH.
Qed.

Lemma count_words_collapse (s : str) :
  count_words (collapse s) = count_words s.
Proof. apply run_starts_collapse. Qed.

Lemma run_starts_le (p : ascii -> bool) (b : bool) (s : str) :
  run_starts p b s <= length s.
Proof.
  revert b. induction s as [|c r IH]; intros b; simpl; [lia|].
  destruct (p c).
  - specialize (IH true). destruct b; lia.
  - specialize (IH false). lia.
Qed.

Lemma count_words_le (s : str) : count_words s <= length s.
Proof. apply run_starts_le. Qed.

Lemma count_words_zero (s : str) :
  count_words s = 0 <-> existsb not_space s = false.
Proof.
  unfold count_words, count_runs.
  induction s as [|c r IH]; [tauto|]. simpl.
  destruct (not_space c); simpl; [split; discriminate|exact IH].
Qed.

Lemma length_trimStart (s : str) : length (trimStart s) <= length s.
Proof.
  induction s as [|c r IH]; simpl; [lia|].
  destruct (is_space c); simpl; lia.
Qed.

Lemma length_trim (s : str) : length (trim s) <= length s.
Proof.
  unfold trim, trimEnd. rewrite length_rev.
  pose proof (length_trimStart (rev (trimStart s))) as A.
  rewrite length_rev in A. pose proof (length_trimStart s). lia.
Qed.

Lemma length_collapse (s : str) : length (collapse s) <= length s.
Proof.
  induction s as [|c r IH]; cbn [collapse length]; [lia|].
  destruct (is_space c); [destruct (starts_space r)|]; cbn [length]; lia.
Qed.

Lemma length_retag (inside : bool) (s : str) :
  length (retag (ls " ") inside s) <= length s.
Proof.
  change (ls " ") with [" "].
  revert inside. induction s as [|c r IH]; intros inside;
    cbn [retag length]; [lia|].
  destruct inside.
  - destruct (is_chr ">" c).
    + specialize (IH false). lia.
    + specialize (IH true). lia.
  - destruct (is_chr "<" c && existsb (is_chr ">") r).
    + specialize (IH true). cbn [app length]. lia.
    + specialize (IH false). cbn [length]. lia.
Qed.

Lemma length_plain_text (content : str) :
  length (plain_text (ls " ") content) <= length content.
Proof.
  unfold plain_text.
  pose proof (length_trim (collapse (retag (ls " ") false content))).
  pose proof (length_collapse (retag (ls " ") false content)).
  pose proof (length_retag false content). lia.
Qed.

Lemma count_words_plain_text (content : str) :
  count_words (plain_text (ls " ") content)
  = count_words (retag (ls " ") false content).
Proof.
  unfold plain_text. now rewrite count_words_trim, count_words_collapse.
Qed.

(** The words the store counts for a content. *)
Lemma editorWordCount_words (content : str) (st : EditorState) :
  editorWordCount (updateEditorStats content st)
  = count_words (plain_text (ls " ") content).
Proof.
  unfold updateEditorStats. cbn [editorWordCount set_stats].
  rewrite statsText_plain_text.
  apply stats_words; [apply starts_space_trim|apply ends_space_trim].
Qed.

Lemma health_score_range (w : nat) (content : str) :
  (existsb not_space content = false -> health_score w content = 0)
  /\ (existsb not_space content = true ->
      40 <= health_score w content <= 100
      /\ health_score w content mod 5 = 0
      /\ (75 <= health_score w content -> 100 <= w)).
Proof.
  unfold health_score. split; intros H; rewrite H; [reflexivity|].
  destruct (100 <=? w) eqn:E100; destruct (300 <=? w) eqn:E300;
    destruct (w <? 25 * _);
    destruct (_ || _ || _); destruct (_ || _); destruct (_ || _);
    cbn [bonus Nat.add Nat.min];
    (split; [lia|split; [reflexivity|]]);
    intros L;
    first [ apply Nat.leb_le in E100; exact E100
          | exfalso; lia
          | exfalso; apply Nat.leb_le in E300; apply Nat.leb_gt in E100; lia ].
Qed.

End CountFacts.

Section ClockFacts.

Lemma decimal_digits (u : Decimal.uint) (acc : N) :
  fold_left (fun a c => (10 * a + digit_value c)%N)
            (ls (DecimalString.NilEmpty.string_of_uint u)) acc
  = N.of_nat (Nat.of_uint_acc u (N.to_nat acc)).
Proof.
  revert acc.
  induction u as [|u IH|u IH|u IH|u IH|u IH|u IH|u IH|u IH|u IH|u IH];
    intros acc; simpl DecimalString.NilEmpty.string_of_uint;
    cbn [ls String.list_ascii_of_string fold_left Nat.of_uint_acc];
    [now rewrite Nnat.N2Nat.id| | | | | | | | | | ];
    fold (ls (DecimalString.NilEmpty.string_of_uint u));
    rewrite IH; do 2 f_equal; rewrite Nat.tail_mul_spec;
    unfold digit_value;
    match goal with
    | |- context [N.of_nat (code ?c - 48)] =>
        let v := eval vm_compute in (N.of_nat (code c - 48)) in
        change (N.of_nat (code c - 48)) with v
    end; lia.
Qed.

(** Reading the decimal form of a number gives the number. *)
Lemma decimal_of_nat_value (n : nat) :
  decimal (Ai.decimal_of_nat n) = N.of_nat n.
Proof.
  unfold decimal, Ai.decimal_of_nat. rewrite decimal_digits.
  change (N.to_nat 0) with 0. fold (Nat.of_uint (Nat.to_uint n)).
  now rewrite DecimalNat.Unsigned.of_to.
Qed.

Lemma decimal_zeros (k : nat) (s : str) :
  decimal (repeat "0" k ++ s) = decimal s.
Proof.
  unfold decimal. rewrite fold_left_app. f_equal.
  induction k as [|k IH]; [reflexivity|]. simpl. exact IH.
Qed.

Lemma padStart2_value (n : nat) :
  decimal (StatusBar.padStart2 (Ai.decimal_of_nat n)) = N.of_nat n.
Proof.
  unfold StatusBar.padStart2. now rewrite decimal_zeros, decimal_of_nat_value.
Qed.

Lemma padStart2_length (s : str) : 2 <= length (StatusBar.padStart2 s).
Proof.
  unfold StatusBar.padStart2. rewrite length_app, repeat_length. lia.
Qed.

Lemma padStart2_seconds (n : nat) :
  n < 60 -> length (StatusBar.padStart2 (Ai.decimal_of_nat n)) = 2.
Proof.
  intros H. do 60 (destruct n as [|n]; [reflexivity|]). lia.
Qed.

Lemma digits_of_uint (u : Decimal.uint) :
  forallb is_digit (ls (DecimalString.NilEmpty.string_of_uint u)) = true.
Proof.
  induction u; simpl; try reflexivity;
    fold (ls (DecimalString.NilEmpty.string_of_uint u)); exact IHu.
Qed.

Lemma padStart2_digits (n : nat) :
  forallb is_digit (StatusBar.padStart2 (Ai.decimal_of_nat n)) = true.
Proof.
  unfold StatusBar.padStart2. rewrite forallb_app. apply andb_true_iff. split.
  - induction (2 - length (Ai.decimal_of_nat n)) as [|k IH]; [reflexivity|].
    simpl. exact IH.
  - apply digits_of_uint.
Qed.

End ClockFacts.

(* ===================================================================== *)
(** * The assistant: settings, requests and the panel                     *)
(* ===================================================================== *)

Section AssistantFacts.

Variable ceilParseFloat : str -> Ai.number.
Variable oracle : nat -> Ai.outcome.

Lemma trim_idem (s : str) : trim (trim s) = trim s.
Proof.
  unfold trim at 1.
  rewrite (trimStart_fixed _ (starts_space_trim s)).
  apply trimEnd_fixed, ends_space_trim.
Qed.

(** Every way a call of [generateReply] can go: what it returns and what
    it does to the world. *)
Lemma generateReply_cases (params : Ai.GenerateReplyParams) (w : Ai.world) :
  let out := Ai.generateReply ceilParseFloat oracle params w in
  let req := Ai.Request (Ai.provider params) (model_of params)
                        (key_of params) in
  (out = (Ai.Throw (ls "API key is required."), w)
   /\ truthy (key_of params) = false)
  \/ (out = (Ai.Throw (ls "Unsupported provider: " ++ Ai.provider params), w)
      /\ Ai.provider params <> ls "openai"
      /\ Ai.provider params <> ls "gemini")
  \/ (truthy (key_of params) = true
      /\ (Ai.provider params = ls "openai" \/ Ai.provider params = ls "gemini")
      /\ snd out = Ai.mkWorld (S (Ai.served w)) (Ai.trace w ++ [req])
      /\ forall r, fst out = Ai.Ok r ->
                   oracle (Ai.served w) = Ai.Resolved (Some r))
  \/ (truthy (key_of params) = true
      /\ Ai.provider params = ls "gemini"
      /\ exists sec, sec <= 60
         /\ snd out = Ai.mkWorld (S (S (Ai.served w)))
                        (Ai.trace w ++ [req; Ai.Sleep (sec * 1000); req])
         /\ forall r, fst out = Ai.Ok r ->
                      oracle (S (Ai.served w)) = Ai.Resolved (Some r)).
Proof.
  cbv zeta.
  destruct (truthy (key_of params)) eqn:Hk.
  2:{ left. split; [now apply reply_blank|reflexivity]. }
  destruct (str_eqb (Ai.provider params) (ls "openai")) eqn:Ho.
  { apply str_eqb_eq in Ho. right. right. left.
    rewrite (reply_openai ceilParseFloat oracle params w Hk Ho).
    cbn [fst snd]. repeat split; auto.
    intros r. destruct (oracle (Ai.served w)) as [[c|]|e]; congruence. }
  destruct (str_eqb (Ai.provider params) (ls "gemini")) eqn:Hg.
  2:{ right. left. apply str_eqb_neq in Ho, Hg. repeat split; auto.
      unfold Ai.generateReply. fold (key_of params). rewrite Hk.
      cbn [negb].
      rewrite (proj2 (str_eqb_neq _ _) Ho), (proj2 (str_eqb_neq _ _) Hg).
      reflexivity. }
  apply str_eqb_eq in Hg.
  destruct (oracle (Ai.served w)) as [c|e] eqn:E1.
  { right. right. left.
    rewrite (reply_gemini_first ceilParseFloat oracle params w Hk Hg)
      by (intros e He; congruence).
    rewrite E1. cbn [fst snd]. repeat split; auto.
    intros r. destruct c; congruence. }
  destruct (Ai.isQuotaError e) eqn:Hq.
  2:{ right. right. left.
      rewrite (reply_gemini_first ceilParseFloat oracle params w Hk Hg)
        by (intros e' He; congruence).
      rewrite E1. cbn [fst snd]. repeat split; auto. discriminate. }
  right. right. right. split; [reflexivity|]. split; [exact Hg|].
  exists (Ai.getRetrySeconds ceilParseFloat e).
  split; [apply getRetrySeconds_le|].
  rewrite (reply_gemini_limited ceilParseFloat oracle params w e Hk Hg E1 Hq).
  cbn [fst snd]. split; [reflexivity|].
  intros r. destruct (oracle (S (Ai.served w))) as [[c|]|e2]; try congruence.
  destruct (Ai.isQuotaError e2); discriminate.
Qed.

(** The key the panel hands over is usable whenever the settings are
    valid. *)
Lemma replyParams_key (settings : AiSettingsStore.AISettingsState)
      (doc : option Document) (docText userMessage : str)
      (action : option AiSidebar.AIAction) :
  truthy (key_of (AiSidebar.replyParams settings doc docText userMessage action))
  = AiSettingsStore.hasValidConfig settings.
Proof.
  unfold key_of, AiSidebar.replyParams, AiSettingsStore.hasValidConfig.
  cbn [Ai.apiKey]. now rewrite trim_idem.
Qed.

End AssistantFacts.

(** What one call does to the world, whichever way it goes. *)
Lemma generateReply_trace
        (ceilParseFloat : str -> Ai.number) (oracle : nat -> Ai.outcome)
        (params : Ai.GenerateReplyParams) (w : Ai.world) :
  let out := Ai.generateReply ceilParseFloat oracle params w in
  let req := Ai.Request (Ai.provider params) (model_of params)
                        (key_of params) in
  exists evs,
    Ai.trace (snd out) = Ai.trace w ++ evs
    /\ Ai.served (snd out) = Ai.served w + requests evs
    /\ (evs = [] \/ evs = [req]
        \/ exists sec, sec <= 60 /\ Ai.provider params = ls "gemini"
                       /\ evs = [req; Ai.Sleep (sec * 1000); req])
    /\ (evs <> [] -> truthy (key_of params) = true)
    /\ forall r, fst out = Ai.Ok r ->
         evs <> []
         /\ oracle (Ai.served (snd out) - 1) = Ai.Resolved (Some r).
Proof.
  cbv zeta.
  destruct (generateReply_cases ceilParseFloat oracle params w)
    as [[E Hk] | [[E _] | [(Hk & Hp & E & Hr) | (Hk & Hp & sec & Hs & E & Hr)]]].
  - exists []. rewrite E. cbn [fst snd]. rewrite app_nil_r.
    unfold requests. cbn [filter length].
    split; [reflexivity|]. split; [lia|]. split; [now left|].
    split; [congruence|]. discriminate.
  - exists []. rewrite E. cbn [fst snd]. rewrite app_nil_r.
    unfold requests. cbn [filter length].
    split; [reflexivity|]. split; [lia|]. split; [now left|].
    split; [congruence|]. discriminate.
  - eexists. rewrite E. cbn [Ai.trace Ai.served].
    split; [reflexivity|]. unfold requests. cbn [filter length].
    split; [lia|]. split; [right; now left|]. split; [auto|].
    intros r Hok. split; [discriminate|].
    replace (S (Ai.served w) - 1) with (Ai.served w) by lia. now apply Hr.
  - eexists. rewrite E. cbn [Ai.trace Ai.served].
    split; [reflexivity|]. unfold requests. cbn [filter length].
    split; [lia|]. split; [right; right; now exists sec|]. split; [auto|].
    intros r Hok. split; [discriminate|].
    replace (S (S (Ai.served w)) - 1) with (S (Ai.served w)) by lia.
    now apply Hr.
Qed.

(* ===================================================================== *)
(** * Searching, the slash menu and links                                 *)
(* ===================================================================== *)

Section SearchFacts.

Lemma startsWith_split (pat s : str) :
  startsWith pat s = true -> exists b, s = pat ++ b.
Proof.
  unfold startsWith. revert s.
  induction pat as [|a pat IH]; intros s H; [now exists s|].
  destruct s as [|c s]; [discriminate|]. simpl in H.
  apply andb_true_iff in H as [Hc Hs]. apply Ascii.eqb_eq in Hc. subst c.
  destruct (IH s Hs) as (b & ->). now exists b.
Qed.

(** [s.includes(pat)] says that [pat] occurs in [s]. *)
Lemma includes_split (pat s : str) :
  includes pat s = true <-> exists a b, s = a ++ pat ++ b.
Proof.
  split; [|intros (a & b & ->); apply includes_middle].
  unfold includes. induction s as [|c r IH]; cbn [test].
  - unfold m_lit. destruct (startsWith pat []) eqn:E; [|discriminate].
    intros _. apply startsWith_split in E as (b & E). now exists [], b.
  - unfold m_lit at 1. destruct (startsWith pat (c :: r)) eqn:E.
    + intros _. apply startsWith_split in E as (b & E). now exists [], b.
    + intros H. destruct (IH H) as (a & b & ->). now exists (c :: a), b.
Qed.

Lemma includes_trans (a b s : str) :
  includes a b = true -> includes b s = true -> includes a s = true.
Proof.
  intros Hab Hbs.
  apply includes_split in Hab as (x & y & ->).
  apply includes_split in Hbs as (u & v & ->).
  apply includes_split. exists (u ++ x), (y ++ v).
  now rewrite <- !app_assoc.
Qed.

Lemma includes_nil (s : str) : includes [] s = true.
Proof. apply includes_split. now exists [], s. Qed.

Lemma sublists_filter {A} (p : A -> bool) (l : list A) :
  In (filter p l) (sublists l).
Proof.
  induction l as [|x r IH]; [now left|]. simpl.
  apply in_or_app. destruct (p x); [left|now right].
  apply in_map_iff. now exists (filter p r).
Qed.

Lemma item_eqb_eq (a b : SlashCommand.CommandItem) :
  item_eqb a b = true -> a = b.
Proof.
  destruct a as [t d g], b as [t' d' g']. unfold item_eqb. simpl.
  intros H. apply andb_true_iff in H as [H Hg].
  apply andb_true_iff in H as [Ht Hd].
  apply str_eqb_eq in Ht, Hd, Hg. now subst.
Qed.

Lemma items_eqb_eq (a b : list SlashCommand.CommandItem) :
  items_eqb a b = true -> a = b.
Proof.
  revert b. induction a as [|x a IH]; intros [|y b]; simpl; try discriminate;
    [reflexivity|].
  intros H. apply andb_true_iff in H as [Hx Ha].
  apply item_eqb_eq in Hx. subst y. f_equal. now apply IH.
Qed.

(** Whatever entries of the table are left out, the groups of the rest
    come out in the order of the rest. *)
Lemma shown_sublists :
  forallb (fun l => items_eqb (SlashCommand.shown l) l)
          (sublists SlashCommand.COMMANDS) = true.
Proof. vm_compute. reflexivity. Qed.

Lemma slash_menu_order_aux (query : str) :
  SlashCommand.shown (SlashCommand.items query) = SlashCommand.items query.
Proof.
  apply items_eqb_eq.
  pose proof shown_sublists as H. rewrite forallb_forall in H.
  apply (H (SlashCommand.items query)). apply sublists_filter.
Qed.




Lemma mod_next_prev (n i : nat) :
  i < n -> ((i + 1) mod n + n - 1) mod n = i.
Proof.
  intros H. destruct (Nat.eq_dec (i + 1) n) as [E | E].
  - rewrite E, Nat.Div0.mod_same. simpl. rewrite Nat.mod_small; lia.
  - rewrite (Nat.mod_small (i + 1)) by lia.
    replace (i + 1 + n - 1) with (i + 1 * n) by lia.
    rewrite Nat.Div0.mod_add. apply Nat.mod_small. lia.
Qed.

Lemma mod_prev_next (n i : nat) :
  i < n -> ((i + n - 1) mod n + 1) mod n = i.
Proof.
  intros H. destruct i as [|i].
  - simpl. rewrite (Nat.mod_small (n - 1)) by lia.
    replace (n - 1 + 1) with n by lia. apply Nat.Div0.mod_same.
  - replace (S i + n - 1) with (i + 1 * n) by lia.
    rewrite Nat.Div0.mod_add, (Nat.mod_small i) by lia.
    rewrite Nat.mod_small; lia.
Qed.

End SearchFacts.

(* ===================================================================== *)
(** * The plain-text editor, renaming and the gutter                      *)
(* ===================================================================== *)

Section EditorFacts.

Lemma trimStart_In (c : ascii) (s : str) : In c (trimStart s) -> In c s.
Proof.
  induction s as [|x r IH]; [auto|]. simpl.
  destruct (is_space x); [intros H; right; auto|auto].
Qed.

Lemma existsb_chr_In (a : ascii) (s : str) :
  existsb (is_chr a) s = false -> ~ In a s.
Proof.
  intros H Hin. assert (E : existsb (is_chr a) s = true).
  { apply existsb_exists. exists a. split; [exact Hin|]. now apply is_chr_true. }
  congruence.
Qed.

(** A text without [<] is not taken for markup. *)
Lemma no_lt_not_markup (c : str) :
  existsb (is_chr "<") c = false -> PlainTextEditor.looksLikeMarkup c = false.
Proof.
  intros H. pose proof (existsb_chr_In "<" c H) as Hn.
  unfold PlainTextEditor.looksLikeMarkup.
  assert (A : includes (ls "</") c = false).
  { destruct (includes (ls "</") c) eqn:E; [|reflexivity].
    apply includes_split in E as (a & b & ->). elim Hn.
    apply in_or_app. right. now left. }
  assert (B : match trimStart c with "<" :: _ => true | _ => false end = false).
  { destruct (trimStart c) as [|x r] eqn:E; [reflexivity|].
    destruct (Ascii.eqb x "<") eqn:Ex.
    - apply Ascii.eqb_eq in Ex. subst x. elim Hn.
      apply trimStart_In. rewrite E. now left.
    - destruct x as [[] [] [] [] [] [] [] []]; try reflexivity; discriminate. }
  rewrite A, B. apply andb_false_r.
Qed.

Lemma isPlain_title (d d' : Document) :
  title d' = title d ->
  PlainTextEditor.isPlain (Some d') = PlainTextEditor.isPlain (Some d).
Proof.
  intros E. unfold PlainTextEditor.isPlain, getDocumentExtension. now rewrite E.
Qed.

Lemma split_lit1_length (a : ascii) (s : str) :
  length (split (m_lit [a]) s) = S (length (filter (is_chr a) s)).
Proof.
  unfold split. induction s as [|c r IH]; [reflexivity|].
  rewrite scan_lit1. cbn [filter]. destruct (is_chr a c); cbn [between length].
  - now rewrite IH.
  - destruct (between (scan (m_lit [a]) r)) as [|h t] eqn:E;
      [now apply (split_lit1_nonempty a r) in E|].
    cbn [length] in *. exact IH.
Qed.

Lemma split_lit1_app (a : ascii) (x s : str) :
  existsb (is_chr a) x = false ->
  split (m_lit [a]) (x ++ a :: s) = x :: split (m_lit [a]) s.
Proof.
  unfold split. induction x as [|c x IH]; intros H.
  - simpl app. rewrite scan_lit1.
    now rewrite (proj2 (is_chr_true a a) eq_refl).
  - simpl in H. apply orb_false_iff in H as [Hc Hx].
    simpl app. rewrite scan_lit1, Hc. cbn [between]. now rewrite (IH Hx).
Qed.

(** Splitting what was joined gives the pieces back. *)
Lemma split_joinWith (a : ascii) (l : list str) :
  l <> [] -> (forall x, In x l -> existsb (is_chr a) x = false) ->
  split (m_lit [a]) (CodeBlock.joinWith [a] l) = l.
Proof.
  induction l as [|x l IH]; [congruence|]. intros _ H.
  destruct l as [|y l].
  - simpl. apply split_lit1_none. apply H. now left.
  - change (CodeBlock.joinWith [a] (x :: y :: l))
      with (x ++ a :: CodeBlock.joinWith [a] (y :: l)).
    rewrite split_lit1_app by (apply H; now left).
    f_equal. apply IH; [discriminate|]. intros z Hz. apply H. now right.
Qed.

Lemma digit_not_LF (c : ascii) : is_digit c = true -> is_chr LF c = false.
Proof. destruct c as [[] [] [] [] [] [] [] []]; try reflexivity; discriminate. Qed.

Lemma decimal_of_nat_no_LF (n : nat) :
  existsb (is_chr LF) (Ai.decimal_of_nat n) = false.
Proof.
  unfold Ai.decimal_of_nat.
  pose proof (digits_of_uint (Nat.to_uint n)) as H.
  induction (ls (DecimalString.NilEmpty.string_of_uint (Nat.to_uint n)))
    as [|c r IH]; [reflexivity|].
  simpl in *. apply andb_true_iff in H as [Hc Hr].
  now rewrite (digit_not_LF c Hc), IH.
Qed.

End EditorFacts.

(* ===================================================================== *)
(** * A save that comes after the delete                                  *)
(* ===================================================================== *)

Section LateSaveFacts.

Lemma mount_edit (k : Surface.kind) (st : EditorState) (c : str) :
  let s := fst (Surface.step k (Surface.mount st) (Surface.Edit c)) in
  Surface.pending s
  = [Surface.mkTimer 1 600 (activeDocumentId st) c]
  /\ Surface.clock s = 0
  /\ documents (Surface.store s) = documents st
  /\ activeDocumentId (Surface.store s) = activeDocumentId st.
Proof. destruct k; repeat split. Qed.

Lemma updateEditorStats_documents (content : str) (st : EditorState) :
  documents (updateEditorStats content st) = documents st.
Proof. reflexivity. Qed.

End LateSaveFacts.

(* ===================================================================== *)
(** * The rows of the document tree                                       *)
(* ===================================================================== *)

Section TreeFacts.

Variable docs : table.
Variable isOpen : option str -> bool.
Variable q : str.
Variable h : str -> nat.

Hypothesis Hwf : well_formed docs.
Hypothesis Hcomplete : complete docs.
Hypothesis Hm : measured h docs.

Lemma each_some {A B} (f : A -> option (list B)) (l : list A) :
  (forall a, In a l -> exists x, f a = Some x) ->
  exists rows,
    Sidebar.each f l = Some rows
    /\ forall b, In b rows <-> exists a x, In a l /\ f a = Some x /\ In b x.
Proof.
  induction l as [|a l IH]; intros H.
  - exists []. split; [reflexivity|]. intros b. split; [intros []|].
    intros (a & x & [] & _).
  - destruct (H a (or_introl eq_refl)) as (x & Ex).
    destruct IH as (rest & Er & Hr); [intros a' Ha'; apply H; now right|].
    exists (x ++ rest). split; [cbn [Sidebar.each]; now rewrite Ex, Er|].
    intros b. rewrite in_app_iff, Hr. split.
    + intros [Hb | (a' & x' & Ha' & Ex' & Hb)].
      * exists a, x. repeat split; auto. now left.
      * exists a', x'. repeat split; auto. now right.
    + intros (a' & x' & [<- | Ha'] & Ex' & Hb).
      * left. congruence.
      * right. now exists a', x'.
Qed.

Lemma someMatch_spec (cs : list Document) :
  (forall c, In c cs -> title c <> None) ->
  exists b, Sidebar.someMatch q cs = Some b
            /\ (b = true <-> exists c, In c cs
                                       /\ Sidebar.titleMatches q c = Some true).
Proof.
  induction cs as [|c cs IH]; intros H.
  - exists false. split; [reflexivity|]. split; [discriminate|].
    intros (c & [] & _).
  - cbn [Sidebar.someMatch].
    assert (Hc : title c <> None) by (apply H; now left).
    unfold Sidebar.titleMatches at 1.
    destruct (title c) as [t|] eqn:Et; [|congruence].
    destruct (includes (toLowerCase q) (toLowerCase t)) eqn:Ei.
    + exists true. split; [reflexivity|]. split; [|reflexivity].
      intros _. exists c. split; [now left|].
      unfold Sidebar.titleMatches. now rewrite Et, Ei.
    + destruct IH as (b & Eb & Hb); [intros x Hx; apply H; now right|].
      exists b. split; [exact Eb|]. rewrite Hb. split.
      * intros (x & Hx & Ex). exists x. split; [now right|exact Ex].
      * intros (x & [<- | Hx] & Ex).
        -- unfold Sidebar.titleMatches in Ex. rewrite Et, Ei in Ex.
           discriminate.
        -- now exists x.
Qed.

Lemma value_entry (d : Document) :
  In d (values docs) ->
  exists k, In (k, d) docs /\ lookup docs k = Some d /\ id d = Some k.
Proof.
  intros H. apply in_map_iff in H as ([k d'] & E & Hin). simpl in E. subst d'.
  exists k. destruct Hwf as [Hnd Hid]. split; [exact Hin|].
  split; [now apply In_lookup|]. now apply Hid.
Qed.

Lemma lookup_entry (k : str) (d : Document) :
  lookup docs k = Some d ->
  In d (values docs) /\ id d = Some k /\ title d <> None
  /\ content d <> None.
Proof.
  intros H. apply lookup_In in H. destruct Hwf as [_ Hid].
  destruct (Hcomplete k d H) as [Ht Hc].
  repeat split; auto; [|now apply Hid].
  apply in_map_iff. now exists (k, d).
Qed.

(** The children of a document of the table are the documents that name
    it as their parent. *)
Lemma childrenOf_spec (k : str) (d c : Document) :
  lookup docs k = Some d ->
  (In c (Sidebar.childrenOf docs d)
   <-> exists kc, lookup docs kc = Some c /\ parentId c = Some (Some k)).
Proof.
  intros Hk. destruct (lookup_entry k d Hk) as (_ & Hid & _).
  unfold Sidebar.childrenOf. rewrite filter_In, Hid. split.
  - intros [Hin Hp]. destruct (value_entry c Hin) as (kc & _ & Hl & _).
    exists kc. split; [exact Hl|].
    unfold parent_is in Hp. destruct (parentId c) as [[p|]|]; try discriminate.
    apply str_eqb_eq in Hp. now subst.
  - intros (kc & Hl & Hp). split; [now apply (lookup_entry kc c)|].
    unfold parent_is. rewrite Hp. apply str_eqb_refl.
Qed.

Lemma child_lower (k kc : str) (c : Document) :
  lookup docs kc = Some c -> parentId c = Some (Some k) -> h kc < h k.
Proof.
  intros Hl Hp. apply Hm. unfold parent_of. now rewrite Hl, Hp.
Qed.

(** What the search decides for a document of the table. *)
Lemma hidden_spec (k : str) (d : Document) :
  lookup docs k = Some d ->
  exists b,
    (if truthy q then
       match Sidebar.titleMatches q d with
       | None => None
       | Some matches =>
           match Sidebar.someMatch q (Sidebar.childrenOf docs d) with
           | None => None
           | Some childrenMatch => Some (negb matches && negb childrenMatch)
           end
       end
     else Some false) = Some b
    /\ (b = false <-> passes docs q d).
Proof.
  intros Hk. destruct (lookup_entry k d Hk) as (_ & _ & Ht & _).
  unfold passes. destruct (truthy q) eqn:Eq.
  - destruct (someMatch_spec (Sidebar.childrenOf docs d)) as (cm & Ecm & Hcm).
    { intros c Hc. apply (childrenOf_spec k d c Hk) in Hc as (kc & Hl & _).
      now apply (lookup_entry kc c). }
    rewrite Ecm. unfold Sidebar.titleMatches at 1.
    destruct (title d) as [t|] eqn:Et; [|congruence].
    eexists. split; [reflexivity|].
    unfold Sidebar.titleMatches at 1. rewrite Et.
    destruct (includes (toLowerCase q) (toLowerCase t)); cbn [negb andb].
    + split; [intros _; right; now left|reflexivity].
    + destruct cm; cbn [negb].
      * split; [|reflexivity]. intros _. right. right. now apply Hcm.
      * split; [discriminate|].
        intros [H | [H | H]]; try discriminate.
        apply Hcm in H. discriminate.
  - exists false. split; [reflexivity|]. split; [now left|reflexivity].
Qed.

Lemma shown_head_passes (k k' : str) (n m : nat) :
  shown_from docs isOpen q k n k' m ->
  exists d, lookup docs k = Some d /\ passes docs q d.
Proof. intros [? ? d H P | ? ? d ? ? ? ? H P]; now exists d. Qed.

(** The rows a component renders for a document of the table. *)
Lemma DocItem_rows (fuel : nat) :
  forall d k n, lookup docs k = Some d -> h k < fuel ->
    exists rows,
      Sidebar.DocItem fuel docs isOpen q d n = Some rows
      /\ forall d' m,
           In (d', m) rows
           <-> exists k', lookup docs k' = Some d'
                          /\ shown_from docs isOpen q k n k' m.
Proof.
  induction fuel as [|fuel IH]; intros d k n Hk Hh; [lia|].
  destruct (lookup_entry k d Hk) as (_ & Hid & _ & Hc).
  destruct (hidden_spec k d Hk) as (b & Eb & Hb).
  cbn [Sidebar.DocItem]. rewrite Eb.
  assert (Hbadge : exists x, Panels.badge d = Some x).
  { unfold Panels.badge. destruct (Panels.folderish d); [now eexists|].
    destruct (content d); [now eexists|congruence]. }
  destruct Hbadge as (x & ->).
  destruct b.
  - exists []. split; [reflexivity|]. intros d' m. split; [intros []|].
    intros (k' & _ & Hs). apply shown_head_passes in Hs as (d0 & Hl & P).
    rewrite Hk in Hl. injection Hl as <-. apply Hb in P. discriminate.
  - assert (P : passes docs q d) by now apply Hb.
    destruct (each_some
                (fun child => Sidebar.DocItem fuel docs isOpen q child (n + 1))
                (Sidebar.childrenOf docs d))
      as (below & Ebelow & Hbelow).
    { intros c Hc'. apply (childrenOf_spec k d c Hk) in Hc' as (kc & Hl & Hp).
      destruct (IH c kc (n + 1) Hl) as (rows & E & _).
      - pose proof (child_lower k kc c Hl Hp). lia.
      - now exists rows. }
    rewrite Ebelow, Hid.
    destruct (Panels.folderish d && isOpen (Some k)
              && (1 <=? length (Sidebar.childrenOf docs d))) eqn:Econd.
    + apply andb_true_iff in Econd as [Econd _].
      apply andb_true_iff in Econd as [Ef Eo].
      eexists. split; [reflexivity|]. intros d' m. split.
      * intros [[= <- <-] | Hin].
        -- exists k. split; [exact Hk|]. now apply (shown_self _ _ _ k n d).
        -- apply Hbelow in Hin as (c & rows & Hc' & E & Hin).
           apply (childrenOf_spec k d c Hk) in Hc' as (kc & Hl & Hp).
           destruct (IH c kc (n + 1) Hl) as (rows' & E' & Hrows).
           { pose proof (child_lower k kc c Hl Hp). lia. }
           rewrite E in E'. injection E' as <-.
           apply Hrows in Hin as (k' & Hl' & Hs).
           exists k'. split; [exact Hl'|].
           rewrite Nat.add_1_r in Hs.
           now apply (shown_below _ _ _ k n d kc c k' m).
      * intros (k' & Hl' & Hs).
        inversion Hs as [? ? d0 Hl0 P0 | ? ? d0 kc c ? ? Hl0 P0 F0 O0 Hlc Hpc Hs'];
          subst.
        -- left. rewrite Hk in Hl'. now injection Hl' as <-.
        -- right. apply Hbelow.
           destruct (IH c kc (n + 1) Hlc) as (rows' & E' & Hrows).
           { pose proof (child_lower k kc c Hlc Hpc). lia. }
           exists c, rows'. split; [|split; [exact E'|]].
           ++ apply (childrenOf_spec k d c Hk). now exists kc.
           ++ apply Hrows. exists k'. split; [exact Hl'|].
              now rewrite Nat.add_1_r.
    + exists [(d, n)]. split; [reflexivity|]. intros d' m. split.
      * intros [[= <- <-] | []]. exists k. split; [exact Hk|].
        now apply (shown_self _ _ _ k n d).
      * intros (k' & Hl' & Hs).
        inversion Hs as [? ? d0 Hl0 P0 | ? ? d0 kc c ? ? Hl0 P0 F0 O0 Hlc Hpc Hs'];
          subst.
        -- left. rewrite Hk in Hl'. now injection Hl' as <-.
        -- exfalso. rewrite Hk in Hl0. injection Hl0 as <-.
           rewrite F0, O0 in Econd. cbn [andb] in Econd.
           assert (Hin : In c (Sidebar.childrenOf docs d))
             by (apply (childrenOf_spec k d c Hk); now exists kc).
           destruct (Sidebar.childrenOf docs d); [destruct Hin|discriminate].
Qed.

Lemma lookup_fun (k : str) (a b : Document) :
  lookup docs k = Some a -> lookup docs k = Some b -> a = b.
Proof. congruence. Qed.

Lemma shown_visible (k k' : str) (n m : nat) :
  shown_from docs isOpen q k n k' m ->
  visible docs isOpen q k n -> visible docs isOpen q k' m.
Proof.
  intros Hs. induction Hs as [k n d Hl P | k n d c dc k' m Hl P F O Hlc Hpc Hs IH];
    intros Hv; [exact Hv|].
  apply IH. destruct (shown_head_passes _ _ _ _ Hs) as (dc' & Hlc' & Pc).
  rewrite Hlc in Hlc'. injection Hlc' as <-.
  now apply (visible_child _ _ _ c dc k d n).
Qed.

Lemma shown_extend (r p k : str) (j n : nat) (dp d : Document) :
  shown_from docs isOpen q r j p n ->
  lookup docs p = Some dp -> Panels.folderish dp = true ->
  isOpen (Some p) = true ->
  lookup docs k = Some d -> parentId d = Some (Some p) ->
  passes docs q d ->
  shown_from docs isOpen q r j k (S n).
Proof.
  intros Hs.
  induction Hs as [a i d0 Hl P | a i d0 c dc b l Hl P F O Hlc Hpc Hs IH];
    intros Hp Hf Ho Hk Hpar Pd.
  - rewrite Hl in Hp. injection Hp as ->.
    apply (shown_below _ _ _ a i dp k d k (S i)); auto.
    now apply (shown_self _ _ _ k (S i) d).
  - apply (shown_below _ _ _ a i d0 c dc k (S l)); auto.
Qed.

Lemma visible_shown (k : str) (m : nat) :
  visible docs isOpen q k m ->
  exists r dr, lookup docs r = Some dr /\ parentId dr = Some None
               /\ shown_from docs isOpen q r 0 k m.
Proof.
  intros Hv. induction Hv as [k d Hl Hp P | k d p dp n Hl Hp Hlp F O Hv IH P].
  - exists k, d. repeat split; auto. now apply (shown_self _ _ _ k 0 d).
  - destruct IH as (r & dr & Hr & Hroot & Hs).
    exists r, dr. repeat split; auto.
    now apply (shown_extend r p k 0 n dp d).
Qed.

(** The rows of the whole tree. *)
Lemma tree_rows_spec (fuel : nat) :
  (forall k, h k < fuel) ->
  exists rows,
    Sidebar.tree fuel docs isOpen q = Some rows
    /\ forall d m,
         In (d, m) rows
         <-> exists k, lookup docs k = Some d /\ visible docs isOpen q k m.
Proof.
  intros Hfuel. unfold Sidebar.tree.
  assert (Hroot : forall d, In d (Sidebar.rootDocs docs) ->
                    exists r, lookup docs r = Some d /\ parentId d = Some None).
  { intros d Hd. unfold Sidebar.rootDocs in Hd. apply filter_In in Hd as [Hin Hp].
    destruct (value_entry d Hin) as (r & _ & Hl & _). exists r.
    split; [exact Hl|]. now destruct (parentId d) as [[|]|]. }
  destruct (each_some (fun doc => Sidebar.DocItem fuel docs isOpen q doc 0)
                      (Sidebar.rootDocs docs)) as (rows & E & Hrows).
  { intros d Hd. destruct (Hroot d Hd) as (r & Hl & _).
    destruct (DocItem_rows fuel d r 0 Hl (Hfuel r)) as (x & Ex & _).
    now exists x. }
  exists rows. split; [exact E|]. intros d m. rewrite Hrows. split.
  - intros (dr & x & Hd & Ex & Hin). destruct (Hroot dr Hd) as (r & Hl & Hp).
    destruct (DocItem_rows fuel dr r 0 Hl (Hfuel r)) as (x' & Ex' & Hx).
    rewrite Ex in Ex'. injection Ex' as <-.
    destruct (proj1 (Hx d m) Hin) as (k & Hk & Hs).
    exists k. split; [exact Hk|].
    apply (shown_visible r k 0 m Hs).
    destruct (shown_head_passes _ _ _ _ Hs) as (dr' & Hl' & P).
    rewrite Hl in Hl'. injection Hl' as <-.
    now apply (visible_root _ _ _ r dr).
  - intros (k & Hk & Hv).
    destruct (visible_shown k m Hv) as (r & dr & Hl & Hp & Hs).
    destruct (DocItem_rows fuel dr r 0 Hl (Hfuel r)) as (x & Ex & Hx).
    exists dr, x. split; [|split; [exact Ex|]].
    + unfold Sidebar.rootDocs. apply filter_In.
      split; [now apply (lookup_entry r dr)|]. now rewrite Hp.
    + apply Hx. now exists k.
Qed.

End TreeFacts.

Lemma filter_split_length {A} (p : A -> bool) (l : list A) :
  length (filter (fun a => negb (p a)) l) + length (filter p l) = length l.
Proof.
  induction l as [|a l IH]; [reflexivity|]. simpl.
  destruct (p a); simpl; lia.
Qed.

(* ===================================================================== *)
(** * Further properties of the program                                   *)
(* ===================================================================== *)

(** X1. Whatever it is given, [htmlToPlainText] returns a text with no
    white space in front or at the end, none at the end of any line, and
    hence no blank line. *)
Theorem htmlToPlainText_output_shape (html : str) :
  starts_space (htmlToPlainText html) = false
  /\ ends_space (htmlToPlainText html) = false
  /\ no_space_at_line_end (htmlToPlainText html) = true
  /\ includes [LF; LF] (htmlToPlainText html) = false.
Proof.
  destruct (htmlToPlainText_shape html) as [Hs He].
  repeat split; try assumption.
  - now apply no_space_at_line_end_last.
  - now apply no_blank_line.
Qed.

(** X2. On a text that holds neither [<] nor [&], [htmlToPlainText]
    changes nothing exactly when the text has no white space in front and
    none at the end of a line. *)
Theorem htmlToPlainText_fixed_point (t : str) :
  markup_free t = true ->
  (htmlToPlainText t = t
   <-> starts_space t = false /\ no_space_at_line_end t = true).
Proof.
  intros H. unfold markup_free in H. rewrite forallb_forall in H.
  split.
  - intros E. rewrite <- E. apply htmlToPlainText_shape.
  - intros [Hs He]. apply htmlToPlainText_fixed; try assumption.
    + intros c Hc. specialize (H c Hc). apply negb_true_iff in H.
      now apply orb_false_iff in H.
    + intros c Hc. specialize (H c Hc). apply negb_true_iff in H.
      now apply orb_false_iff in H.
Qed.

Lemma htmlToPlainText_fixed_point_witness :
  markup_free (ls "a > b" ++ [LF] ++ ls "  c") = true
  /\ (htmlToPlainText (ls "a > b" ++ [LF] ++ ls "  c")
      = ls "a > b" ++ [LF] ++ ls "  c"
      <-> starts_space (ls "a > b" ++ [LF] ++ ls "  c") = false
          /\ no_space_at_line_end (ls "a > b" ++ [LF] ++ ls "  c") = true).
Proof.
  split; [reflexivity|].
  apply (htmlToPlainText_fixed_point (ls "a > b" ++ [LF] ++ ls "  c")).
  reflexivity.
Defined.

(** X3. A text that holds no [&], does not start with white space and has
    no white space at the end of a line comes back unchanged from
    [plainTextToHtml] followed by [htmlToPlainText]; the characters [<],
    [>] and the two quotes are allowed in it. *)
Theorem round_trip_with_markup_characters (t : str) :
  plain_without_amp t = true ->
  htmlToPlainText (plainTextToHtml t) = t.
Proof. apply round_trip_without_amp. Qed.

Lemma round_trip_with_markup_characters_witness :
  plain_without_amp (ls "if a<b then 'x'" ++ [LF] ++ ls "<p>no tag</p>") = true
  /\ htmlToPlainText
       (plainTextToHtml (ls "if a<b then 'x'" ++ [LF] ++ ls "<p>no tag</p>"))
     = ls "if a<b then 'x'" ++ [LF] ++ ls "<p>no tag</p>".
Proof.
  split; [reflexivity|].
  apply (round_trip_with_markup_characters
           (ls "if a<b then 'x'" ++ [LF] ++ ls "<p>no tag</p>")).
  reflexivity.
Defined.

(** X4. The markup [plainTextToHtml] builds always opens with [<p>],
    closes with [</p>] and holds no newline character. *)
Theorem plainTextToHtml_paragraphs (t : str) :
  (exists body, plainTextToHtml t = ls "<p>" ++ body ++ ls "</p>")
  /\ forall c, In c (plainTextToHtml t) -> is_LF c = false.
Proof.
  unfold plainTextToHtml. destruct (truthy t); cbn [negb].
  - split.
    + apply paragraphs_framed, split_nonempty.
    + intros c Hc. unfold join in Hc. apply in_concat in Hc as (x & Hx & Hc).
      apply in_map_iff in Hx as (p & <- & _).
      now apply (paragraph_no_newline p).
  - split; [now exists []|].
    intros c Hc. simpl in Hc.
    repeat (destruct Hc as [<- | Hc]; [reflexivity|]). destruct Hc.
Qed.

(** X5. [getDocumentExtension] returns [e] exactly when [e] is a non-empty
    run of digits and lower-case letters and the trimmed title, in lower
    case, ends with a dot followed by [e]. *)
Theorem getDocumentExtension_suffix (doc : Document) (e : str) :
  getDocumentExtension doc = Some e
  <-> (e <> [] /\ forallb is_alnum e = true /\ toLowerCase e = e
       /\ exists stem,
            toLowerCase (trim (titleOf doc)) = stem ++ "." :: e).
Proof.
  rewrite getDocumentExtension_trimmed. set (t := trim (titleOf doc)).
  split.
  - unfold extensionOf_spec. destruct (existsb (is_chr ".") t) eqn:Hd;
      [|discriminate].
    destruct (truthy (after_last "." t)) eqn:Ht; [|discriminate].
    destruct (forallb is_alnum (after_last "." t)) eqn:Ha; [|discriminate].
    cbn [andb]. intros [= <-].
    destruct (after_last_split "." t Hd) as (p & Hp & _).
    repeat split.
    + apply truthy_nonempty. now rewrite truthy_lower.
    + now rewrite forallb_alnum_lower.
    + apply toLowerCase_idem.
    + exists (toLowerCase p). rewrite Hp at 1.
      now rewrite toLowerCase_app.
  - intros (Hne & Ha & Hl & stem & E).
    rewrite <- extensionOf_spec_lower, E. unfold extensionOf_spec.
    rewrite existsb_app. cbn [existsb].
    rewrite (proj2 (is_chr_true "." ".") eq_refl), orb_true_r.
    rewrite (after_last_app "." stem e (alnum_no_dot e Ha)).
    rewrite Ha, Hl. apply truthy_nonempty in Hne. now rewrite Hne.
Qed.

(** X6. [createDocument] with an id not yet in use, under [null] or an
    existing parent, keeps a table in order; it stores the new document
    under its id, leaves every other entry as it was, makes the table one
    entry longer, and moves the active pointer to the new document unless
    that is a folder. *)
Theorem createDocument_keeps_order (newId : str) (now : Z)
        (parent : option str) (folder : bool) (st : EditorState) :
  sound (documents st) -> lookup (documents st) newId = None ->
  known_parent (documents st) parent ->
  let st' := fst (createDocument newId now parent folder st) in
  sound (documents st')
  /\ (exists d, lookup (documents st') newId = Some d
                /\ id d = Some newId /\ parentId d = Some parent
                /\ isFolder d = Some folder)
  /\ (forall k, k <> newId ->
                lookup (documents st') k = lookup (documents st) k)
  /\ length (documents st') = S (length (documents st))
  /\ activeDocumentId st'
     = (if folder then activeDocumentId st else Some newId)
  /\ (valid_active st -> valid_active st').
Proof.
  intros (Hwf & Hac & Hcl) Hfresh Hpar st'.
  assert (Hother : forall k, k <> newId ->
                     lookup (documents st') k = lookup (documents st) k).
  { intros k Hk. subst st'. unfold createDocument.
    cbn [fst documents set_documents]. rewrite lookup_set_key.
    destruct (str_eqb newId k) eqn:E; [|reflexivity].
    apply str_eqb_eq in E. congruence. }
  assert (Hnew : exists d, lookup (documents st') newId = Some d
                /\ id d = Some newId /\ parentId d = Some parent
                /\ isFolder d = Some folder).
  { subst st'. unfold createDocument. cbn [fst documents set_documents].
    rewrite lookup_set_key, str_eqb_refl. eexists. split; [reflexivity|].
    repeat split. }
  split; [|split; [exact Hnew|split; [exact Hother|split; [|split]]]].
  - split; [now apply createDocument_well_formed|]. split.
    + apply createDocument_acyclic; try assumption.
      * intros ->. simpl in Hpar. contradiction.
      * intros k Hk. now apply Hcl in Hk.
    + now apply createDocument_closed.
  - subst st'. unfold createDocument. cbn [fst documents set_documents].
    apply (Permutation_length (set_key_fresh_perm _ _ _ Hfresh)).
  - reflexivity.
  - unfold valid_active. subst st'. unfold createDocument.
    cbn [fst documents set_documents activeDocumentId].
    destruct folder.
    + destruct (activeDocumentId st) as [a|]; [|trivial].
      intros Ha. rewrite lookup_set_key.
      now destruct (str_eqb newId a).
    + intros _. now rewrite lookup_set_key, str_eqb_refl.
Qed.

Lemma createDocument_keeps_order_witness :
  let st := state_of sample_tree (Some (ls "other")) in
  let st' := fst (createDocument (ls "k3x9") 7%Z (Some (ls "inner")) false st) in
  sound (documents st')
  /\ (exists d, lookup (documents st') (ls "k3x9") = Some d
                /\ id d = Some (ls "k3x9")
                /\ parentId d = Some (Some (ls "inner"))
                /\ isFolder d = Some false)
  /\ (forall k, k <> ls "k3x9" ->
                lookup (documents st') k = lookup (documents st) k)
  /\ length (documents st') = S (length (documents st))
  /\ activeDocumentId st' = Some (ls "k3x9")
  /\ (valid_active st -> valid_active st').
Proof.
  apply (createDocument_keeps_order (ls "k3x9") 7%Z (Some (ls "inner")) false
           (state_of sample_tree (Some (ls "other")))).
  - exact sample_tree_sound.
  - reflexivity.
  - discriminate.
Defined.

(** X7. On a table in order [deleteDocument] returns, given a call stack
    deeper than the table is long, and leaves a table in order: well
    formed, without cycles and without a reference to a removed
    document.  An id that is not in the table removes nothing. *)
Theorem deleteDocument_keeps_order (st : EditorState) (root : str)
        (fuel : nat) :
  sound (documents st) -> length (documents st) < fuel ->
  exists st',
    deleteDocument fuel root st = Some st'
    /\ sound (documents st')
    /\ (lookup (documents st) root = None ->
        documents st' = documents st).
Proof.
  intros (Hwf & Hac & Hcl) Hfuel.
  destruct (deleteDocument_filter st root fuel Hwf Hac Hfuel)
    as (keep & E & Hkeep).
  eexists. split; [exact E|]. cbn [documents set_documents].
  split; [split; [|split]|].
  - now apply well_formed_filter.
  - intros k Hk. apply (Hac k). now apply descends_filter_sub in Hk.
  - now apply (closed_filter _ root).
  - intros Hroot. apply filter_all. intros [k d] Hin. simpl.
    destruct (keep k) eqn:Ek; [reflexivity|].
    apply Hkeep in Ek.
    now apply (doomed_unknown _ root k Hcl Hroot (In_keys _ _ _ Hin)) in Ek.
Qed.

Lemma deleteDocument_keeps_order_witness :
  exists st',
    deleteDocument 5 (ls "inner") (state_of sample_tree None) = Some st'
    /\ sound (documents st')
    /\ (lookup (documents (state_of sample_tree None)) (ls "inner") = None ->
        documents st' = documents (state_of sample_tree None)).
Proof.
  apply (deleteDocument_keeps_order (state_of sample_tree None) (ls "inner") 5).
  - exact sample_tree_sound.
  - simpl. lia.
Defined.

(** X8. Deleting a document right after creating it gives back the table
    as it was before, entry for entry and in the same order.  The active
    pointer returns to where it was only for a folder; for a file it
    goes to the first document of the table, or to [null] in an empty
    one. *)
Theorem create_then_delete (newId : str) (now : Z) (parent : option str)
        (folder : bool) (st : EditorState) (fuel : nat) :
  sound (documents st) -> valid_active st ->
  lookup (documents st) newId = None ->
  known_parent (documents st) parent -> 0 < fuel ->
  exists st',
    deleteDocument fuel newId (fst (createDocument newId now parent folder st))
    = Some st'
    /\ documents st' = documents st
    /\ activeDocumentId st'
       = (if folder then activeDocumentId st
          else first_or_null (keys (documents st))).
Proof.
  intros (Hwf & Hac & Hcl) Hact Hfresh Hpar Hfuel.
  destruct fuel as [|fuel]; [lia|].
  unfold deleteDocument, createDocument. cbn [fst documents set_documents].
  set (doc := {| id := Some newId; title := _ |}).
  rewrite deleteRecursive_leaf.
  - rewrite (delete_set_key _ _ _ Hfresh).
    eexists. split; [reflexivity|]. cbn [documents activeDocumentId set_documents].
    split; [reflexivity|].
    destruct folder.
    + destruct (same_id (activeDocumentId st) newId) eqn:E; [|reflexivity].
      apply same_id_true in E. unfold valid_active in Hact.
      rewrite E in Hact. contradiction.
    + simpl. now rewrite str_eqb_refl.
  - intros d Hd.
    apply (values_perm _ _ (set_key_fresh_perm _ _ doc Hfresh)) in Hd.
    destruct Hd as [<- | Hd].
    + subst doc. unfold parent_is. cbn [parentId].
      destruct parent as [p|]; [|reflexivity].
      apply str_eqb_neq. intros ->. simpl in Hpar. contradiction.
    + now apply (nobody_names_fresh (documents st) newId Hwf Hcl Hfresh).
Qed.

Lemma create_then_delete_witness :
  exists st',
    deleteDocument 1 (ls "k3x9")
      (fst (createDocument (ls "k3x9") 7%Z (Some (ls "inner")) false
              (state_of sample_tree (Some (ls "other")))))
    = Some st'
    /\ documents st' = documents (state_of sample_tree (Some (ls "other")))
    /\ activeDocumentId st'
       = first_or_null
           (keys (documents (state_of sample_tree (Some (ls "other"))))).
Proof.
  apply (create_then_delete (ls "k3x9") 7%Z (Some (ls "inner")) false
           (state_of sample_tree (Some (ls "other"))) 1).
  - exact sample_tree_sound.
  - discriminate.
  - reflexivity.
  - discriminate.
  - lia.
Defined.

(** X9. [updateDocument] on an id of the table, with changes that set
    neither [id] nor [parentId], updates in place: the keys keep their
    order, every parent link stays, the entry holds the old fields
    overlaid with the changes and a new [updatedAt], every other entry
    and the active pointer stay, and a table in order stays in order.
    [renameDocument] is the case of a change of title. *)
Theorem updateDocument_in_place (now : Z) (k : str) (updates d : Document)
        (st : EditorState) :
  lookup (documents st) k = Some d -> keeps_place updates ->
  let st' := updateDocument now k updates st in
  keys (documents st') = keys (documents st)
  /\ (forall k', parent_of (documents st') k' = parent_of (documents st) k')
  /\ lookup (documents st') k
     = Some (spread (spread d updates) (onlyUpdatedAt now))
  /\ (forall k', k' <> k ->
                 lookup (documents st') k' = lookup (documents st) k')
  /\ activeDocumentId st' = activeDocumentId st
  /\ (sound (documents st) -> sound (documents st'))
  /\ (forall t, renameDocument now k t st
                = updateDocument now k (onlyTitle t) st).
Proof.
  intros Hk [Hid Hpar] st'.
  assert (Hkeys : keys (documents st') = keys (documents st)).
  { subst st'. unfold updateDocument. cbn [documents set_documents].
    now apply (keys_set_key_known _ _ _ d). }
  assert (Hparent : forall k', parent_of (documents st') k'
                               = parent_of (documents st) k').
  { intros k'. now apply (updateDocument_parent_of now k k' updates d). }
  assert (Hnew : lookup (documents st') k
                 = Some (spread (spread d updates) (onlyUpdatedAt now))).
  { subst st'. rewrite updateDocument_lookup, str_eqb_refl.
    unfold stored. now rewrite Hk. }
  assert (Hother : forall k', k' <> k ->
                     lookup (documents st') k' = lookup (documents st) k').
  { intros k' Hne. subst st'. rewrite updateDocument_lookup.
    destruct (str_eqb k k') eqn:E; [|reflexivity].
    apply str_eqb_eq in E. congruence. }
  repeat (split; [assumption|]).
  split; [reflexivity|]. split; [|reflexivity].
  intros ((Hnd & Hwf) & Hac & Hcl). split; [split|split].
  - now rewrite Hkeys.
  - intros k' d' Hin.
    assert (Hnd' : NoDup (keys (documents st'))) by now rewrite Hkeys.
    pose proof (In_lookup _ _ _ Hnd' Hin) as Hl.
    destruct (str_eqb k k') eqn:E.
    + apply str_eqb_eq in E. subst k'. rewrite Hnew in Hl.
      injection Hl as <-.
      destruct (Hwf k d (lookup_In _ _ _ Hk)) as [Hi Hp].
      cbn [spread id parentId onlyUpdatedAt orElse].
      rewrite Hid, Hpar. cbn [orElse]. split; assumption.
    + apply str_eqb_neq in E. rewrite Hother in Hl by congruence.
      apply Hwf. now apply lookup_In.
  - intros x Hx. apply (Hac x).
    now apply (descends_ext (documents st') (documents st) x x Hparent).
  - intros x p Hp. rewrite Hparent in Hp. apply Hcl in Hp.
    apply lookup_some_key. rewrite Hkeys. now apply lookup_some_key.
Qed.

Lemma updateDocument_in_place_witness :
  let st := state_of sample_tree (Some (ls "note")) in
  let d := document (ls "note") (Some (ls "inner")) false in
  let st' := updateDocument 9%Z (ls "note") (onlyContent (ls "<p>Hi</p>")) st in
  keys (documents st') = keys (documents st)
  /\ (forall k', parent_of (documents st') k' = parent_of (documents st) k')
  /\ lookup (documents st') (ls "note")
     = Some (spread (spread d (onlyContent (ls "<p>Hi</p>")))
                    (onlyUpdatedAt 9%Z))
  /\ (forall k', k' <> ls "note" ->
                 lookup (documents st') k' = lookup (documents st) k')
  /\ activeDocumentId st' = activeDocumentId st
  /\ (sound (documents st) -> sound (documents st'))
  /\ (forall t, renameDocument 9%Z (ls "note") t st
                = updateDocument 9%Z (ls "note") (onlyTitle t) st).
Proof.
  apply (updateDocument_in_place 9%Z (ls "note") (onlyContent (ls "<p>Hi</p>"))
           (document (ls "note") (Some (ls "inner")) false)
           (state_of sample_tree (Some (ls "note")))).
  - reflexivity.
  - split; reflexivity.
Defined.



(** X11. The content-health score is 0 exactly for a content without a
    character other than white space; otherwise it is a multiple of 5
    between 40 and 100.  The status bar calls it [Excellent] only for a
    content of at least 100 white-space separated tokens, and [Needs Work]
    for a blank one. *)
Theorem calcContentHealth_range (content : str) :
  (calcContentHealth content = 0 <-> existsb not_space content = false)
  /\ (existsb not_space content = true ->
      40 <= calcContentHealth content <= 100
      /\ calcContentHealth content mod 5 = 0)
  /\ (StatusBar.healthLabel (calcContentHealth content) = ls "Excellent" ->
      100 <= count_words content)
  /\ (existsb not_space content = false ->
      StatusBar.healthLabel (calcContentHealth content) = ls "Needs Work").
Proof.
  rewrite calcContentHealth_raw.
  destruct (health_score_range (count_words content) content) as [H0 H1].
  split; [|split; [|split]].
  - split; [|exact H0].
    intros E. destruct (existsb not_space content); [|reflexivity].
    destruct (H1 eq_refl) as [[L _] _]. lia.
  - intros H. destruct (H1 H) as (R & M & _). now split.
  - unfold StatusBar.healthLabel.
    destruct (75 <=? health_score (count_words content) content) eqn:E.
    + intros _. apply Nat.leb_le in E.
      destruct (existsb not_space content) eqn:Hne.
      * destruct (H1 eq_refl) as (_ & _ & W). now apply W.
      * rewrite (H0 eq_refl) in E. lia.
    + destruct (50 <=? _); discriminate.
  - intros H. now rewrite (H0 H).
Qed.

(** X12. After [updateEditorStats] the word count is at most the
    character count, which is at most the length of the content; the two
    counts are zero together, and the reading time is zero exactly when
    the word count is.  The documents and the active pointer are not
    touched. *)
Theorem updateEditorStats_bounds (content : str) (st : EditorState) :
  let st' := updateEditorStats content st in
  editorWordCount st' <= charCount st'
  /\ charCount st' <= length content
  /\ (editorWordCount st' = 0 <-> charCount st' = 0)
  /\ (readingTime st' = 0 <-> editorWordCount st' = 0)
  /\ documents st' = documents st
  /\ activeDocumentId st' = activeDocumentId st.
Proof.
  intros st'.
  assert (W : editorWordCount st' = count_words (plain_text (ls " ") content))
    by apply editorWordCount_words.
  assert (C : charCount st' = length (plain_text (ls " ") content)).
  { subst st'. unfold updateEditorStats. cbn [charCount set_stats].
    now rewrite statsText_plain_text. }
  assert (R : readingTime st' = calcReadingTime (editorWordCount st')).
  { subst st'. unfold updateEditorStats.
    cbn [readingTime editorWordCount set_stats]. reflexivity. }
  split; [rewrite W, C; apply count_words_le|].
  split; [rewrite C; apply length_plain_text|].
  split; [|split; [|split; reflexivity]].
  - rewrite W, C. unfold plain_text.
    set (x := collapse (retag (ls " ") false content)).
    rewrite count_words_trim, count_words_zero, <- truthy_trim.
    destruct (trim x); simpl; split; congruence.
  - rewrite R. unfold calcReadingTime.
    pose proof (ceil_div_bounds (editorWordCount st') 238) as B.
    assert (P : 0 < 238) by lia. specialize (B P). lia.
Qed.

(** X13. The word count in a row of the document list, the one beside a
    document in the command palette, the one of the information panel
    and the one the store keeps for the status bar are the same number
    for the same content: the white-space separated tokens of the content
    with every tag replaced by a space. *)
Theorem word_counts_agree (content : str) (st : EditorState) :
  Panels.tokenCount content
  = editorWordCount (updateEditorStats content st)
  /\ Panels.infoWords content
     = editorWordCount (updateEditorStats content st)
  /\ editorWordCount (updateEditorStats content st)
     = count_words (retag (ls " ") false content).
Proof.
  rewrite editorWordCount_words, count_words_plain_text.
  split; [|split; [|reflexivity]].
  - unfold Panels.tokenCount.
    now rewrite count_words_split, count_words_trim, replace_markup.
  - unfold Panels.infoWords, Panels.infoText.
    fold (statsText content). rewrite statsText_plain_text.
    rewrite count_words_split, <- count_words_plain_text.
    now destruct (plain_text (ls " ") content).
Qed.

(** X14. The focus timer shows a count of seconds as minutes and
    seconds, each of at least two digits and the seconds of exactly two,
    and the count can be read back from what is shown.  A stopped timer
    stands at zero, whatever clicks and seconds came before. *)
Theorem focus_timer_display (s : nat) (history : list StatusBar.action) :
  (exists mm ss,
      StatusBar.fmt s = mm ++ ls ":" ++ ss
      /\ 2 <= length mm /\ length ss = 2
      /\ forallb is_digit (mm ++ ss) = true)
  /\ seconds_shown (StatusBar.fmt s) = s
  /\ (let f := fold_left StatusBar.act history StatusBar.stopped in
      StatusBar.running f = false -> StatusBar.seconds f = 0).
Proof.
  assert (Hmod : s mod 60 < 60) by (apply Nat.mod_upper_bound; lia).
  pose proof (padStart2_seconds (s mod 60) Hmod) as Hss.
  pose proof (padStart2_length (Ai.decimal_of_nat (s / 60))) as Hmm.
  split; [|split].
  - exists (StatusBar.padStart2 (Ai.decimal_of_nat (s / 60))),
           (StatusBar.padStart2 (Ai.decimal_of_nat (s mod 60))).
    split; [reflexivity|]. split; [exact Hmm|]. split; [exact Hss|].
    rewrite forallb_app. now rewrite !padStart2_digits.
  - unfold seconds_shown, StatusBar.fmt.
    set (mm := StatusBar.padStart2 (Ai.decimal_of_nat (s / 60))) in *.
    set (ss := StatusBar.padStart2 (Ai.decimal_of_nat (s mod 60))) in *.
    rewrite !length_app, Hss. cbn [ls String.list_ascii_of_string length].
    replace (length mm + (1 + 2) - 3) with (length mm) by lia.
    replace (length mm + (1 + 2) - 2) with (length mm + 1) by lia.
    rewrite firstn_app, Nat.sub_diag, firstn_all. cbn [firstn].
    rewrite app_nil_r.
    rewrite (app_assoc mm [":"] ss).
    replace (length mm + 1) with (length (mm ++ [":"]))
      by (rewrite length_app; reflexivity).
    rewrite skipn_app, Nat.sub_diag, skipn_all. cbn [skipn app].
    subst mm ss. rewrite !padStart2_value, !Nnat.Nat2N.id.
    pose proof (Nat.div_mod_eq s 60). lia.
  - cbv zeta.
    assert (G : forall f, (StatusBar.running f = false -> StatusBar.seconds f = 0) ->
                          StatusBar.running (fold_left StatusBar.act history f) = false ->
                          StatusBar.seconds (fold_left StatusBar.act history f) = 0).
    { induction history as [|a r IH]; intros f Hf; [exact Hf|].
      cbn [fold_left]. apply IH.
      destruct a; unfold StatusBar.act, StatusBar.click, StatusBar.tick;
        destruct (StatusBar.running f) eqn:E; cbn; auto; discriminate. }
    apply G. reflexivity.
Qed.

(** X15. Whatever the provider answers, one call of [generateReply]
    makes at most two requests, the second only for Gemini and after one
    sleep of at most 60 seconds; every request carries the trimmed,
    non-empty key; the world is otherwise only added to.  A reply that is
    returned is the content the provider resolved the last request
    with. *)
Theorem generateReply_effects
        (ceilParseFloat : str -> Ai.number) (oracle : nat -> Ai.outcome)
        (params : Ai.GenerateReplyParams) (w : Ai.world) :
  let out := Ai.generateReply ceilParseFloat oracle params w in
  let req := Ai.Request (Ai.provider params) (model_of params)
                        (key_of params) in
  exists evs,
    Ai.trace (snd out) = Ai.trace w ++ evs
    /\ Ai.served (snd out) = Ai.served w + requests evs
    /\ (evs = [] \/ evs = [req]
        \/ exists sec, sec <= 60 /\ Ai.provider params = ls "gemini"
                       /\ evs = [req; Ai.Sleep (sec * 1000); req])
    /\ (evs <> [] -> truthy (key_of params) = true)
    /\ forall r, fst out = Ai.Ok r ->
         evs <> []
         /\ oracle (Ai.served (snd out) - 1) = Ai.Resolved (Some r).
Proof.
  exact (generateReply_trace ceilParseFloat oracle params w).
Qed.

(** X16. [sendMessage] does nothing for a blank message without an
    action, or while a reply is awaited.  Otherwise, for a document whose
    text can be read, it ends with the panel idle, the input empty and
    exactly two messages added, the request of the user and one answer
    of the assistant; it makes at most two provider requests, and without
    a valid configuration none: it then waits 1200 ms and answers with
    the canned text. *)
Theorem sendMessage_outcome
        (ceilParseFloat : str -> Ai.number) (oracle : nat -> Ai.outcome)
        (instanceOfError : str -> bool)
        (settings : AiSettingsStore.AISettingsState)
        (doc : option Document) (userMessage : str)
        (action : option AiSidebar.AIAction) (p : AiSidebar.panel)
        (w : Ai.world) :
  let out := AiSidebar.sendMessage ceilParseFloat oracle instanceOfError
               settings doc userMessage action p w in
  ((existsb not_space userMessage = false /\ action = None)
   \/ AiSidebar.isLoading p = true ->
   out = (Ai.Ok p, w))
  /\ ((existsb not_space userMessage = true \/ action <> None) ->
      AiSidebar.isLoading p = false ->
      AiSidebar.getDocText doc <> None ->
      exists answer p' evs,
        out = (Ai.Ok p', Ai.mkWorld (Ai.served w + requests evs)
                                    (Ai.trace w ++ evs))
        /\ AiSidebar.messages p'
           = AiSidebar.messages p
             ++ [AiSidebar.mkMessage AiSidebar.User
                   (AiSidebar.shownRequest userMessage action);
                 AiSidebar.mkMessage AiSidebar.Assistant answer]
        /\ AiSidebar.isLoading p' = false
        /\ AiSidebar.input p' = []
        /\ AiSidebar.selectedAction p' = None
        /\ requests evs <= 2
        /\ (AiSettingsStore.hasValidConfig settings = false ->
            evs = [Ai.Sleep 1200]
            /\ answer = AiSidebar.mockResponse doc userMessage action)).
Proof.
  cbv zeta. unfold AiSidebar.sendMessage. rewrite truthy_trim. split.
  - intros [[Hb ->] | Hl].
    + now rewrite Hb.
    + rewrite Hl. now destruct (_ && _).
  - intros Hgo Hl Hdoc. rewrite Hl.
    assert (G : negb (existsb not_space userMessage)
                && negb (AiSidebar.is_some action) = false).
    { destruct Hgo as [-> | Ha]; [reflexivity|].
      destruct action; [apply andb_false_r|congruence]. }
    rewrite G. destruct (AiSidebar.getDocText doc) as [docText|];
      [|congruence].
    destruct (AiSettingsStore.hasValidConfig settings) eqn:Hv.
    + set (params := AiSidebar.replyParams settings doc docText userMessage action).
      destruct (generateReply_trace ceilParseFloat oracle params w)
        as (evs & Ht & Hs & Hshape & _ & _).
      unfold Ai.try_catch, Ai.bind.
      destruct (Ai.generateReply ceilParseFloat oracle params w)
        as [[r|e] [n t]] eqn:E; cbn [fst snd Ai.trace Ai.served] in *; subst n t.
      * eexists r, _, evs. unfold Ai.ret.
        split; [reflexivity|]. cbn. rewrite <- app_assoc.
        repeat split; try discriminate.
        destruct Hshape as [-> | [-> | (sec & _ & _ & ->)]]; cbv; lia.
      * eexists _, _, evs. unfold Ai.ret.
        split; [reflexivity|]. cbn. rewrite <- app_assoc.
        repeat split; try discriminate.
        destruct Hshape as [-> | [-> | (sec & _ & _ & ->)]]; cbv; lia.
    + unfold Ai.try_catch, Ai.bind, Ai.sleep, Ai.ret.
      eexists _, _, [Ai.Sleep 1200].
      split; [unfold requests; cbn [filter length];
              rewrite Nat.add_0_r; reflexivity|].
      cbn. rewrite <- app_assoc. repeat split. lia.
Qed.

Lemma sendMessage_outcome_witness :
  let p := AiSidebar.mkPanel [] (ls "hello") false None [] in
  exists answer p' evs,
    AiSidebar.sendMessage exact_ceil always_limited (fun _ => true)
      AiSettingsStore.initial None (ls "hello") None p Ai.start
    = (Ai.Ok p', Ai.mkWorld (Ai.served Ai.start + requests evs)
                            (Ai.trace Ai.start ++ evs))
    /\ AiSidebar.messages p'
       = AiSidebar.messages p
         ++ [AiSidebar.mkMessage AiSidebar.User
               (AiSidebar.shownRequest (ls "hello") None);
             AiSidebar.mkMessage AiSidebar.Assistant answer]
    /\ AiSidebar.isLoading p' = false
    /\ AiSidebar.input p' = []
    /\ AiSidebar.selectedAction p' = None
    /\ requests evs <= 2
    /\ (AiSettingsStore.hasValidConfig AiSettingsStore.initial = false ->
        evs = [Ai.Sleep 1200]
        /\ answer = AiSidebar.mockResponse None (ls "hello") None).
Proof.
  apply (proj2 (sendMessage_outcome exact_ceil always_limited (fun _ => true)
                  AiSettingsStore.initial None (ls "hello") None
                  (AiSidebar.mkPanel [] (ls "hello") false None []) Ai.start)).
  - left. reflexivity.
  - reflexivity.
  - discriminate.
Defined.

(** X17. [handleSave] of the settings dialog stores the key without the
    white space around it, the chosen provider, and as model the trimmed
    draft or, for a blank draft, the default of the chosen provider, so
    never a blank model; it closes the dialog.  The saved settings are
    valid exactly when the key draft is not blank, and then the key the
    panel passes to [generateReply] is not blank either. *)
Theorem handleSave_settings (d : AiSettingsDialog.drafts)
        (s : AiSettingsStore.AISettingsState)
        (doc : option Document) (docText userMessage : str)
        (action : option AiSidebar.AIAction) :
  let s' := AiSettingsDialog.handleSave d s in
  AiSettingsStore.apiKey s' = trim (AiSettingsDialog.apiKeyDraft d)
  /\ AiSettingsStore.provider s' = AiSettingsDialog.providerDraft d
  /\ AiSettingsStore.model s'
     = (if existsb not_space (AiSettingsDialog.modelDraft d)
        then trim (AiSettingsDialog.modelDraft d)
        else if str_eqb (AiSettingsDialog.providerDraft d) (ls "gemini")
             then AiSettingsStore.DEFAULT_GEMINI_MODEL
             else AiSettingsStore.DEFAULT_OPENAI_MODEL)
  /\ truthy (AiSettingsStore.model s') = true
  /\ AiSettingsStore.openAISettings s' = false
  /\ AiSettingsStore.hasValidConfig s'
     = existsb not_space (AiSettingsDialog.apiKeyDraft d)
  /\ truthy (key_of (AiSidebar.replyParams s' doc docText userMessage action))
     = existsb not_space (AiSettingsDialog.apiKeyDraft d).
Proof.
  cbv zeta.
  assert (V : AiSettingsStore.hasValidConfig (AiSettingsDialog.handleSave d s)
              = existsb not_space (AiSettingsDialog.apiKeyDraft d)).
  { unfold AiSettingsStore.hasValidConfig.
    change (AiSettingsStore.apiKey (AiSettingsDialog.handleSave d s))
      with (trim (AiSettingsDialog.apiKeyDraft d)).
    now rewrite trim_idem, truthy_trim. }
  assert (M : AiSettingsStore.model (AiSettingsDialog.handleSave d s)
              = (if truthy (trim (AiSettingsDialog.modelDraft d))
                 then trim (AiSettingsDialog.modelDraft d)
                 else if str_eqb (AiSettingsDialog.providerDraft d) (ls "gemini")
                      then AiSettingsStore.DEFAULT_GEMINI_MODEL
                      else AiSettingsStore.DEFAULT_OPENAI_MODEL))
    by reflexivity.
  split; [reflexivity|]. split; [reflexivity|].
  split; [|split; [|split; [reflexivity|split; [exact V|]]]].
  - rewrite M. now rewrite truthy_trim.
  - rewrite M.
    destruct (truthy (trim (AiSettingsDialog.modelDraft d))) eqn:E;
      [exact E|].
    now destruct (str_eqb (AiSettingsDialog.providerDraft d) (ls "gemini")).
  - now rewrite replyParams_key.
Qed.

(** X18. Making a query longer never brings an entry back: when the
    query [q] occurs in the query [q'], letters compared without regard
    to case, every title the document tree matches for [q'] it matches
    for [q], and every entry the slash menu lists for [q'] it lists for
    [q].  The empty query matches every title and lists the whole
    table. *)
Theorem search_narrows (q q' : str) :
  includes (toLowerCase q) (toLowerCase q') = true ->
  (forall d, Sidebar.titleMatches q' d = Some true ->
             Sidebar.titleMatches q d = Some true)
  /\ (forall item, In item (SlashCommand.items q') ->
                   In item (SlashCommand.items q))
  /\ (forall d, title d <> None -> Sidebar.titleMatches [] d = Some true)
  /\ SlashCommand.items [] = SlashCommand.COMMANDS.
Proof.
  intros H.
  assert (F : forall f, SlashCommand.fieldMatches q' f = true ->
                        SlashCommand.fieldMatches q f = true).
  { intros f. unfold SlashCommand.fieldMatches. now apply includes_trans. }
  split; [|split; [|split]].
  - intros d. unfold Sidebar.titleMatches.
    destruct (title d) as [t|]; [|discriminate].
    intros [= E]. f_equal. now apply (F t).
  - intros item. unfold SlashCommand.items. rewrite !filter_In.
    intros [Hin Hm]. split; [exact Hin|].
    apply orb_true_iff in Hm as [Hm | Hm];
      [apply orb_true_iff in Hm as [Hm | Hm]|];
      apply F in Hm; rewrite Hm; rewrite ?orb_true_r; reflexivity.
  - intros d. unfold Sidebar.titleMatches.
    destruct (title d) as [t|]; [|congruence].
    intros _. f_equal. apply includes_nil.
  - reflexivity.
Qed.

Lemma search_narrows_witness :
  (forall d, Sidebar.titleMatches (ls "Head") d = Some true ->
             Sidebar.titleMatches (ls "EA") d = Some true)
  /\ (forall item, In item (SlashCommand.items (ls "Head")) ->
                   In item (SlashCommand.items (ls "EA")))
  /\ (forall d, title d <> None -> Sidebar.titleMatches [] d = Some true)
  /\ SlashCommand.items [] = SlashCommand.COMMANDS.
Proof.
  apply (search_narrows (ls "EA") (ls "Head")). reflexivity.
Defined.

(** X19. For every query the slash menu shows its entries, which it
    puts under their groups, in the very order of the list the arrow
    keys walk through: grouping the filtered entries moves none of
    them. *)
Theorem slash_menu_order (query : str) :
  SlashCommand.shown (SlashCommand.items query) = SlashCommand.items query.
Proof. apply slash_menu_order_aux. Qed.

(** X20. In a slash menu of [n] entries with the entry [i] selected,
    [ArrowDown] and [ArrowUp] select an entry of the menu again, each
    undoes the other, and [Enter] runs the entry shown at place [i].
    With no entry to show the index is lost and [Enter] runs nothing. *)
Theorem slash_menu_keys (query : str) (i : nat) :
  let l := SlashCommand.items query in
  let n := length l in
  i < n ->
  (exists j, SlashCommand.arrowDown n (Some i) = Some j /\ j < n
             /\ SlashCommand.arrowUp n (Some j) = Some i)
  /\ (exists j, SlashCommand.arrowUp n (Some i) = Some j /\ j < n
                /\ SlashCommand.arrowDown n (Some j) = Some i)
  /\ (exists item, SlashCommand.selectItem l (Some i) = Some item
                   /\ nth_error (SlashCommand.shown l) i = Some item)
  /\ SlashCommand.selectItem l (SlashCommand.arrowDown 0 (Some i)) = None.
Proof.
  intros l n H.
  assert (Hn : (n =? 0) = false) by (apply Nat.eqb_neq; lia).
  split; [|split; [|split]].
  - exists ((i + 1) mod n). unfold SlashCommand.arrowDown, SlashCommand.arrowUp.
    rewrite Hn. split; [reflexivity|].
    split; [apply Nat.mod_upper_bound; lia|].
    f_equal. now apply mod_next_prev.
  - exists ((i + n - 1) mod n).
    unfold SlashCommand.arrowDown, SlashCommand.arrowUp.
    rewrite Hn. split; [reflexivity|].
    split; [apply Nat.mod_upper_bound; lia|].
    f_equal. now apply mod_prev_next.
  - subst l. rewrite slash_menu_order_aux. cbn [SlashCommand.selectItem].
    destruct (nth_error (SlashCommand.items query) i) as [item|] eqn:E.
    + now exists item.
    + apply nth_error_None in E. subst n. lia.
  - reflexivity.
Qed.

Lemma slash_menu_keys_witness :
  let l := SlashCommand.items (ls "list") in
  let n := length l in
  (exists j, SlashCommand.arrowDown n (Some 2) = Some j /\ j < n
             /\ SlashCommand.arrowUp n (Some j) = Some 2)
  /\ (exists j, SlashCommand.arrowUp n (Some 2) = Some j /\ j < n
                /\ SlashCommand.arrowDown n (Some j) = Some 2)
  /\ (exists item, SlashCommand.selectItem l (Some 2) = Some item
                   /\ nth_error (SlashCommand.shown l) 2 = Some item)
  /\ SlashCommand.selectItem l (SlashCommand.arrowDown 0 (Some 2)) = None.
Proof.
  apply (slash_menu_keys (ls "list") 2). vm_compute. lia.
Defined.


(** X22. When the plain-text editor takes in the content of its
    document, a content without [<] is shown as it is and the store is
    left alone.  A content that looks like markup is converted once: the
    text shown is its plain text, the store holds that text under the
    same id, title and parent, so the document stays a plain-text one,
    and the text has no white space in front or at the end of a line. *)
Theorem sync_takes_text (now : Z) (st : EditorState) (localValue : str)
        (a : str) (d : Document) (c : str) :
  activeDocumentId st = Some a -> truthy a = true ->
  lookup (documents st) a = Some d -> id d = Some a ->
  PlainTextEditor.isPlain (Some d) = true -> content d = Some c ->
  let out := PlainTextEditor.sync now st localValue in
  (existsb (is_chr "<") c = false -> out = (st, c))
  /\ (PlainTextEditor.looksLikeMarkup c = false -> out = (st, c))
  /\ (PlainTextEditor.looksLikeMarkup c = true ->
      snd out = htmlToPlainText c
      /\ starts_space (snd out) = false
      /\ no_space_at_line_end (snd out) = true
      /\ activeDocumentId (fst out) = Some a
      /\ exists d', lookup (documents (fst out)) a = Some d'
                    /\ content d' = Some (snd out)
                    /\ id d' = Some a /\ title d' = title d
                    /\ parentId d' = parentId d
                    /\ PlainTextEditor.isPlain (Some d') = true).
Proof.
  intros Ha Hta Hl Hid Hp Hc out.
  assert (E : out = if PlainTextEditor.looksLikeMarkup c
                    then (updateDocument now a
                            (onlyContent (htmlToPlainText c)) st,
                          htmlToPlainText c)
                    else (st, c)).
  { subst out. unfold PlainTextEditor.sync, PlainTextEditor.activeDoc.
    rewrite Ha, Hta, Hl, Hp, Hc, Hid. reflexivity. }
  split; [|split].
  - intros H. now rewrite E, (no_lt_not_markup c H).
  - intros H. now rewrite E, H.
  - intros H. rewrite E, H. cbn [fst snd].
    destruct (htmlToPlainText_shape c) as [Hs He].
    repeat (split; [assumption || reflexivity|]).
    rewrite updateDocument_lookup, str_eqb_refl. unfold stored. rewrite Hl.
    set (d' := spread (spread d (onlyContent (htmlToPlainText c)))
                      (onlyUpdatedAt now)).
    assert (T : title d' = title d) by reflexivity.
    exists d'. split; [reflexivity|]. split; [reflexivity|].
    split; [exact Hid|]. split; [exact T|]. split; [reflexivity|].
    now rewrite (isPlain_title d d' T).
Qed.

Lemma sync_takes_text_witness :
  let d := {| id := Some (ls "n1"); title := Some (ls "notes.txt");
              content := Some (ls "<p>a</p><p>b  </p>");
              parentId := Some None; isFolder := Some false;
              children := None; createdAt := Some 0%Z;
              updatedAt := Some 0%Z; wordCount := None |} in
  let st := state_of [(ls "n1", d)] (Some (ls "n1")) in
  let out := PlainTextEditor.sync 5%Z st [] in
  (existsb (is_chr "<") (ls "<p>a</p><p>b  </p>") = false ->
   out = (st, ls "<p>a</p><p>b  </p>"))
  /\ (PlainTextEditor.looksLikeMarkup (ls "<p>a</p><p>b  </p>") = false ->
      out = (st, ls "<p>a</p><p>b  </p>"))
  /\ (PlainTextEditor.looksLikeMarkup (ls "<p>a</p><p>b  </p>") = true ->
      snd out = htmlToPlainText (ls "<p>a</p><p>b  </p>")
      /\ starts_space (snd out) = false
      /\ no_space_at_line_end (snd out) = true
      /\ activeDocumentId (fst out) = Some (ls "n1")
      /\ exists d', lookup (documents (fst out)) (ls "n1") = Some d'
                    /\ content d' = Some (snd out)
                    /\ id d' = Some (ls "n1") /\ title d' = title d
                    /\ parentId d' = parentId d
                    /\ PlainTextEditor.isPlain (Some d') = true).
Proof.
  apply (sync_takes_text 5%Z
           (state_of [(ls "n1",
                       {| id := Some (ls "n1"); title := Some (ls "notes.txt");
                          content := Some (ls "<p>a</p><p>b  </p>");
                          parentId := Some None; isFolder := Some false;
                          children := None; createdAt := Some 0%Z;
                          updatedAt := Some 0%Z; wordCount := None |})]
                     (Some (ls "n1")))
           [] (ls "n1")); reflexivity.
Defined.

(** X23. [handleRename] never stores a blank title or one with white
    space around it: the title becomes the trimmed text of the input, or
    [Untitled] when that is blank.  The extension of the document, and
    with it the editor it opens in, is then the one of the new title;
    the content is not touched. *)
Theorem handleRename_title (now : Z) (doc : Document) (editTitle : str)
        (st : EditorState) (k : str) :
  id doc = Some k ->
  exists d' t,
    lookup (documents (Sidebar.handleRename now doc editTitle st)) k = Some d'
    /\ title d' = Some t
    /\ t = (if existsb not_space editTitle then trim editTitle
            else ls "Untitled")
    /\ truthy t = true /\ starts_space t = false /\ ends_space t = false
    /\ getDocumentExtension d' = extensionOf_spec t
    /\ content d' = content (stored (documents st) k)
    /\ activeDocumentId (Sidebar.handleRename now doc editTitle st)
       = activeDocumentId st.
Proof.
  intros Hid. unfold Sidebar.handleRename. rewrite Hid. cbn [property_key].
  rewrite truthy_trim.
  set (t := if existsb not_space editTitle then trim editTitle
            else ls "Untitled").
  assert (Ht : truthy t = true /\ starts_space t = false
               /\ ends_space t = false).
  { subst t. destruct (existsb not_space editTitle) eqn:E.
    - rewrite truthy_trim, E, starts_space_trim, ends_space_trim. auto.
    - repeat split. }
  destruct Ht as (Ht1 & Ht2 & Ht3).
  unfold renameDocument. cbn [documents activeDocumentId set_documents].
  rewrite lookup_set_key, str_eqb_refl.
  eexists. exists t. split; [reflexivity|].
  cbn [spread title content onlyTitle onlyUpdatedAt orElse].
  split; [reflexivity|]. split; [reflexivity|].
  repeat (split; [assumption|]).
  split; [|split; reflexivity].
  rewrite getDocumentExtension_trimmed. unfold titleOf, trim.
  cbn [spread title onlyTitle onlyUpdatedAt orElse].
  now rewrite (trimStart_fixed t Ht2), (trimEnd_fixed t Ht3).
Qed.

Lemma handleRename_title_witness :
  exists d' t,
    lookup (documents (Sidebar.handleRename 3%Z
                         (document (ls "note") (Some (ls "inner")) false)
                         (ls "  Draft.TXT ")
                         (state_of sample_tree None))) (ls "note") = Some d'
    /\ title d' = Some t
    /\ t = (if existsb not_space (ls "  Draft.TXT ")
            then trim (ls "  Draft.TXT ") else ls "Untitled")
    /\ truthy t = true /\ starts_space t = false /\ ends_space t = false
    /\ getDocumentExtension d' = extensionOf_spec t
    /\ content d' = content (stored (documents (state_of sample_tree None))
                                    (ls "note"))
    /\ activeDocumentId (Sidebar.handleRename 3%Z
                           (document (ls "note") (Some (ls "inner")) false)
                           (ls "  Draft.TXT ")
                           (state_of sample_tree None))
       = activeDocumentId (state_of sample_tree None).
Proof.
  apply (handleRename_title 3%Z
           (document (ls "note") (Some (ls "inner")) false)
           (ls "  Draft.TXT ") (state_of sample_tree None) (ls "note")).
  reflexivity.
Defined.

(** X24. Whatever entry of the new-file menu is chosen, for plain text,
    for Markdown or for a document, the document made is the same: it is
    called [Untitled], has no extension and so does not open in the
    plain-text editor; it is stored under the new id and made the active
    document. *)
Theorem newFile_ignores_extension (newId : str) (now : Z)
        (parentId : option str) (extension : option str) (st : EditorState) :
  Sidebar.newFile newId now parentId extension st
  = Sidebar.newFile newId now parentId None st
  /\ snd (Sidebar.newFile newId now parentId extension st) = newId
  /\ activeDocumentId (fst (Sidebar.newFile newId now parentId extension st))
     = Some newId
  /\ exists d,
       lookup (documents (fst (Sidebar.newFile newId now parentId extension st)))
              newId = Some d
       /\ title d = Some (ls "Untitled")
       /\ getDocumentExtension d = None
       /\ PlainTextEditor.isPlain (Some d) = false.
Proof.
  split; [reflexivity|]. split; [reflexivity|]. split; [reflexivity|].
  unfold Sidebar.newFile, createDocument. cbn [fst documents set_documents].
  rewrite lookup_set_key, str_eqb_refl. eexists. split; [reflexivity|].
  repeat split.
Qed.

(** X25. The [AI] button of the top bar always leaves the assistant's
    tab chosen, and it shows the assistant exactly when it was not
    showing before: it opens a closed panel, turns an open panel from
    the information tab to the assistant, and closes a panel that shows
    the assistant.  It changes nothing else of the store. *)
Theorem aiButton_shows_assistant (st : EditorState) :
  let st' := EditorLayout.aiButton st in
  rightSidebarTab st' = TabAi
  /\ isRightSidebarOpen st'
     = negb (isRightSidebarOpen st
             && match rightSidebarTab st with
                | TabAi => true
                | TabOutline => false
                end)
  /\ documents st' = documents st
  /\ activeDocumentId st' = activeDocumentId st
  /\ isZenMode st' = isZenMode st
  /\ isLeftSidebarOpen st' = isLeftSidebarOpen st.
Proof.
  destruct st as [docs act zen lft rgt tab w c r h].
  unfold EditorLayout.aiButton. cbn.
  destruct rgt, tab; cbn; repeat split.
Qed.

(** X26. The gutter of a code block holds one number for every line of
    the code, counting from 1: read line by line it is the list of the
    numbers from 1 to one more than the newlines of the code; for an
    empty block it is the single line [1]. *)
Theorem updateLineNumbers_lines (text : str) :
  CodeBlock.lines (CodeBlock.updateLineNumbers text)
  = map Ai.decimal_of_nat (seq 1 (S (length (filter (is_chr LF) text))))
  /\ length (CodeBlock.lines (CodeBlock.updateLineNumbers text))
     = length (CodeBlock.lines text)
  /\ CodeBlock.updateLineNumbers [] = ls "1".
Proof.
  assert (N : length (CodeBlock.lines text)
              = S (length (filter (is_chr LF) text))).
  { unfold CodeBlock.lines. destruct text as [|c r]; [reflexivity|].
    cbn [truthy]. apply split_lit1_length. }
  assert (L : CodeBlock.lines (CodeBlock.updateLineNumbers text)
              = map Ai.decimal_of_nat
                    (seq 1 (S (length (filter (is_chr LF) text))))).
  { unfold CodeBlock.updateLineNumbers. rewrite N.
    set (l := map Ai.decimal_of_nat (seq 1 (S _))).
    assert (T : truthy (CodeBlock.joinWith [LF] l) = true).
    { subst l. cbn [seq map]. now destruct (map _ _). }
    unfold CodeBlock.lines. rewrite T. apply split_joinWith.
    - subst l. discriminate.
    - intros x Hx. subst l. apply in_map_iff in Hx as (n & <- & _).
      apply decimal_of_nat_no_LF. }
  split; [exact L|]. split; [|reflexivity].
  now rewrite L, N, length_map, length_seq.
Qed.

(** X27. A debounced save outlives the delete of its document.  When a
    document is edited, deleted before the 600 ms have passed, and the
    timer then fires, the save puts an entry back under the id of the
    deleted document that holds the content of the edit and a new
    [updatedAt] and nothing else: no id, no title, no parent, no folder
    mark.  The table is then no longer well formed. *)
Theorem late_save_after_delete (k : Surface.kind) (st : EditorState)
        (d c : str) (fuel ms : nat) :
  sound (documents st) -> activeDocumentId st = Some d -> truthy d = true ->
  length (documents st) < fuel -> 600 <= ms ->
  exists s1,
    after_delete fuel d
      (fst (Surface.step k (Surface.mount st) (Surface.Edit c))) = Some s1
    /\ lookup (documents (Surface.store s1)) d = None
    /\ exists g,
         lookup (documents
                   (Surface.store
                      (fst (Surface.run k s1
                              [Surface.Elapse ms; Surface.Fire])))) d
         = Some g
         /\ g = spread (onlyContent c) (onlyUpdatedAt (Z.of_nat ms))
         /\ content g = Some c /\ id g = None /\ title g = None
         /\ parentId g = None /\ isFolder g = None
         /\ snd (Surface.run k s1 [Surface.Elapse ms; Surface.Fire])
            = [Surface.mkSave d c]
         /\ (well_formed
               (documents
                  (Surface.store
                     (fst (Surface.run k s1
                             [Surface.Elapse ms; Surface.Fire])))) ->
             False).
Proof.
  intros (Hwf & Hac & Hcl) Hact Htd Hfuel Hms.
  destruct (mount_edit k st c) as (Hp & Hck & Hdocs & Hactive).
  set (s0 := fst (Surface.step k (Surface.mount st) (Surface.Edit c))) in *.
  assert (Hwf0 : well_formed (documents (Surface.store s0)))
    by now rewrite Hdocs.
  assert (Hac0 : acyclic (documents (Surface.store s0)))
    by now rewrite Hdocs.
  assert (Hf0 : length (documents (Surface.store s0)) < fuel)
    by now rewrite Hdocs.
  destruct (deleteDocument_filter (Surface.store s0) d fuel Hwf0 Hac0 Hf0)
    as (keep & E & Hkeep).
  unfold after_delete. rewrite E. eexists. split; [reflexivity|].
  cbn [Surface.store documents set_documents].
  assert (Hgone : lookup (filter (fun kv => keep (fst kv))
                                 (documents (Surface.store s0))) d = None).
  { rewrite lookup_filter.
    assert (Hk : keep d = false) by (apply Hkeep; now left).
    now rewrite Hk. }
  split; [exact Hgone|].
  assert (Hdue : (600 <=? Surface.clock s0 + ms) = true)
    by (apply Nat.leb_le; lia).
  cbn [Surface.run Surface.step Surface.clock Surface.pending Surface.store
       fst snd].
  rewrite Hp. cbn [Surface.run_due Surface.due]. rewrite Hdue.
  unfold Surface.callback. cbn [Surface.savedFor Surface.savedContent].
  rewrite Hact, Htd, Hck. cbn [Nat.add].
  set (stdel := set_documents (Surface.store s0) _ _).
  assert (Hg : lookup (documents
                         (updateDocument (Z.of_nat ms) d (onlyContent c) stdel))
                      d
               = Some (spread (onlyContent c) (onlyUpdatedAt (Z.of_nat ms)))).
  { rewrite updateDocument_lookup, str_eqb_refl. unfold stored.
    subst stdel. cbn [documents set_documents]. rewrite Hgone.
    now rewrite spread_empty. }
  exists (spread (onlyContent c) (onlyUpdatedAt (Z.of_nat ms))).
  assert (Hg' : lookup
                  (documents
                     match k with
                     | Surface.Tiptap =>
                         updateDocument (Z.of_nat ms) d (onlyContent c) stdel
                     | Surface.PlainText =>
                         updateEditorStats c
                           (updateDocument (Z.of_nat ms) d (onlyContent c) stdel)
                     end) d
                = Some (spread (onlyContent c) (onlyUpdatedAt (Z.of_nat ms))))
    by (destruct k; exact Hg).
  destruct k; cbn [fst snd Surface.store app];
    (split; [exact Hg'|]); repeat (split; [reflexivity|]);
    intros [_ Hbad]; apply lookup_In in Hg'; apply Hbad in Hg';
    destruct Hg' as [Hi _]; discriminate Hi.
Qed.

Lemma late_save_after_delete_witness :
  exists s1,
    after_delete 5 (ls "note")
      (fst (Surface.step Surface.Tiptap
              (Surface.mount (state_of sample_tree (Some (ls "note"))))
              (Surface.Edit (ls "<p>late</p>")))) = Some s1
    /\ lookup (documents (Surface.store s1)) (ls "note") = None
    /\ exists g,
         lookup (documents
                   (Surface.store
                      (fst (Surface.run Surface.Tiptap s1
                              [Surface.Elapse 600; Surface.Fire]))))
                (ls "note")
         = Some g
         /\ g = spread (onlyContent (ls "<p>late</p>"))
                       (onlyUpdatedAt (Z.of_nat 600))
         /\ content g = Some (ls "<p>late</p>") /\ id g = None
         /\ title g = None /\ parentId g = None /\ isFolder g = None
         /\ snd (Surface.run Surface.Tiptap s1
                   [Surface.Elapse 600; Surface.Fire])
            = [Surface.mkSave (ls "note") (ls "<p>late</p>")]
         /\ (well_formed
               (documents
                  (Surface.store
                     (fst (Surface.run Surface.Tiptap s1
                             [Surface.Elapse 600; Surface.Fire])))) ->
             False).
Proof.
  apply (late_save_after_delete Surface.Tiptap
           (state_of sample_tree (Some (ls "note")))
           (ls "note") (ls "<p>late</p>") 5 600).
  - exact sample_tree_sound.
  - reflexivity.
  - reflexivity.
  - simpl. lia.
  - lia.
Defined.

(** X28. For a well-formed table without cycles whose documents all have
    a title and a content, the document tree renders, and its rows are
    exactly the documents that hang below the root under open folders
    and that the search lets through together with every folder above
    them, each at the depth of its nesting.  So a document whose parent
    is missing or is not a folder gets no row, and with a query a
    document below a folder that neither matches nor has a matching
    child is hidden even when its own title matches.  The two counts of
    the footer add up to the size of the table. *)
Theorem tree_rows (docs : table) (isOpen : option str -> bool)
        (searchQuery : str) (fuel : nat) :
  well_formed docs -> acyclic docs -> complete docs ->
  length docs < fuel ->
  exists rows,
    Sidebar.tree fuel docs isOpen searchQuery = Some rows
    /\ (forall d depth,
          In (d, depth) rows
          <-> exists k, lookup docs k = Some d
                        /\ visible docs isOpen searchQuery k depth)
    /\ Sidebar.footerDocuments docs + Sidebar.footerFolders docs
       = length docs.
Proof.
  intros Hwf Hac Hc Hfuel.
  destruct (tree_rows_spec docs isOpen searchQuery (height docs) Hwf Hc
              (acyclic_measured docs Hac) fuel) as (rows & E & H).
  { intros k. pose proof (height_bound docs k). lia. }
  exists rows. split; [exact E|]. split; [exact H|].
  unfold Sidebar.footerDocuments, Sidebar.footerFolders.
  rewrite filter_split_length. apply length_map.
Qed.

Lemma tree_rows_witness :
  exists rows,
    Sidebar.tree 5 sample_tree (fun _ => true) (ls "note") = Some rows
    /\ (forall d depth,
          In (d, depth) rows
          <-> exists k, lookup sample_tree k = Some d
                        /\ visible sample_tree (fun _ => true) (ls "note")
                                   k depth)
    /\ Sidebar.footerDocuments sample_tree + Sidebar.footerFolders sample_tree
       = length sample_tree.
Proof.
  apply (tree_rows sample_tree (fun _ => true) (ls "note") 5).
  - exact sample_tree_well_formed.
  - exact sample_tree_acyclic.
  - intros k d H. simpl in H.
    destruct H as [[= <- <-] | [[= <- <-] | [[= <- <-] | [[= <- <-] | []]]]];
      split; discriminate.
  - simpl. lia.
Defined.

(** X29. [normalizeLang] never translates a name: what it returns is
    [null] or the name it was given in lower case, since every alias its
    table knows is itself a key of the language map and is returned
    before the table is read.  So [py] stays [py], for which the
    language menu has no entry, although the alias table holds
    [python] for it. *)
Theorem normalizeLang_keeps_name (inherited : str -> bool)
        (lang : option str) :
  (match CodeBlockCodeMirror.normalizeLang inherited lang with
   | Some n => exists l, lang = Some l /\ n = toLowerCase l
                         /\ CodeBlockCodeMirror.hasLanguage inherited n = true
   | None => True
   end)
  /\ CodeBlockCodeMirror.normalizeLang inherited (Some (ls "py"))
     = Some (ls "py")
  /\ assoc CodeBlockCodeMirror.aliasMap (ls "py") = Some (ls "python")
  /\ existsb (str_eqb (CodeBlockCodeMirror.normalizedLang inherited (ls "PY")))
             CodeBlockCodeMirror.LANG_OPTIONS = false.
Proof.
  split; [|repeat split].
  destruct lang as [l|]; [|exact I].
  unfold CodeBlockCodeMirror.normalizeLang.
  destruct (truthy l); cbn [negb]; [|exact I].
  set (key := toLowerCase l).
  destruct (CodeBlockCodeMirror.hasLanguage inherited key) eqn:E.
  - exists l. auto.
  - assert (A : assoc CodeBlockCodeMirror.aliasMap key = None).
    { unfold CodeBlockCodeMirror.hasLanguage in E.
      apply orb_false_iff in E as [E _].
      unfold CodeBlockCodeMirror.aliasMap. cbn [assoc].
      repeat match goal with
             | |- context [str_eqb ?a key] =>
                 let H := fresh "H" in
                 destruct (str_eqb a key) eqn:H;
                 [apply str_eqb_eq in H; rewrite <- H in E;
                  vm_compute in E; discriminate E|]
             end.
      reflexivity. }
    rewrite A. exact I.
Qed.

(** X30. [handleClear] of the settings dialog empties the stored key and
    the key draft, keeps provider and model, and closes the dialog; the
    settings are then not valid, and [sendMessage] makes no provider
    request with them, whatever the message, the action, the document
    and the state of the panel: the world gains at most the 1200 ms
    wait of the demo answer. *)
Theorem handleClear_stops_requests
        (ceilParseFloat : str -> Ai.number) (oracle : nat -> Ai.outcome)
        (instanceOfError : str -> bool)
        (d : AiSettingsDialog.drafts) (s : AiSettingsStore.AISettingsState)
        (doc : option Document) (userMessage : str)
        (action : option AiSidebar.AIAction) (p : AiSidebar.panel)
        (w : Ai.world) :
  let s' := snd (AiSettingsDialog.handleClear d s) in
  let out := AiSidebar.sendMessage ceilParseFloat oracle instanceOfError
               s' doc userMessage action p w in
  AiSettingsStore.apiKey s' = []
  /\ AiSettingsDialog.apiKeyDraft (fst (AiSettingsDialog.handleClear d s)) = []
  /\ AiSettingsStore.provider s' = AiSettingsStore.provider s
  /\ AiSettingsStore.model s' = AiSettingsStore.model s
  /\ AiSettingsStore.openAISettings s' = false
  /\ AiSettingsStore.hasValidConfig s' = false
  /\ Ai.served (snd out) = Ai.served w
  /\ (Ai.trace (snd out) = Ai.trace w
      \/ Ai.trace (snd out) = Ai.trace w ++ [Ai.Sleep 1200]).
Proof.
  cbv zeta. repeat (split; [reflexivity|]).
  unfold AiSidebar.sendMessage.
  change (AiSettingsStore.hasValidConfig (snd (AiSettingsDialog.handleClear d s)))
    with false.
  destruct (negb (truthy (trim userMessage)) && negb (AiSidebar.is_some action));
    [split; [reflexivity|now left]|].
  destruct (AiSidebar.isLoading p); [split; [reflexivity|now left]|].
  destruct (AiSidebar.getDocText doc); [|split; [reflexivity|now left]].
  split; [reflexivity|now right].
Qed.
